(** * solid-wire: the local record store and its push-pull sync engine

    A shallow embedding of [src/idb.ts] (the IndexedDB record store and the
    per-type public API) and of the service component that owns
    [triggerSync], followed by the properties of the specification.

    The object store is a finite map from ids to records, [localStorage] a
    finite map from keys to strings. An asynchronous function is a function
    on that state which also says how its promise ends: resolved, rejected,
    or never settled. What the browser and the application decide (storage
    errors, hooks, the server) is an argument of the model. *)

From Stdlib Require Import ZArith Lia.
From stdpp Require Import gmap strings list fin_maps pretty.

Local Open Scope string_scope.
Local Open Scope list_scope.
Set Warnings "-register-all".

(** ** JavaScript values

    Record payloads are typed [any] in [types.ts]. Numbers are restricted to
    integer-valued doubles; [VNonFinite] stands for [NaN] and the infinities. *)
Module JS.

Inductive value : Type :=
| VUndefined
| VNull
| VBool (b : bool)
| VNum (n : Z)
| VNonFinite
| VStr (s : string)
| VBigInt (n : Z)
| VSymbol
| VFunction
| VDate (iso : option string)   (* [None]: an invalid date *)
| VArr (items : list value)
| VObj (props : list (string * value)).

(** What [JSON.stringify] makes of a value in property or element position,
    read back by [JSON.parse]. *)
Inductive serialized : Type :=
| Throws                    (* TypeError: a BigInt somewhere inside *)
| Omitted                   (* undefined, a symbol or a function *)
| Json (v : value).

Fixpoint serialize (v : value) : serialized :=
  match v with
  | VUndefined | VSymbol | VFunction => Omitted
  | VNull => Json VNull
  | VBool b => Json (VBool b)
  | VNum n => Json (VNum n)
  | VNonFinite => Json VNull
  | VStr s => Json (VStr s)
  | VBigInt _ => Throws
  | VDate (Some iso) => Json (VStr iso)
  | VDate None => Json VNull
  | VArr items =>
      let fix elements (l : list value) : option (list value) :=
        match l with
        | [] => Some []
        | x :: l' =>
            match serialize x, elements l' with
            | Throws, _ | _, None => None
            | Omitted, Some r => Some (VNull :: r)
            | Json y, Some r => Some (y :: r)
            end
        end in
      match elements items with
      | Some r => Json (VArr r)
      | None => Throws
      end
  | VObj props =>
      let fix members (l : list (string * value)) : option (list (string * value)) :=
        match l with
        | [] => Some []
        | (k, x) :: l' =>
            match serialize x, members l' with
            | Throws, _ | _, None => None
            | Omitted, Some r => Some r
            | Json y, Some r => Some ((k, y) :: r)
            end
        end in
      match members props with
      | Some r => Json (VObj r)
      | None => Throws
      end
  end.

(** [JSON.parse(JSON.stringify(v))]; [None] when either call throws. At top
    level [JSON.stringify] of an omitted value returns [undefined], which
    [JSON.parse] refuses with a SyntaxError. *)
Definition json_roundtrip (v : value) : option value :=
  match serialize v with
  | Json w => Some w
  | Omitted | Throws => None
  end.

(** The structured clone that [objectStore.put] takes of a record: it
    throws a DataCloneError on a function or a symbol anywhere inside. *)
Fixpoint cloneable (v : value) : bool :=
  match v with
  | VFunction | VSymbol => false
  | VArr items => forallb cloneable items
  | VObj props => forallb (λ p, cloneable p.2) props
  | _ => true
  end.

(** Object spread [{ ...v }]: the own enumerable properties of [v]. *)
Definition spread (v : value) : value :=
  match v with
  | VObj props => VObj props
  | VArr items => VObj (imap (λ i x, (pretty i, x)) items)
  | VStr s =>
      VObj (imap (λ i c, (pretty i, VStr (String c EmptyString)))
                 (Stdlib.Strings.String.list_ascii_of_string s))
  | _ => VObj []
  end.

End JS.

(** ** Promises

    An awaited promise either resolves, rejects with a reason, or never
    settles. *)
Inductive outcome (A : Type) : Type :=
| Resolved (a : A)
| Rejected (e : string)
| Pending.
Arguments Resolved {A} a.
Arguments Rejected {A} e.
Arguments Pending {A}.

(** [Promise.all]: rejects as soon as one input rejects, otherwise settles
    only when every input has resolved. *)
Fixpoint Promise_all {A} (ps : list (outcome A)) : outcome (list A) :=
  match ps with
  | [] => Resolved []
  | p :: ps' =>
      match p, Promise_all ps' with
      | Rejected e, _ => Rejected e
      | _, Rejected e => Rejected e
      | Pending, _ | _, Pending => Pending
      | Resolved a, Resolved l => Resolved (a :: l)
      end
  end.

Definition void {A} (o : outcome A) : outcome unit :=
  match o with
  | Resolved _ => Resolved tt
  | Rejected e => Rejected e
  | Pending => Pending
  end.

(** ** Data model ([types.ts]) *)

Module IdbRecord.
Record t : Type := mk {
  id : string;
  type : string;
  deleted : option bool;        (* deleted?: boolean *)
  unsynced : option string;     (* unsynced?: "true" *)
  data : JS.value
}.
End IdbRecord.

Module UnsyncedRecord.
Record t : Type := mk {
  id : string;
  type : string;
  state : string;
  data : JS.value
}.
End UnsyncedRecord.

Module SyncedRecord.
Record t : Type := mk {
  id : string;
  state : string;
  type : string;
  data : JS.value
}.
End SyncedRecord.

Definition UnsyncedRecordStates : list string := ["updated"; "deleted"].

(** ** The environment of a store instance

    What the code receives from outside: the hooks passed to [useIdb], and
    the failures of the browser's storage ([request.onerror], a rejected
    [indexedDB.open], a throwing [localStorage] call), given as oracles. *)

Inductive IdbOp : Type :=
| OpOpen                               (* indexedDB.open(name, 1) *)
| OpGet (id : string)                  (* objectStore("records").get(id) *)
| OpGetAll (index key : string)        (* index(index).getAll(key) *)
| OpPut (id : string)                  (* objectStore("records").put(record) *)
| OpDelete (id : string).              (* objectStore("records").delete(id) *)

Inductive StorageOp : Type :=
| OpGetItem (key : string)
| OpSetItem (key value : string)
| OpRemoveItem (key : string).

Inductive Stage : Type := beforeRead | beforeSave.

(** A hook is called with [(record.type, record.data)]; what it returns is
    only awaited. A hook is taken to leave the data it is shown as it is. *)
Definition HookFn : Type := string → JS.value → outcome unit.

Record Hooks : Type := {
  onBeforeRead : option HookFn;
  onBeforeSave : option HookFn
}.

Definition hook_at (stage : Stage) (h : Hooks) : option HookFn :=
  match stage with
  | beforeRead => onBeforeRead h
  | beforeSave => onBeforeSave h
  end.

Record Env : Type := {
  hooks : list Hooks;
  idb_error : IdbOp → option string;
  storage_error : StorageOp → option string
}.

(** Everything observable the model writes to the outside, in order. *)
Inductive Effect : Type :=
| IdbPut (r : IdbRecord.t)
| IdbDelete (id : string)
| ExchangeCall (args : list JS.value)
| SetItem (key value : string)
| RemoveItem (key : string)
| NotifyUnsyncedChanges
| ConsoleWarn (message : string).

(** The mutable state of one mounted store: the object store "records"
    (keyPath "id"), the browser's [localStorage], the [syncing] flag of the
    service, the [tracker] object of [useIdb], and the log of effects.

    [tracker] has one signal per declared record type; a signal is set to a
    fresh random string each time, and is kept here as the number of times
    it was set. A store that declares a type named "__proto__" is left
    out. *)
Record World : Type := {
  db : gmap string IdbRecord.t;
  localStorage : gmap string string;
  syncing : bool;
  tracker : gmap string nat;
  trace : list Effect
}.

Definition with_db (f : gmap string IdbRecord.t → gmap string IdbRecord.t) (w : World) : World :=
  {| db := f (db w); localStorage := localStorage w;
     syncing := syncing w; tracker := tracker w; trace := trace w |}.

Definition with_localStorage (f : gmap string string → gmap string string) (w : World) : World :=
  {| db := db w; localStorage := f (localStorage w);
     syncing := syncing w; tracker := tracker w; trace := trace w |}.

Definition with_syncing (b : bool) (w : World) : World :=
  {| db := db w; localStorage := localStorage w;
     syncing := b; tracker := tracker w; trace := trace w |}.

Definition with_tracker (f : gmap string nat → gmap string nat) (w : World) : World :=
  {| db := db w; localStorage := localStorage w;
     syncing := syncing w; tracker := f (tracker w); trace := trace w |}.

Definition emit (e : Effect) (w : World) : World :=
  {| db := db w; localStorage := localStorage w;
     syncing := syncing w; tracker := tracker w; trace := trace w ++ [e] |}.

(** An asynchronous function over the state of the store. *)
Definition Task (A : Type) : Type := World → outcome A * World.

Definition ret {A} (a : A) : Task A := λ w, (Resolved a, w).

Definition fail {A} (e : string) : Task A := λ w, (Rejected e, w).

Definition await {A} (o : outcome A) : Task A := λ w, (o, w).

Definition bind {A B} (t : Task A) (k : A → Task B) : Task B :=
  λ w, match t w with
       | (Resolved a, w') => k a w'
       | (Rejected e, w') => (Rejected e, w')
       | (Pending, w') => (Pending, w')
       end.

Notation "'let*' x := t 'in' k" := (bind t (λ x, k))
  (at level 10, x name, t at level 100, k at level 200, only parsing).

(** [try { body } finally { after }]: the block runs when the body settles. *)
Definition try_finally {A} (body : Task A) (after : World → World) : Task A :=
  λ w, match body w with
       | (Pending, w') => (Pending, w')
       | (o, w') => (o, after w')
       end.

(** [await Promise.all(xs.map(f))]: every [f x] is started, in order. *)
Fixpoint start_all {A B} (f : A → Task B) (xs : list A) (w : World)
  : list (outcome B) * World :=
  match xs with
  | [] => ([], w)
  | x :: xs' =>
      let '(o, w1) := f x w in
      let '(os, w2) := start_all f xs' w1 in
      (o :: os, w2)
  end.

Definition await_all {A B} (f : A → Task B) (xs : list A) : Task (list B) :=
  λ w, let '(os, w') := start_all f xs w in (Promise_all os, w').

(** [new Promise(async (resolve, reject) => { ... })]: the promise settles
    only through a call of [resolve] or [reject]; when the executor itself
    rejects (an awaited promise rejected, a statement threw), nobody
    observes it and the promise stays pending. The executor returns the
    settlement it asked for. *)
Definition new_Promise_async {A} (executor : Task (outcome A)) : Task A :=
  λ w, match executor w with
       | (Resolved settle, w') => (settle, w')
       | (_, w') => (Pending, w')
       end.

(** ** [useIdb] ([src/idb.ts])

    Of the change bus, [notify] is modelled, since [put] and [purge] end
    with it; the readers it wakes (the reactive proxies and the cache) are
    left out. The writes of one [Promise.all] are taken in the order of the
    array. *)

Section useIdb.
Context (env : Env).

(** An IndexedDB request: [onsuccess] or [onerror]. *)
Definition request {A} (op : IdbOp) (message : string) (result : A) : outcome A :=
  match idb_error env op with
  | Some e => Rejected (message ++ e)
  | None => Resolved result
  end.

Definition open : Task unit :=
  λ w, (request OpOpen "error when opening the database: " tt, w).

Definition notifyUnsyncedChanges (w : World) : World :=
  emit NotifyUnsyncedChanges w.

Definition callHooks (stage : Stage) (record : option IdbRecord.t) : outcome unit :=
  match record with
  | None => Resolved tt
  | Some r =>
      match IdbRecord.deleted r with
      | Some true => Resolved tt
      | _ =>
          void (Promise_all
                  (map (λ hook : HookFn, hook (IdbRecord.type r) (IdbRecord.data r))
                       (omap (hook_at stage) (hooks env))))
      end
  end.

Definition getRawUnhookedRecord (id : string) : Task (option IdbRecord.t) :=
  new_Promise_async (
    let* _ := open in
    λ w, (Resolved (request (OpGet id) ("error when reading record '" ++ id ++ ": ")
                            (db w !! id)), w)).

(** The property names every object inherits from [Object.prototype]. *)
Definition Object_prototype : list string :=
  ["constructor"; "hasOwnProperty"; "isPrototypeOf"; "propertyIsEnumerable";
   "toLocaleString"; "toString"; "valueOf"; "__proto__";
   "__defineGetter__"; "__defineSetter__"; "__lookupGetter__"; "__lookupSetter__"].

(** [notify(type)]. [type in tracker] holds for a declared type, whose
    signal is then set, and for a name [tracker] inherits from
    [Object.prototype]: there [tracker[type][1]] is [undefined] and the call
    [setSignal(random)] throws a TypeError. Any other type is only warned
    about. *)
Definition notify (type : string) : Task unit :=
  λ w, match tracker w !! type with
       | Some version => (Resolved tt, with_tracker (insert type (S version)) w)
       | None =>
           if decide (type ∈ Object_prototype)
           then (Rejected "TypeError: setSignal is not a function", w)
           else (Resolved tt,
                 emit (ConsoleWarn ("attempt to notify changes for an unknown type " ++ type))
                      w)
       end.

(** [new Set(types)]: each type once, in the order of first occurrence. *)
Fixpoint new_Set (types : list string) : list string :=
  match types with
  | [] => []
  | type :: types' => type :: filter (λ t, t ≠ type) (new_Set types')
  end.

(** [batch(() => { recordTypes.forEach(type => notify(type)) })]: the first
    exception ends the loop and leaves the function that called [batch]. *)
Fixpoint notify_each (recordTypes : list string) : Task unit :=
  match recordTypes with
  | [] => ret tt
  | type :: recordTypes' =>
      let* _ := notify type in
      notify_each recordTypes'
  end.

(** The write of one record inside [put]. [objectStore.put] throws at once
    when the record cannot be cloned; like a rejecting hook, that happens
    inside the async executor, and the promise never settles. *)
Definition put_record (record : IdbRecord.t) : Task unit :=
  new_Promise_async (
    let* _ := await (callHooks beforeSave (Some record)) in
    if JS.cloneable (IdbRecord.data record) then
      λ w,
        let w' := emit (IdbPut record) w in
        match request (OpPut (IdbRecord.id record)) "error when updating data: " tt with
        | Resolved _ =>
            (Resolved (Resolved tt), with_db (insert (IdbRecord.id record) record) w')
        | failed => (Resolved failed, w')
        end
    else fail "DataCloneError").

Definition put (records : list IdbRecord.t) : Task unit :=
  match records with
  | [] => ret tt
  | _ =>
      let recordTypes := new_Set (map IdbRecord.type records) in
      let* _ := open in
      let* _ := await_all put_record records in
      notify_each recordTypes
  end.

(** The removal of one id inside [purge]. *)
Definition delete_record (id : string) : Task unit :=
  λ w,
    let w' := emit (IdbDelete id) w in
    match request (OpDelete id) "Error deleting record: " tt with
    | Resolved _ => (Resolved tt, with_db (delete id) w')
    | failed => (failed, w')
    end.

Definition purge (ids : list string) : Task unit :=
  match ids with
  | [] => ret tt
  | _ =>
      let* _ := open in
      let* records := await_all getRawUnhookedRecord ids in
      let recordTypes := new_Set (map IdbRecord.type (omap id records)) in
      let* _ := await_all delete_record ids in
      notify_each recordTypes
  end.

(** The rows an index returns for one key, in the order of the store. *)
Definition index_getAll (select : IdbRecord.t → bool) (w : World) : list IdbRecord.t :=
  filter (λ r, select r = true) (map_to_list (db w)).*2.

Definition getRawUnhookedUnsyncedRecords : Task (list IdbRecord.t) :=
  let* _ := open in
  new_Promise_async (
    λ w, (Resolved (request (OpGetAll "unsynced" "true") "error when reading records: "
                            (index_getAll
                               (λ r, bool_decide (IdbRecord.unsynced r = Some "true")) w)),
          w)).

(** *** [publicApi(type)]

    [use()] builds this API for each declared record type. [get] and [all]
    are wrapped by [createReactiveApi], which reads the signal of the type
    before the call; for a declared type that read changes nothing. *)

Section publicApi.
Context (type : string).

Definition tombstone (id : string) : IdbRecord.t :=
  IdbRecord.mk id type (Some true) (Some "true") (JS.VObj []).

Definition softDelete (ids : list string) : Task unit :=
  match ids with
  | [] => ret tt
  | _ =>
      let* _ := await_all (λ id, put [tombstone id]) ids in
      λ w, (Resolved tt, notifyUnsyncedChanges w)
  end.

Definition set (id : string) (data : JS.value) : Task unit :=
  match JS.json_roundtrip data with
  | None => fail "JSON: the value cannot be serialized"
  | Some copy =>
      let record := IdbRecord.mk id type None (Some "true") copy in
      let* _ := put [record] in
      λ w, (Resolved tt, notifyUnsyncedChanges w)
  end.

Definition get (id : string) : Task JS.value :=
  new_Promise_async (
    let* _ := open in
    λ w,
      match request (OpGet id) ("error when reading record '" ++ id ++ ": ") (db w !! id) with
      | Resolved result =>
          match callHooks beforeRead result with
          | Resolved _ =>
              let data :=
                match result with
                | Some r =>
                    match IdbRecord.deleted r with
                    | Some true => JS.VUndefined
                    | _ => IdbRecord.data r
                    end
                | None => JS.VUndefined
                end in
              (Resolved (Resolved data), w)
          | _ => (Pending, w)
          end
      | Rejected e => (Resolved (Rejected e), w)
      | Pending => (Pending, w)
      end).

(** The rows [all] keeps: [items.filter(item => item.deleted !== true)]. *)
Definition all_items (w : World) : list IdbRecord.t :=
  filter (λ item, IdbRecord.deleted item ≠ Some true)
         (index_getAll (λ r, bool_decide (IdbRecord.type r = type)) w).

Definition all : Task (list JS.value) :=
  new_Promise_async (
    let* _ := open in
    λ w,
      match request (OpGetAll "type" type)
                    ("error when reading records of type '" ++ type ++ "': ") tt with
      | Resolved _ =>
          let filtered := all_items w in
          match Promise_all (map (λ item, callHooks beforeRead (Some item)) filtered) with
          | Resolved _ =>
              (Resolved (Resolved (map (λ item, JS.spread (IdbRecord.data item)) filtered)), w)
          | _ => (Pending, w)
          end
      | Rejected e => (Resolved (Rejected e), w)
      | Pending => (Pending, w)
      end).

End publicApi.
End useIdb.

(** ** [WireStoreService]: the sync engine *)

Module SyncResponse.
Record t : Type := mk {
  records : list SyncedRecord.t;
  syncCursor : option string
}.
End SyncResponse.

(** The function [config.sync] as the engine sees it: the argument list of
    the call in, the settlement of the returned promise out. *)
Definition Exchange : Type := list JS.value → outcome SyncResponse.t.

Record Props : Type := {
  config_name : string;      (* props.config.name *)
  namespace : string         (* props.namespace *)
}.

Definition unsynced_to_js (r : UnsyncedRecord.t) : JS.value :=
  JS.VObj [("id", JS.VStr (UnsyncedRecord.id r));
           ("type", JS.VStr (UnsyncedRecord.type r));
           ("state", JS.VStr (UnsyncedRecord.state r));
           ("data", UnsyncedRecord.data r)].

Definition optional_string (o : option string) : JS.value :=
  match o with
  | Some s => JS.VStr s
  | None => JS.VUndefined
  end.

Section WireStoreService.
Context (env : Env) (props : Props).

Definition cursorKey : string :=
  "wire-store:" ++ config_name props ++ ":" ++ namespace props ++ ":sync-cursor".

(** What [getItem] returns for a slot: its string, or [null]. *)
Definition item_value (slot : option string) : JS.value :=
  match slot with
  | Some value => JS.VStr value
  | None => JS.VNull
  end.

Definition localStorage_getItem (key : string) : Task JS.value :=
  λ w, match storage_error env (OpGetItem key) with
       | Some e => (Rejected e, w)
       | None => (Resolved (item_value (localStorage w !! key)), w)
       end.

Definition localStorage_setItem (key value : string) : Task unit :=
  λ w, match storage_error env (OpSetItem key value) with
       | Some e => (Rejected e, w)
       | None =>
           (Resolved tt, with_localStorage (insert key value) (emit (SetItem key value) w))
       end.

Definition localStorage_removeItem (key : string) : Task unit :=
  λ w, match storage_error env (OpRemoveItem key) with
       | Some e => (Rejected e, w)
       | None =>
           (Resolved tt, with_localStorage (delete key) (emit (RemoveItem key) w))
       end.

Definition to_unsynced (item : IdbRecord.t) : UnsyncedRecord.t :=
  UnsyncedRecord.mk
    (IdbRecord.id item)
    (IdbRecord.type item)
    (match IdbRecord.deleted item with Some true => "deleted" | _ => "updated" end)
    (JS.spread (IdbRecord.data item)).

(** [localStorage.getItem(cursorKey) || undefined]: of what [getItem]
    returns, [null] and the empty string are falsy. *)
Definition or_undefined (item : JS.value) : JS.value :=
  match item with
  | JS.VNull | JS.VStr "" => JS.VUndefined
  | other => other
  end.

(** The arguments [triggerSync] passes to [props.config.sync]. *)
Definition sync_arguments (unsynced : list UnsyncedRecord.t) (syncCursor : JS.value)
  : list JS.value :=
  [JS.VObj [("records", JS.VArr (map unsynced_to_js unsynced));
            ("namespace", JS.VStr (namespace props));
            ("syncCursor", syncCursor)]].

Definition to_updated (record : SyncedRecord.t) : IdbRecord.t :=
  IdbRecord.mk (SyncedRecord.id record) (SyncedRecord.type record) None None
               (SyncedRecord.data record).

Definition updated_of (records : list SyncedRecord.t) : list IdbRecord.t :=
  map to_updated (filter (λ record, SyncedRecord.state record = "updated") records).

Definition deleted_of (records : list SyncedRecord.t) : list string :=
  map SyncedRecord.id (filter (λ record, SyncedRecord.state record = "deleted") records).

(** The part of the [try] block before [await props.config.sync(...)]. *)
Definition collect : Task (list JS.value) :=
  let* items := getRawUnhookedUnsyncedRecords env in
  let unsynced := map to_unsynced items in
  let* stored := localStorage_getItem cursorKey in
  ret (sync_arguments unsynced (or_undefined stored)).

(** The part of the [try] block after it. *)
Definition apply_response (response : SyncResponse.t) : Task unit :=
  let* _ := put env (updated_of (SyncResponse.records response)) in
  let* _ := purge env (deleted_of (SyncResponse.records response)) in
  match SyncResponse.syncCursor response with
  | Some updatedSyncCursor => localStorage_setItem cursorKey updatedSyncCursor
  | None => localStorage_removeItem cursorKey
  end.

Definition call_sync (sync : Exchange) (args : list JS.value) : Task SyncResponse.t :=
  λ w, (sync args, emit (ExchangeCall args) w).

Definition triggerSync (sync : Exchange) : Task unit :=
  λ w,
    if syncing w then (Resolved tt, w)
    else
      try_finally
        (let* args := collect in
         let* response := call_sync sync args in
         apply_response response)
        (with_syncing false)
        (with_syncing true w).


(** *** Interleavings

    [triggerSync] suspends at [await props.config.sync(...)]; until that
    promise settles, other callbacks run: further triggers (the mount, a
    notifier callback, the periodic timer, [store.sync()]) and writes through
    the public API. [sync_begin] is [triggerSync] up to that suspension and
    [sync_settle] is the rest of it. *)

Inductive Suspended : Type :=
| Returned (o : outcome unit)          (* the call is over *)
| AwaitingSync (args : list JS.value). (* suspended on [config.sync(args)] *)

Definition sync_begin (w : World) : Suspended * World :=
  if syncing w then (Returned (Resolved tt), w)
  else
    match collect (with_syncing true w) with
    | (Resolved args, w') => (AwaitingSync args, emit (ExchangeCall args) w')
    | (Rejected e, w') => (Returned (Rejected e), with_syncing false w')
    | (Pending, w') => (Returned Pending, w')
    end.

Definition sync_settle (settled : outcome SyncResponse.t) : Task unit :=
  try_finally
    (let* response := await settled in apply_response response)
    (with_syncing false).

Inductive Event : Type :=
| Trigger
| SyncResolves (response : SyncResponse.t)
| SyncRejects (reason : string)
| LocalSet (type id : string) (data : JS.value)
| LocalDelete (type : string) (ids : list string).

Record Session : Type := {
  world : World;
  awaiting : option (list JS.value)   (* the call of [config.sync] in flight *)
}.

Definition settle (settled : outcome SyncResponse.t) (s : Session) : Session :=
  match awaiting s with
  | Some _ => {| world := (sync_settle settled (world s)).2; awaiting := None |}
  | None => s
  end.

Definition step (s : Session) (ev : Event) : Session :=
  match ev with
  | Trigger =>
      match sync_begin (world s) with
      | (Returned _, w) => {| world := w; awaiting := awaiting s |}
      | (AwaitingSync args, w) => {| world := w; awaiting := Some args |}
      end
  | SyncResolves response => settle (Resolved response) s
  | SyncRejects reason => settle (Rejected reason) s
  | LocalSet type id data =>
      {| world := (set env type id data (world s)).2; awaiting := awaiting s |}
  | LocalDelete type ids =>
      {| world := (softDelete env type ids (world s)).2; awaiting := awaiting s |}
  end.

Definition run (evs : list Event) (s : Session) : Session :=
  fold_left step evs s.

End WireStoreService.

(** The calls of [config.sync] made so far, oldest first. *)
Definition exchange_calls (w : World) : list (list JS.value) :=
  omap (λ e, match e with ExchangeCall args => Some args | _ => None end) (trace w).

Definition is_settlement (ev : Event) : Prop :=
  match ev with
  | SyncResolves _ | SyncRejects _ => True
  | _ => False
  end.

(** ** Subscribers of the unsynced-write notifier ([src/idb.ts])

    [now] is the value of [new Date().getTime()] at the call. The returned
    closure deletes the key it captured; it is represented by that key. *)
Section subscribers.
Context {Callback : Type}.

Definition listenToUnsyncedChanges (now : Z) (callback : Callback)
    (subscribers : gmap string Callback) : string * gmap string Callback :=
  let id := pretty now in
  (id, <[id := callback]> subscribers).

Definition unsubscribe (id : string) (subscribers : gmap string Callback)
  : gmap string Callback :=
  delete id subscribers.

(** [Object.values(subscribers)], the callbacks a notification runs. *)
Definition subscribers_values (subscribers : gmap string Callback) : list Callback :=
  (map_to_list subscribers).*2.

End subscribers.

(** ** The package entry point ([index.tsx]) *)

(** [localOnly()] of the package entry point: a [sync] function that
    returns [{ records: [] }] whatever it is given. *)
Definition localOnly : Exchange := λ _, Resolved (SyncResponse.mk [] None).


(** ** Validation of the records a server receives ([validation.ts])

    A call either returns or throws. *)
Inductive exception : Type :=
| Error (message : string)    (* [throw new Error(message)] *)
| TypeError.                  (* thrown by the language itself *)

Inductive completion (A : Type) : Type :=
| Returns (a : A)
| Throw (error : exception).
Arguments Returns {A} a.
Arguments Throw {A} error.

#[export] Instance completion_ret : MRet completion := λ A a, Returns a.
#[export] Instance completion_bind : MBind completion := λ A B k c,
  match c with
  | Returns a => k a
  | Throw error => Throw error
  end.

(** [values[key]]: the value under the key, [undefined] when there is none.
    Property lists name a key once; the code reads the fields of a record
    only after it has checked that the record is an object. *)
Fixpoint lookup_property (key : string) (props : list (string * JS.value)) : JS.value :=
  match props with
  | [] => JS.VUndefined
  | (k, v) :: props' => if decide (k = key) then v else lookup_property key props'
  end.

Definition member (key : string) (values : JS.value) : JS.value :=
  match values with
  | JS.VObj props => lookup_property key props
  | _ => JS.VUndefined
  end.

(** [Object.keys(input)]; the code calls it on objects only. *)
Definition Object_keys (input : JS.value) : list string :=
  match JS.spread input with
  | JS.VObj props => props.*1
  | _ => []
  end.

(** [typeof input === 'object'], [Array.isArray(input)] and the two
    [instanceof] tests of [plainObject]. *)
Definition typeof_object (input : JS.value) : bool :=
  match input with
  | JS.VNull | JS.VDate _ | JS.VArr _ | JS.VObj _ => true
  | _ => false
  end.

Definition is_null (input : JS.value) : bool :=
  match input with JS.VNull => true | _ => false end.

Definition Array_isArray (input : JS.value) : bool :=
  match input with JS.VArr _ => true | _ => false end.

Definition instanceof_Date (input : JS.value) : bool :=
  match input with JS.VDate _ => true | _ => false end.

Definition instanceof_Function (input : JS.value) : bool :=
  match input with JS.VFunction => true | _ => false end.

(** [array.forEach((item, index) => ...)]: the first exception ends the loop. *)
Fixpoint forEach {A} (f : A → nat → completion unit) (index : nat) (array : list A)
  : completion unit :=
  match array with
  | [] => Returns tt
  | item :: array' => f item index ;; forEach f (S index) array'
  end.

Section template.
(** What a template literal makes of a number, a BigInt, a function, a date,
    an array or an object (which may carry a [toString] of its own); [None]
    when the conversion throws. *)
Context (text : JS.value → option string).

(** The template literal [`${input}`]. *)
Definition template (input : JS.value) : completion string :=
  match input with
  | JS.VStr s => Returns s
  | JS.VUndefined => Returns "undefined"
  | JS.VNull => Returns "null"
  | JS.VBool true => Returns "true"
  | JS.VBool false => Returns "false"
  | JS.VSymbol => Throw TypeError
  | other =>
      match text other with
      | Some s => Returns s
      | None => Throw TypeError
      end
  end.

End template.

(** The checks of the [validate] object. *)
Module validate.
Section methods.
Context (text : JS.value → option string).

Definition enum (values : JS.value) (key : string) (accepted : list string)
  : completion unit :=
  input ← template text (member key values);
  if bool_decide (input ∈ accepted) then Returns tt
  else Throw (Error (key ++ ": enum mismatch")).

Definition plainObject (values : JS.value) (key : string) : completion unit :=
  let input := member key values in
  let valid :=
    typeof_object input
    && negb (is_null input)
    && negb (Array_isArray input)
    && negb (instanceof_Date input)
    && negb (instanceof_Function input) in
  if valid then Returns tt
  else Throw (Error (key ++ ": expecting plain object")).

Definition dictionary (values : JS.value) (key : string) (acceptedKeys : option (list string))
  : completion unit :=
  plainObject values key ;;
  let input := member key values in
  let keys := Object_keys input in
  let stringKeys := forallb (λ _, true) keys in
  if negb stringKeys then Throw (Error (key ++ ": all keys must be string"))
  else
    match acceptedKeys with
    | Some acceptedKeys =>
        match list_find (λ k, k ∉ acceptedKeys) keys with
        | Some (_, k) => Throw (Error (key ++ ": unexpected field " ++ k))
        | None => Returns tt
        end
    | None => Returns tt
    end.

(** [input.length] counts the characters of the string; the only bound the
    code passes is [min = 1], which tells the empty string from the others. *)
Definition string (values : JS.value) (key : string) (min max : option nat)
  : completion unit :=
  match member key values with
  | JS.VStr input =>
      match min with
      | Some min =>
          if bool_decide (String.length input < min)
          then Throw (Error (key ++ ": minimum length is " ++ pretty min))
          else Returns tt
      | None => Returns tt
      end ;;
      match max with
      | Some max =>
          if bool_decide (max < String.length input)
          then Throw (Error (key ++ ": maximum length is " ++ pretty max))
          else Returns tt
      | None => Returns tt
      end
  | _ => Throw (Error (key ++ ": required"))
  end.

Definition records (values : JS.value) (key : String.string)
    (acceptedTypes : list String.string)
  : completion unit :=
  match member key values with
  | JS.VArr input =>
      forEach (λ item index,
                 let name := ("records:" ++ pretty index)%string in
                 dictionary (JS.VObj [(name, item)]) name
                            (Some ["id"; "state"; "type"; "data"]) ;;
                 string item "id" (Some 1) None ;;
                 enum item "state" UnsyncedRecordStates ;;
                 enum item "type" acceptedTypes ;;
                 plainObject item "data")
              0 input
  | _ => Throw (Error "records: is not an array")
  end.

End methods.
End validate.

Definition validateRecordsMetadata (text : JS.value → option string)
    (records : JS.value) (types : list string) : completion JS.value :=
  validate.records text (JS.VObj [("records", records)]) "records" types ;;
  Returns records.

(** ** Periodic syncing ([startPeriodicSync])

    [props.periodic] is [true | number] by its declared type and anything at
    run time. Finite numbers are restricted to integers. *)
Inductive Periodic : Type :=
| periodic_undefined
| periodic_null
| periodic_true
| periodic_number (n : Z)
| periodic_NaN
| periodic_Infinity (negative : bool)
| periodic_other.                      (* a value of any other type *)

(** The delay handed to [setInterval]. *)
Inductive Delay : Type :=
| Milliseconds (n : Z)
| Infinity.

(** The timers of the page, by handle, the handle the browser hands out
    next (handles are handed out in increasing order), the component's
    [periodicSyncInterval] variable, and the number of [console.warn]
    calls. *)
Record Timers : Type := {
  intervals : gmap nat Delay;
  next_handle : nat;
  periodicSyncInterval : option nat;
  warnings : nat
}.

Definition setInterval (delay : Delay) (t : Timers) : nat * Timers :=
  (next_handle t,
   {| intervals := <[next_handle t := delay]> (intervals t);
      next_handle := S (next_handle t);
      periodicSyncInterval := periodicSyncInterval t;
      warnings := warnings t |}).

Definition clearInterval (handle : option nat) (t : Timers) : Timers :=
  match handle with
  | Some h =>
      {| intervals := delete h (intervals t);
         next_handle := next_handle t;
         periodicSyncInterval := periodicSyncInterval t;
         warnings := warnings t |}
  | None => t
  end.

Definition assign_periodicSyncInterval (r : nat * Timers) : Timers :=
  {| intervals := intervals r.2;
     next_handle := next_handle r.2;
     periodicSyncInterval := Some r.1;
     warnings := warnings r.2 |}.

Definition console_warn (t : Timers) : Timers :=
  {| intervals := intervals t;
     next_handle := next_handle t;
     periodicSyncInterval := periodicSyncInterval t;
     warnings := S (warnings t) |}.

Definition startPeriodicSync (periodic : Periodic) (t : Timers) : Timers :=
  let t := clearInterval (periodicSyncInterval t) t in
  match periodic with
  | periodic_undefined | periodic_null => t
  | periodic_true => assign_periodicSyncInterval (setInterval (Milliseconds 60000) t)
  | periodic_number n =>
      if bool_decide (0 < n)%Z
      then assign_periodicSyncInterval (setInterval (Milliseconds n) t)
      else console_warn t
  | periodic_Infinity false => assign_periodicSyncInterval (setInterval Infinity t)
  | periodic_NaN | periodic_Infinity true | periodic_other => console_warn t
  end.

(** The timer part of [onCleanup]. *)
Definition onCleanup (t : Timers) : Timers :=
  clearInterval (periodicSyncInterval t) t.

(** * Vocabulary of the properties *)

(** ** Relations between the state before and after a task *)

(** A relation kept by every step of a task. *)
Definition respects (R : World → World → Prop) {A} (t : Task A) : Prop :=
  ∀ w, R w (t w).2.

(** Reads leave the whole state as it is. *)
Definition unchanged (w w' : World) : Prop := w' = w.

(** Operations of [useIdb] touch neither [localStorage] nor the [syncing]
    flag, and never call [config.sync]. *)
Definition idb_only (w w' : World) : Prop :=
  localStorage w' = localStorage w ∧ syncing w' = syncing w
  ∧ exchange_calls w' = exchange_calls w.

(** Only the step that calls [config.sync] adds to the calls, and only
    [triggerSync] itself writes the flag. *)
Definition no_call (w w' : World) : Prop :=
  syncing w' = syncing w ∧ exchange_calls w' = exchange_calls w.

(** Every row that carries the marker still carries it afterwards. *)
Definition keeps_unsynced (w w' : World) : Prop :=
  ∀ id r, db w !! id = Some r → IdbRecord.unsynced r = Some "true" →
          ∃ r', db w' !! id = Some r' ∧ IdbRecord.unsynced r' = Some "true".

(** ** Rows *)

(** The object store has keyPath "id": every row sits under its own id. *)
Definition keyed_by_id (w : World) : Prop :=
  map_Forall (λ k r, IdbRecord.id r = k) (db w).

(** What one write of a batch leaves under the key [k]. *)
Definition writes_record (r : IdbRecord.t) (k : string) (row : option IdbRecord.t) : Prop :=
  IdbRecord.id r = k ∧ row = Some r.

Definition writes_tombstone (type id k : string) (row : option IdbRecord.t) : Prop :=
  id = k ∧ row = Some (tombstone type id).

Definition removes_row (id k : string) (row : option IdbRecord.t) : Prop :=
  id = k ∧ row = None.

(** ** The environment *)

(** A storage that raises no error. *)
Definition quiet (env : Env) : Prop :=
  (∀ op, idb_error env op = None) ∧ (∀ op, storage_error env op = None).

(** The hooks of a stage let every record of a list through. *)
Definition hooks_accept (env : Env) (stage : Stage) (records : list IdbRecord.t) : Prop :=
  Forall (λ r, callHooks env stage (Some r) = Resolved tt) records.


(** How the write of one record inside [put] ends; the state of the store
    plays no part in it. *)
Definition put_record_outcome (env : Env) (r : IdbRecord.t) : outcome unit :=
  match callHooks env beforeSave (Some r) with
  | Resolved _ =>
      if JS.cloneable (IdbRecord.data r)
      then request env (OpPut (IdbRecord.id r)) "error when updating data: " tt
      else Pending
  | _ => Pending
  end.

(** The type is one of the declared record types, the own keys of
    [tracker]: the types [use()] builds the public API for. *)
Definition declares (w : World) (type : string) : Prop :=
  is_Some (tracker w !! type).

(** [notify(type)] returns: the type is declared, or it is not a name that
    [tracker] inherits. *)
Definition notifies (w : World) (type : string) : Prop :=
  declares w type ∨ type ∉ Object_prototype.

(** The two states declare the same record types. *)
Definition same_declared (w w' : World) : Prop :=
  ∀ type, is_Some (tracker w' !! type) ↔ is_Some (tracker w !! type).

(** The store can take a response: every "updated" entry can be cloned and
    has a type [notify] returns for, and so has every row stored under an id
    the response lists as "deleted". *)
Definition storable (w : World) (response : SyncResponse.t) : Prop :=
  Forall (λ r, JS.cloneable (IdbRecord.data r) = true ∧ notifies w (IdbRecord.type r))
         (updated_of (SyncResponse.records response))
  ∧ ∀ id r, id ∈ deleted_of (SyncResponse.records response) →
            db w !! id = Some r → notifies w (IdbRecord.type r).

(** ** The call of [config.sync] *)

(** The arguments a cycle started in [w] passes to [config.sync]. *)
Definition cycle_arguments (props : Props) (w : World) : list JS.value :=
  sync_arguments props
    (map to_unsynced
         (index_getAll (λ r, bool_decide (IdbRecord.unsynced r = Some "true")) w))
    (or_undefined (item_value (localStorage w !! cursorKey props))).

(** The [records] field of the object a cycle started in [w] sends. *)
Definition records_argument (w : World) : JS.value :=
  JS.VArr (map unsynced_to_js
             (map to_unsynced
                  (index_getAll (λ r, bool_decide (IdbRecord.unsynced r = Some "true")) w))).

(** The [syncCursor] field of that object. *)
Definition cursor_argument (props : Props) (w : World) : JS.value :=
  or_undefined (item_value (localStorage w !! cursorKey props)).

(** The argument list the signature declared in [types.ts] asks for:
    [sync(records, namespace, syncCursor?)]. *)
Definition declared_arguments (props : Props) (w : World) : list JS.value :=
  [records_argument w; JS.VStr (namespace props); cursor_argument props w].



(** ** JSON *)

(** The members of an object as [JSON.stringify] keeps them. *)
Definition serialize_members : list (string * JS.value) → option (list (string * JS.value)) :=
  fix members (l : list (string * JS.value)) :=
    match l with
    | [] => Some []
    | (k, x) :: l' =>
        match JS.serialize x, members l' with
        | JS.Throws, _ | _, None => None
        | JS.Omitted, Some r => Some r
        | JS.Json y, Some r => Some ((k, y) :: r)
        end
    end.

(** Values that have no JSON form and raise no error either: [undefined],
    symbols and functions. *)
Definition not_representable (v : JS.value) : bool :=
  match v with
  | JS.VUndefined | JS.VSymbol | JS.VFunction => true
  | _ => false
  end.

(** ** A small store to run the model on: the "todo" example of the README *)

Definition todo_env : Env :=
  {| hooks := []; idb_error := λ _, None; storage_error := λ _, None |}.

Definition todo_props : Props := {| config_name := "todo-app"; namespace := "" |}.

(** A fresh store that declares the types "todo" and "project". *)
Definition empty_world : World :=
  {| db := ∅; localStorage := ∅; syncing := false;
     tracker := {[ "todo" := 0; "project" := 0 ]}; trace := [] |}.

Definition todo_data : JS.value :=
  JS.VObj [("title", JS.VStr "a"); ("done", JS.VBool false)].

(** The store after [set("1", {title: "a", done: false})]. *)
Definition todo_world : World := (set todo_env "todo" "1" todo_data empty_world).2.

(** A session on that store in which nothing is running. *)
Definition todo_session : Session := {| world := todo_world; awaiting := None |}.

(** A server that echoes record "1" as updated and returns the cursor "t1". *)
Definition todo_echo : Exchange :=
  λ _, Resolved (SyncResponse.mk [SyncedRecord.mk "1" "updated" "todo" todo_data] (Some "t1")).

(** A server that reports "1" and an id the client never had as deleted. *)
Definition todo_deleted : Exchange :=
  λ _, Resolved (SyncResponse.mk [SyncedRecord.mk "1" "deleted" "todo" (JS.VObj []);
                                  SyncedRecord.mk "ghost" "deleted" "todo" (JS.VObj [])]
                                 None).

(** Servers for three consecutive cycles: the first returns the cursor
    "C1", the second returns none. *)
Definition todo_first : Exchange := λ _, Resolved (SyncResponse.mk [] (Some "C1")).

Definition todo_second : Exchange := λ _, Resolved (SyncResponse.mk [] None).

(** A server that cannot be reached. *)
Definition todo_offline : Exchange := λ _, Rejected "offline".

(** ** JSON values *)

(** The elements of an array as [JSON.stringify] keeps them. *)
Definition serialize_elements : list JS.value → option (list JS.value) :=
  fix elements (l : list JS.value) :=
    match l with
    | [] => Some []
    | x :: l' =>
        match JS.serialize x, elements l' with
        | JS.Throws, _ | _, None => None
        | JS.Omitted, Some r => Some (JS.VNull :: r)
        | JS.Json y, Some r => Some (y :: r)
        end
    end.

(** The values [JSON.parse] can return: null, booleans, numbers, strings,
    and arrays and objects of such values. *)
Fixpoint is_json (v : JS.value) : bool :=
  match v with
  | JS.VNull | JS.VBool _ | JS.VNum _ | JS.VStr _ => true
  | JS.VArr items => forallb is_json items
  | JS.VObj props => forallb (λ p, is_json p.2) props
  | _ => false
  end.

(** A BigInt somewhere inside, which makes [JSON.stringify] throw. *)
Fixpoint has_bigint (v : JS.value) : bool :=
  match v with
  | JS.VBigInt _ => true
  | JS.VArr items => existsb has_bigint items
  | JS.VObj props => existsb (λ p, has_bigint p.2) props
  | _ => false
  end.

(** ** Rows after a batch *)

(** The last record of a list that is written under the key [k]. *)
Definition latest_write (k : string) (records : list IdbRecord.t) : option IdbRecord.t :=
  last (filter (λ r, IdbRecord.id r = k) records).

(** The row a completed cycle leaves under [k], given the row before. *)
Definition row_after (response : SyncResponse.t) (k : string)
    (before : option IdbRecord.t) : option IdbRecord.t :=
  if decide (k ∈ deleted_of (SyncResponse.records response)) then None
  else match latest_write k (updated_of (SyncResponse.records response)) with
       | Some r => Some r
       | None => before
       end.

(** A storage in which only the put request of the id "bad" fails. *)
Definition bad_put_env : Env :=
  {| hooks := [];
     idb_error := λ op, match op with
                        | OpPut id => if decide (id = "bad") then Some "QuotaExceededError"
                                      else None
                        | _ => None
                        end;
     storage_error := λ _, None |}.

(** ** Cycles *)

(** The unsynced records a cycle started in [w] sends. *)
Definition unsynced_of (w : World) : list UnsyncedRecord.t :=
  map to_unsynced (index_getAll (λ r, bool_decide (IdbRecord.unsynced r = Some "true")) w).

(** The response has an entry for the id [k] that the cycle acts on: one
    whose state is "updated" or "deleted". *)
Definition echoes (response : SyncResponse.t) (k : string) : Prop :=
  ∃ s, s ∈ SyncResponse.records response ∧ SyncedRecord.id s = k
       ∧ (SyncedRecord.state s = "updated" ∨ SyncedRecord.state s = "deleted").

(** ** Cycles of other stores *)

(** [localStorage] changes at most under the cursor key of [props]. *)
Definition only_cursor_of (props : Props) (w w' : World) : Prop :=
  ∀ key, key ≠ cursorKey props → localStorage w' !! key = localStorage w !! key.


(** A [beforeSave] hook that rejects every record. *)
Definition refusing_env : Env :=
  {| hooks := [{| onBeforeRead := None;
                  onBeforeSave := Some (λ _ _, Rejected "refused") |}];
     idb_error := λ _, None;
     storage_error := λ _, None |}.


(** ** The unsynced-write notifier *)

(** How many times [notifyUnsyncedChanges] has been called. *)
Definition notifications (w : World) : nat :=
  length (omap (λ e, match e with NotifyUnsyncedChanges => Some tt | _ => None end)
               (trace w)).

(** A task that does not call [notifyUnsyncedChanges]. *)
Definition silent (w w' : World) : Prop := notifications w' = notifications w.

(** ** Records a server accepts *)

(** What [validateRecordsMetadata] asks of one record: an object with no
    field besides the four of an unsynced record, a non-empty string as id,
    a state and a type whose text is among the accepted ones, and an object
    as data. *)
Definition accepted_record (text : JS.value → option string) (types : list string)
    (item : JS.value) : Prop :=
  ∃ props,
    item = JS.VObj props
    ∧ (∀ k, k ∈ props.*1 → k ∈ ["id"; "state"; "type"; "data"])
    ∧ (∃ id, member "id" item = JS.VStr id ∧ id ≠ "")
    ∧ (∃ state, template text (member "state" item) = Returns state
                ∧ state ∈ UnsyncedRecordStates)
    ∧ (∃ type, template text (member "type" item) = Returns type ∧ type ∈ types)
    ∧ (∃ data, member "data" item = JS.VObj data).

(** The record with the value of its [data] field replaced. *)
Definition with_data (data : JS.value) (item : JS.value) : JS.value :=
  match item with
  | JS.VObj props =>
      JS.VObj (map (λ p, if decide (p.1 = "data") then (p.1, data) else p) props)
  | other => other
  end.

(** The exception a call ended with, if any. *)
Definition thrown {A} (c : completion A) : option exception :=
  match c with
  | Returns _ => None
  | Throw error => Some error
  end.

(** A conversion that renders every value as the empty text. *)
Definition no_text : JS.value → option string := λ _, Some "".

(** ** Periodic syncing *)

(** The delay a value of [props.periodic] asks for, if it asks for one. *)
Definition delay_of (periodic : Periodic) : option Delay :=
  match periodic with
  | periodic_true => Some (Milliseconds 60000)
  | periodic_number n => if bool_decide (0 < n)%Z then Some (Milliseconds n) else None
  | periodic_Infinity false => Some Infinity
  | _ => None
  end.

(** The component's effect run once for each value [props.periodic] takes. *)
Definition restarts (runs : list Periodic) (t : Timers) : Timers :=
  foldl (λ t periodic, startPeriodicSync periodic t) t runs.

(** The browser has not handed out a handle it still has to hand out. *)
Definition fresh_handles (t : Timers) : Prop :=
  ∀ h, (next_handle t ≤ h)%nat → intervals t !! h = None.

(** What every run of the effect keeps, on a page whose timers were those of
    [t0] at the start: apart from the timer under the handle the component
    holds, the page has the timers it had. *)
Definition periodic_invariant (t0 t : Timers) : Prop :=
  fresh_handles t
  ∧ (∀ h, periodicSyncInterval t = Some h → intervals t0 !! h = None)
  ∧ intervals (onCleanup t) = intervals t0.

Definition no_timers : Timers :=
  {| intervals := ∅; next_handle := 1; periodicSyncInterval := None; warnings := 0 |}.

(** * Properties *)

(** ** Promises and tasks *)

Lemma Promise_all_resolved_inv {A} (ps : list (outcome A)) (l : list A) :
  Promise_all ps = Resolved l → ps = map Resolved l.
Proof.
  revert l. induction ps as [|p ps IH]; intros l H; simpl in H.
  - by inversion H.
  - destruct p as [a|e|]; destruct (Promise_all ps) as [l'|e'|]; try discriminate.
    inversion H; subst. simpl. f_equal. by apply IH.
Qed.

Lemma Promise_all_map_Resolved {A} (l : list A) :
  Promise_all (map Resolved l) = Resolved l.
Proof. induction l as [|a l IH]; simpl; [done | by rewrite IH]. Qed.

Lemma Promise_all_Forall_resolved {A B} (f : A → outcome B) (b : B) (l : list A) :
  Forall (λ x, f x = Resolved b) l →
  Promise_all (map f l) = Resolved (map (λ _, b) l).
Proof.
  induction 1 as [|x l Hx _ IH]; [done|]. simpl. by rewrite Hx, IH.
Qed.

Section respects.
Context (R : World → World → Prop).
Context (R_refl : ∀ w, R w w) (R_trans : ∀ w1 w2 w3, R w1 w2 → R w2 w3 → R w1 w3).

Lemma respects_ret {A} (a : A) : respects R (ret a).
Proof. intros w. apply R_refl. Qed.

Lemma respects_fail {A} (e : string) : respects R (@fail A e).
Proof. intros w. apply R_refl. Qed.

Lemma respects_await {A} (o : outcome A) : respects R (await o).
Proof. intros w. apply R_refl. Qed.

Lemma respects_bind {A B} (t : Task A) (k : A → Task B) :
  respects R t → (∀ a, respects R (k a)) → respects R (bind t k).
Proof.
  intros Ht Hk w. unfold bind. specialize (Ht w).
  destruct (t w) as [[a|e|] w']; simpl in *; try done.
  eapply R_trans; [exact Ht | apply Hk].
Qed.

Lemma respects_start_all {A B} (f : A → Task B) (xs : list A) :
  (∀ x, respects R (f x)) → ∀ w, R w (start_all f xs w).2.
Proof.
  intros Hf. induction xs as [|x xs IH]; intros w; simpl; [apply R_refl|].
  specialize (Hf x w). destruct (f x w) as [o w1]. specialize (IH w1).
  destruct (start_all f xs w1) as [os w2]. simpl in *. by eapply R_trans.
Qed.

Lemma respects_await_all {A B} (f : A → Task B) (xs : list A) :
  (∀ x, respects R (f x)) → respects R (await_all f xs).
Proof.
  intros Hf w. unfold await_all.
  pose proof (respects_start_all f xs Hf w) as H.
  by destruct (start_all f xs w) as [os w'].
Qed.

Lemma respects_new_Promise_async {A} (executor : Task (outcome A)) :
  respects R executor → respects R (new_Promise_async executor).
Proof.
  intros H w. unfold new_Promise_async. specialize (H w).
  by destruct (executor w) as [[o|e|] w'].
Qed.

(** [notify] writes the tracker and the console only. *)
Lemma respects_notify_each (recordTypes : list string) :
  (∀ w f, R w (with_tracker f w)) → (∀ w message, R w (emit (ConsoleWarn message) w)) →
  respects R (notify_each recordTypes).
Proof.
  intros Htracker Hwarn.
  induction recordTypes as [|type recordTypes IH]; [apply respects_ret|].
  apply respects_bind; [|done].
  intros w. unfold notify. destruct (tracker w !! type); [apply Htracker|].
  destruct (decide (type ∈ Object_prototype)); [apply R_refl | apply Hwarn].
Qed.

Lemma respects_try_finally {A} (body : Task A) (after : World → World) :
  respects R body → (∀ w, R w (after w)) → respects R (try_finally body after).
Proof.
  intros Hb Ha w. unfold try_finally. specialize (Hb w).
  destruct (body w) as [[a|e|] w']; simpl in *; try done;
    (eapply R_trans; [exact Hb | apply Ha]).
Qed.

End respects.

Lemma bind_resolved_inv {A B} (t : Task A) (k : A → Task B) w b w' :
  bind t k w = (Resolved b, w') →
  ∃ a w1, t w = (Resolved a, w1) ∧ k a w1 = (Resolved b, w').
Proof.
  unfold bind. destruct (t w) as [[a|e|] w1]; intros H; try discriminate.
  by exists a, w1.
Qed.

(** ** What the store operations leave alone *)

Lemma idb_only_refl w : idb_only w w.
Proof. by repeat split. Qed.

Lemma idb_only_trans w1 w2 w3 : idb_only w1 w2 → idb_only w2 w3 → idb_only w1 w3.
Proof. intros (?&?&?) (?&?&?). repeat split; congruence. Qed.

Lemma unchanged_refl w : unchanged w w.
Proof. done. Qed.

Lemma unchanged_trans w1 w2 w3 : unchanged w1 w2 → unchanged w2 w3 → unchanged w1 w3.
Proof. unfold unchanged. congruence. Qed.

Ltac idb_only_step :=
  unfold idb_only, exchange_calls, notifyUnsyncedChanges; simpl;
  rewrite ?omap_app; simpl; rewrite ?app_nil_r; done.

Section useIdb_frames.
Context (env : Env).

Lemma respects_open R : (∀ w, R w w) → respects R (open env).
Proof. intros HR w. apply HR. Qed.

Lemma getRawUnhookedRecord_unchanged id : respects unchanged (getRawUnhookedRecord env id).
Proof.
  apply respects_new_Promise_async.
  apply respects_bind; [apply unchanged_trans | by apply respects_open |].
  by intros _ w.
Qed.

Lemma getRawUnhookedUnsyncedRecords_unchanged :
  respects unchanged (getRawUnhookedUnsyncedRecords env).
Proof.
  apply respects_bind; [apply unchanged_trans | by apply respects_open |].
  intros _. by apply respects_new_Promise_async.
Qed.

Lemma put_record_idb_only record : respects idb_only (put_record env record).
Proof.
  apply respects_new_Promise_async.
  apply respects_bind; [apply idb_only_trans | apply respects_await, idb_only_refl |].
  intros _. destruct (JS.cloneable (IdbRecord.data record));
    [|apply respects_fail, idb_only_refl].
  intros w.
  destruct (request env (OpPut (IdbRecord.id record)) "error when updating data: " tt);
    idb_only_step.
Qed.

Lemma notify_each_idb_only recordTypes : respects idb_only (notify_each recordTypes).
Proof.
  apply respects_notify_each; [apply idb_only_refl | apply idb_only_trans | done |].
  intros w message. idb_only_step.
Qed.

Lemma put_idb_only records : respects idb_only (put env records).
Proof.
  destruct records as [|r rs]; [apply respects_ret, idb_only_refl|].
  apply respects_bind; [apply idb_only_trans | apply respects_open, idb_only_refl |].
  intros _. apply respects_bind;
    [apply idb_only_trans | | intros; apply notify_each_idb_only].
  apply respects_await_all; [apply idb_only_refl | apply idb_only_trans |].
  apply put_record_idb_only.
Qed.

Lemma delete_record_idb_only id : respects idb_only (delete_record env id).
Proof.
  intros w. unfold delete_record.
  destruct (request env (OpDelete id) "Error deleting record: " tt);
    idb_only_step.
Qed.

Lemma purge_idb_only ids : respects idb_only (purge env ids).
Proof.
  destruct ids as [|i ids]; [apply respects_ret, idb_only_refl|].
  apply respects_bind; [apply idb_only_trans | apply respects_open, idb_only_refl |].
  intros _. apply respects_bind; [apply idb_only_trans | | ].
  - apply respects_await_all; [apply idb_only_refl | apply idb_only_trans |].
    intros id w. rewrite (getRawUnhookedRecord_unchanged id w). apply idb_only_refl.
  - intros records. apply respects_bind;
      [apply idb_only_trans | | intros; apply notify_each_idb_only].
    apply respects_await_all; [apply idb_only_refl | apply idb_only_trans |].
    apply delete_record_idb_only.
Qed.

Lemma notifyUnsyncedChanges_idb_only w : idb_only w (notifyUnsyncedChanges w).
Proof.
  idb_only_step.
Qed.

Lemma softDelete_idb_only type ids : respects idb_only (softDelete env type ids).
Proof.
  destruct ids as [|i ids]; [apply respects_ret, idb_only_refl|].
  apply respects_bind; [apply idb_only_trans | | ].
  - apply respects_await_all; [apply idb_only_refl | apply idb_only_trans |].
    intros id. apply put_idb_only.
  - intros _ w. apply notifyUnsyncedChanges_idb_only.
Qed.

Lemma set_idb_only type id data : respects idb_only (set env type id data).
Proof.
  unfold set. destruct (JS.json_roundtrip data); [|apply respects_fail, idb_only_refl].
  apply respects_bind; [apply idb_only_trans | apply put_idb_only |].
  intros _ w. apply notifyUnsyncedChanges_idb_only.
Qed.

End useIdb_frames.

(** ** What a batch of writes does to one key

    Each task of a batch either leaves the row under a key alone or leaves
    it in a shape [Q] that depends on the task's argument only. *)
Section batches.
Context {A B : Type} (f : A → Task B).
Context (Q : A → string → option IdbRecord.t → Prop).
Context (f_lookup : ∀ x w k,
  db (f x w).2 !! k = db w !! k ∨ Q x k (db (f x w).2 !! k)).

Lemma start_all_lookup xs w k :
  db (start_all f xs w).2 !! k = db w !! k
  ∨ ∃ x, x ∈ xs ∧ Q x k (db (start_all f xs w).2 !! k).
Proof.
  revert w. induction xs as [|x xs IH]; intros w; simpl; [by left|].
  pose proof (f_lookup x w k) as Hx.
  destruct (f x w) as [o w1]. specialize (IH w1).
  destruct (start_all f xs w1) as [os w2]. simpl in *.
  destruct IH as [IH | (x' & Hin & HQ)].
  - rewrite IH. destruct Hx as [Hx | Hx]; [by left|].
    right. exists x. split; [apply list_elem_of_here | done].
  - right. exists x'. split; [by apply list_elem_of_further | done].
Qed.

Context (touches : A → string → Prop).
Context (f_resolved : ∀ x w b w' k,
  f x w = (Resolved b, w') → touches x k → Q x k (db w' !! k)).

Lemma start_all_resolved xs w bs x k :
  (start_all f xs w).1 = map Resolved bs →
  x ∈ xs → touches x k →
  ∃ x', x' ∈ xs ∧ Q x' k (db (start_all f xs w).2 !! k).
Proof.
  revert w bs. induction xs as [|y xs IH]; intros w bs Hos Hin Hk.
  { by apply elem_of_nil in Hin. }
  simpl in *. destruct (f y w) as [o w1] eqn:Hy.
  pose proof (start_all_lookup xs w1 k) as Hrest. specialize (IH w1).
  destruct (start_all f xs w1) as [os w2]. simpl in *.
  destruct bs as [|b bs]; [discriminate|]. simpl in Hos.
  injection Hos as -> Hos.
  apply elem_of_cons in Hin as [-> | Hin].
  - destruct Hrest as [Heq | (x' & Hin' & HQ)].
    + exists y. split; [apply list_elem_of_here|]. rewrite Heq.
      by eapply f_resolved.
    + exists x'. split; [by apply list_elem_of_further | done].
  - destruct (IH bs Hos Hin Hk) as (x' & Hin' & HQ).
    exists x'. split; [by apply list_elem_of_further | done].
Qed.

End batches.

Section useIdb_content.
Context (env : Env).

Lemma notify_each_db recordTypes w : db (notify_each recordTypes w).2 = db w.
Proof.
  by apply (respects_notify_each (λ w w', db w' = db w));
    [| intros ??? H1 H2; by rewrite H2 | |].
Qed.

Lemma put_record_lookup r w k :
  db (put_record env r w).2 !! k = db w !! k
  ∨ writes_record r k (db (put_record env r w).2 !! k).
Proof.
  unfold put_record, new_Promise_async, bind, await, request.
  destruct (callHooks env beforeSave (Some r)); try by left.
  destruct (JS.cloneable (IdbRecord.data r)); [|by left].
  destruct (idb_error env (OpPut (IdbRecord.id r))); simpl; [by left|].
  destruct (decide (IdbRecord.id r = k)) as [<-|Hne].
  - right. split; [done | apply lookup_insert_eq].
  - left. by apply lookup_insert_ne.
Qed.

Lemma put_record_resolved r w b w' k :
  put_record env r w = (Resolved b, w') → k = IdbRecord.id r →
  writes_record r k (db w' !! k).
Proof.
  unfold put_record, new_Promise_async, bind, await, request. intros H ->.
  destruct (callHooks env beforeSave (Some r)); try discriminate.
  destruct (JS.cloneable (IdbRecord.data r)); [|discriminate].
  destruct (idb_error env (OpPut (IdbRecord.id r))); simpl in H; [discriminate|].
  injection H as _ <-. split; [done | apply lookup_insert_eq].
Qed.

Lemma put_unfold records w :
  records ≠ [] →
  put env records w =
    match idb_error env OpOpen with
    | Some e => (Rejected ("error when opening the database: " ++ e), w)
    | None =>
        match Promise_all (start_all (put_record env) records w).1 with
        | Resolved _ =>
            notify_each (new_Set (map IdbRecord.type records))
                        (start_all (put_record env) records w).2
        | Rejected e => (Rejected e, (start_all (put_record env) records w).2)
        | Pending => (Pending, (start_all (put_record env) records w).2)
        end
    end.
Proof.
  intros Hne. destruct records as [|r rs]; [done|].
  unfold put, bind, open, request, await_all.
  destruct (idb_error env OpOpen); [done|].
  destruct (start_all (put_record env) (r :: rs) w) as [os w'].
  cbn [fst snd]. by destruct (Promise_all os).
Qed.

Lemma put_db records w :
  db (put env records w).2
  = match idb_error env OpOpen with
    | None => db (start_all (put_record env) records w).2
    | Some _ => db w
    end.
Proof.
  destruct records as [|r rs]; [by destruct (idb_error env OpOpen)|].
  rewrite put_unfold by done.
  destruct (idb_error env OpOpen); [done|].
  destruct (Promise_all _); [apply notify_each_db | done | done].
Qed.

Lemma put_lookup records w k :
  db (put env records w).2 !! k = db w !! k
  ∨ ∃ r, r ∈ records ∧ writes_record r k (db (put env records w).2 !! k).
Proof.
  destruct records as [|r rs]; [by left|].
  rewrite put_unfold by done.
  destruct (idb_error env OpOpen); [by left|].
  assert (db (match Promise_all (start_all (put_record env) (r :: rs) w).1 with
              | Resolved _ =>
                  notify_each (new_Set (map IdbRecord.type (r :: rs)))
                              (start_all (put_record env) (r :: rs) w).2
              | Rejected e => (Rejected e, (start_all (put_record env) (r :: rs) w).2)
              | Pending => (Pending, (start_all (put_record env) (r :: rs) w).2)
              end).2 = db (start_all (put_record env) (r :: rs) w).2) as ->.
  { destruct (Promise_all _); [apply notify_each_db | done | done]. }
  apply start_all_lookup, put_record_lookup.
Qed.

Lemma put_resolved records w w' r :
  put env records w = (Resolved tt, w') → r ∈ records →
  ∃ r', r' ∈ records ∧ writes_record r' (IdbRecord.id r) (db w' !! IdbRecord.id r).
Proof.
  intros H Hin.
  assert (records ≠ []) as Hne by (intros ->; by apply elem_of_nil in Hin).
  rewrite put_unfold in H by done.
  destruct (idb_error env OpOpen); [discriminate|].
  destruct (Promise_all (start_all (put_record env) records w).1) as [bs| |] eqn:Hall;
    try discriminate.
  assert (db w' = db (start_all (put_record env) records w).2) as ->.
  { pose proof (notify_each_db (new_Set (map IdbRecord.type records))
                  (start_all (put_record env) records w).2) as Hdb.
    by rewrite H in Hdb. }
  apply Promise_all_resolved_inv in Hall.
  eapply (start_all_resolved (put_record env) writes_record put_record_lookup
            (λ r k, k = IdbRecord.id r) put_record_resolved); eauto.
Qed.

Lemma delete_record_lookup id w k :
  db (delete_record env id w).2 !! k = db w !! k
  ∨ removes_row id k (db (delete_record env id w).2 !! k).
Proof.
  unfold delete_record, request.
  destruct (idb_error env (OpDelete id)); simpl; [by left|].
  destruct (decide (id = k)) as [<-|Hne].
  - right. split; [done | apply lookup_delete_eq].
  - left. by apply lookup_delete_ne.
Qed.

Lemma delete_record_resolved id w b w' k :
  delete_record env id w = (Resolved b, w') → k = id →
  removes_row id k (db w' !! k).
Proof.
  unfold delete_record, request. intros H ->.
  destruct (idb_error env (OpDelete id)); simpl in H; [discriminate|].
  injection H as _ <-. split; [done | apply lookup_delete_eq].
Qed.

(** The reads at the start of [purge] only decide which types to notify. *)
Lemma start_all_reads ids w :
  (start_all (getRawUnhookedRecord env) ids w).2 = w.
Proof.
  apply (respects_start_all unchanged unchanged_refl unchanged_trans).
  apply getRawUnhookedRecord_unchanged.
Qed.

Lemma purge_unfold ids w :
  ids ≠ [] →
  purge env ids w =
    match idb_error env OpOpen with
    | Some e => (Rejected ("error when opening the database: " ++ e), w)
    | None =>
        match Promise_all (start_all (getRawUnhookedRecord env) ids w).1 with
        | Resolved records =>
            match Promise_all (start_all (delete_record env) ids w).1 with
            | Resolved _ =>
                notify_each (new_Set (map IdbRecord.type (omap id records)))
                            (start_all (delete_record env) ids w).2
            | Rejected e => (Rejected e, (start_all (delete_record env) ids w).2)
            | Pending => (Pending, (start_all (delete_record env) ids w).2)
            end
        | Rejected e => (Rejected e, w)
        | Pending => (Pending, w)
        end
    end.
Proof.
  intros Hne. destruct ids as [|i ids]; [done|].
  unfold purge, bind, open, request, await_all.
  destruct (idb_error env OpOpen); [done|].
  pose proof (start_all_reads (i :: ids) w) as Hw.
  destruct (start_all (getRawUnhookedRecord env) (i :: ids) w) as [rs w1].
  cbn [snd] in Hw. subst w1. cbn [fst snd].
  destruct (Promise_all rs); try done.
  destruct (start_all (delete_record env) (i :: ids) w) as [os w'].
  cbn [fst snd]. by destruct (Promise_all os).
Qed.

Lemma purge_db ids w :
  db (purge env ids w).2
  = match idb_error env OpOpen, Promise_all (start_all (getRawUnhookedRecord env) ids w).1 with
    | None, Resolved _ => db (start_all (delete_record env) ids w).2
    | _, _ => db w
    end.
Proof.
  destruct ids as [|i ids]; [by destruct (idb_error env OpOpen)|].
  rewrite purge_unfold by done.
  destruct (idb_error env OpOpen); [done|].
  destruct (Promise_all (start_all (getRawUnhookedRecord env) _ w).1); try done.
  destruct (Promise_all (start_all (delete_record env) _ w).1); try done.
  apply notify_each_db.
Qed.

Lemma purge_lookup ids w k :
  db (purge env ids w).2 !! k = db w !! k
  ∨ k ∈ ids ∧ db (purge env ids w).2 !! k = None.
Proof.
  rewrite purge_db.
  destruct (idb_error env OpOpen); [by left|].
  destruct (Promise_all _); try by left.
  destruct (start_all_lookup (delete_record env) removes_row delete_record_lookup
              ids w k) as [H | (x & Hin & <- & H)]; [by left | by right].
Qed.

Lemma purge_resolved ids w w' id :
  purge env ids w = (Resolved tt, w') → id ∈ ids → db w' !! id = None.
Proof.
  intros H Hin.
  assert (ids ≠ []) as Hne by (intros ->; by apply elem_of_nil in Hin).
  pose proof (purge_db ids w) as Hdb. rewrite H in Hdb. cbn [snd] in Hdb.
  rewrite purge_unfold in H by done.
  destruct (idb_error env OpOpen); [discriminate|].
  destruct (Promise_all (start_all (getRawUnhookedRecord env) _ _).1); try discriminate.
  destruct (Promise_all (start_all (delete_record env) ids w).1) as [bs| |] eqn:Hall;
    try discriminate.
  rewrite Hdb.
  apply Promise_all_resolved_inv in Hall.
  destruct (start_all_resolved (delete_record env) removes_row delete_record_lookup
              (λ i k, k = i) delete_record_resolved ids w bs id id Hall Hin eq_refl)
    as (x & _ & _ & Hx).
  done.
Qed.

(** A resolved [purge] has opened the database and read every id. *)
Lemma purge_resolved_reads ids w w' id :
  purge env ids w = (Resolved tt, w') → id ∈ ids →
  idb_error env OpOpen = None ∧ idb_error env (OpGet id) = None.
Proof.
  intros H Hin.
  assert (ids ≠ []) as Hne by (intros ->; by apply elem_of_nil in Hin).
  rewrite purge_unfold in H by done.
  destruct (idb_error env OpOpen) eqn:Hopen; [discriminate|]. split; [done|].
  destruct (Promise_all (start_all (getRawUnhookedRecord env) ids w).1) as [rows| |] eqn:Hall;
    try discriminate.
  apply Promise_all_resolved_inv in Hall. clear H Hne.
  revert rows Hall. induction ids as [|i ids IH]; intros rows Hall.
  { by apply elem_of_nil in Hin. }
  cbn [start_all] in Hall.
  pose proof (getRawUnhookedRecord_unchanged env i w) as Hw. unfold unchanged in Hw.
  destruct (getRawUnhookedRecord env i w) as [o w1] eqn:Hread. cbn [snd] in Hw. subst w1.
  destruct (start_all (getRawUnhookedRecord env) ids w) as [os w2] eqn:Hrest.
  cbn [fst] in Hall. destruct rows as [|row rows]; [discriminate|].
  injection Hall as -> Hos.
  apply elem_of_cons in Hin as [-> | Hin]; [|by eapply IH].
  unfold getRawUnhookedRecord, new_Promise_async, bind, open, request in Hread.
  rewrite Hopen in Hread. by destruct (idb_error env (OpGet i)).
Qed.

End useIdb_content.

(** ** The change bus *)

Lemma same_declared_refl w : same_declared w w.
Proof. done. Qed.

Lemma same_declared_trans w1 w2 w3 :
  same_declared w1 w2 → same_declared w2 w3 → same_declared w1 w3.
Proof. intros H12 H23 type. etransitivity; [apply H23 | apply H12]. Qed.

Lemma same_declared_tracker w w' : tracker w' = tracker w → same_declared w w'.
Proof. intros H type. unfold same_declared. by rewrite H. Qed.

Lemma notifies_same w w' type : same_declared w w' → notifies w type → notifies w' type.
Proof. intros Hsame [H | H]; [left; by apply Hsame | by right]. Qed.


Lemma notify_same_declared type : respects same_declared (notify type).
Proof.
  intros w. unfold notify. destruct (tracker w !! type) as [version|] eqn:Hdeclared.
  - intros t. cbn. destruct (decide (t = type)) as [-> | Hne].
    + rewrite lookup_insert_eq, Hdeclared. split; by eexists.
    + by rewrite lookup_insert_ne.
  - by destruct (decide (type ∈ Object_prototype)).
Qed.

Lemma notify_each_same_declared recordTypes : respects same_declared (notify_each recordTypes).
Proof.
  induction recordTypes as [|type recordTypes IH];
    [apply respects_ret, same_declared_refl|].
  apply respects_bind; [apply same_declared_trans | apply notify_same_declared | done].
Qed.

Lemma notify_ok type w : notifies w type → (notify type w).1 = Resolved tt.
Proof.
  intros [[version Hdeclared] | Hout]; unfold notify.
  - by rewrite Hdeclared.
  - destruct (tracker w !! type); [done|]. by rewrite decide_False.
Qed.


Lemma notify_each_ok recordTypes w :
  (∀ type, type ∈ recordTypes → notifies w type) →
  (notify_each recordTypes w).1 = Resolved tt.
Proof.
  revert w. induction recordTypes as [|type recordTypes IH]; intros w Hall; [done|].
  cbn [notify_each]. unfold bind.
  pose proof (notify_ok type w (Hall type (list_elem_of_here _ _))) as Hone.
  pose proof (notify_same_declared type w) as Hsame.
  destruct (notify type w) as [o w1]. cbn [fst snd] in *. subst o.
  apply IH. intros t Ht. apply (notifies_same w); [done|].
  by apply Hall, list_elem_of_further.
Qed.


Lemma elem_of_new_Set types type : type ∈ new_Set types ↔ type ∈ types.
Proof.
  induction types as [|t types IH]; [done|].
  cbn [new_Set]. rewrite !elem_of_cons, list_elem_of_filter, IH. split.
  - intros [-> | [_ H]]; [by left | by right].
  - intros [-> | H]; [by left|].
    destruct (decide (type = t)) as [-> | Hne]; [by left | by right].
Qed.

Section change_bus.
Context (env : Env).

Lemma put_record_same_declared record : respects same_declared (put_record env record).
Proof.
  apply respects_new_Promise_async.
  apply respects_bind; [apply same_declared_trans | apply respects_await, same_declared_refl |].
  intros _. destruct (JS.cloneable (IdbRecord.data record));
    [|apply respects_fail, same_declared_refl].
  intros w.
  by destruct (request env (OpPut (IdbRecord.id record)) "error when updating data: " tt).
Qed.

Lemma put_same_declared records : respects same_declared (put env records).
Proof.
  destruct records as [|r rs]; [apply respects_ret, same_declared_refl|].
  apply respects_bind;
    [apply same_declared_trans | apply respects_open, same_declared_refl |].
  intros _. apply respects_bind;
    [apply same_declared_trans | | intros; apply notify_each_same_declared].
  apply respects_await_all; [apply same_declared_refl | apply same_declared_trans |].
  apply put_record_same_declared.
Qed.

Lemma purge_same_declared ids : respects same_declared (purge env ids).
Proof.
  destruct ids as [|i ids]; [apply respects_ret, same_declared_refl|].
  apply respects_bind;
    [apply same_declared_trans | apply respects_open, same_declared_refl |].
  intros _. apply respects_bind; [apply same_declared_trans | | ].
  - apply respects_await_all; [apply same_declared_refl | apply same_declared_trans |].
    intros id w. rewrite (getRawUnhookedRecord_unchanged env id w).
    apply same_declared_refl.
  - intros records. apply respects_bind;
      [apply same_declared_trans | | intros; apply notify_each_same_declared].
    apply respects_await_all; [apply same_declared_refl | apply same_declared_trans |].
    intros id w. unfold delete_record.
    by destruct (request env (OpDelete id) "Error deleting record: " tt).
Qed.

End change_bus.

(** ** The public record API *)

Section publicApi_facts.
Context (env : Env).

Lemma index_getAll_elem select w item :
  item ∈ index_getAll select w ↔ select item = true ∧ ∃ k, db w !! k = Some item.
Proof.
  unfold index_getAll. rewrite list_elem_of_filter, list_elem_of_fmap.
  split.
  - intros (Hs & [k r] & -> & Hin). apply elem_of_map_to_list in Hin. eauto.
  - intros (Hs & k & Hk). split; [done|]. exists (k, item).
    split; [done | by apply elem_of_map_to_list].
Qed.

Lemma all_items_elem type w item :
  item ∈ all_items type w ↔
  IdbRecord.type item = type ∧ IdbRecord.deleted item ≠ Some true
  ∧ ∃ k, db w !! k = Some item.
Proof.
  unfold all_items. rewrite list_elem_of_filter, index_getAll_elem.
  rewrite bool_decide_eq_true. tauto.
Qed.

Lemma put_tombstone_lookup type id w k :
  db (put env [tombstone type id] w).2 !! k = db w !! k
  ∨ writes_tombstone type id k (db (put env [tombstone type id] w).2 !! k).
Proof.
  destruct (put_lookup env [tombstone type id] w k) as [H | (r & Hin & Hid & Hr)];
    [by left | right].
  apply list_elem_of_singleton in Hin. subst r. by split.
Qed.

Lemma put_tombstone_resolved type id w b w' k :
  put env [tombstone type id] w = (Resolved b, w') → k = id →
  writes_tombstone type id k (db w' !! k).
Proof.
  intros H ->. destruct b.
  destruct (put_resolved env _ w w' (tombstone type id) H) as (r & Hin & _ & Hr).
  { apply list_elem_of_here. }
  apply list_elem_of_singleton in Hin. subst r. by split.
Qed.

Lemma softDelete_unfold type ids w :
  ids ≠ [] →
  softDelete env type ids w =
    let batch := start_all (λ id, put env [tombstone type id]) ids w in
    match Promise_all batch.1 with
    | Resolved _ => (Resolved tt, notifyUnsyncedChanges batch.2)
    | Rejected e => (Rejected e, batch.2)
    | Pending => (Pending, batch.2)
    end.
Proof.
  intros Hne. destruct ids as [|i ids]; [done|].
  unfold softDelete, bind, await_all. cbn zeta.
  destruct (start_all (λ id, put env [tombstone type id]) (i :: ids) w) as [os w'].
  cbn [fst snd]. by destruct (Promise_all os).
Qed.

Lemma softDelete_resolved type ids w w' id :
  softDelete env type ids w = (Resolved tt, w') → id ∈ ids →
  db w' !! id = Some (tombstone type id).
Proof.
  intros H Hin.
  assert (ids ≠ []) as Hne by (intros ->; by apply elem_of_nil in Hin).
  rewrite softDelete_unfold in H by done. cbn zeta in H.
  destruct (Promise_all _) as [bs| |] eqn:Hall; try discriminate.
  injection H as <-. apply Promise_all_resolved_inv in Hall.
  destruct (start_all_resolved (λ id, put env [tombstone type id])
              (writes_tombstone type) (put_tombstone_lookup type)
              (λ i k, k = i) (put_tombstone_resolved type) ids w bs id id Hall Hin eq_refl)
    as (x & _ & -> & Hx).
  done.
Qed.

(** A [put] of one record whose write succeeds, of a type [notify]
    returns for. *)
Lemma put_single_ok r w :
  idb_error env OpOpen = None →
  callHooks env beforeSave (Some r) = Resolved tt →
  JS.cloneable (IdbRecord.data r) = true →
  idb_error env (OpPut (IdbRecord.id r)) = None →
  notifies w (IdbRecord.type r) →
  (put env [r] w).1 = Resolved tt.
Proof.
  intros Hopen Hhooks Hclone Hput Htype. rewrite put_unfold, Hopen by done.
  cbn [start_all].
  assert (put_record env r w
          = (Resolved tt, with_db (insert (IdbRecord.id r) r) (emit (IdbPut r) w))) as ->.
  { unfold put_record, new_Promise_async, bind, await, request.
    by rewrite Hhooks, Hclone, Hput. }
  cbn [fst snd Promise_all map new_Set filter].
  apply notify_each_ok. intros t Ht. apply list_elem_of_singleton in Ht. subst t.
  by apply (notifies_same w).
Qed.

(** Hooks are skipped for a tombstone, so writing one never waits on them. *)
Lemma put_tombstone_ok type id w :
  idb_error env OpOpen = None → idb_error env (OpPut id) = None →
  notifies w type →
  (put env [tombstone type id] w).1 = Resolved tt.
Proof.
  intros Hopen Hput Htype. by apply put_single_ok.
Qed.

Lemma start_all_tombstones_ok type ids w :
  idb_error env OpOpen = None →
  (∀ i, i ∈ ids → idb_error env (OpPut i) = None) →
  notifies w type →
  (start_all (λ id, put env [tombstone type id]) ids w).1 = map Resolved (map (λ _, tt) ids).
Proof.
  intros Hopen. revert w. induction ids as [|i ids IH]; intros w Hput Htype; [done|].
  cbn [start_all].
  pose proof (put_tombstone_ok type i w Hopen (Hput i (list_elem_of_here _ _)) Htype) as Hi.
  pose proof (put_same_declared env [tombstone type i] w) as Hsame.
  destruct (put env [tombstone type i] w) as [o w1]. cbn [fst snd] in *. subst o.
  specialize (IH w1 (λ j Hj, Hput j (list_elem_of_further _ _ _ Hj))
                 (notifies_same w w1 type Hsame Htype)).
  destruct (start_all _ ids w1) as [os w2]. cbn [fst] in *. by rewrite IH.
Qed.

Lemma softDelete_ok type ids w :
  idb_error env OpOpen = None →
  (∀ i, i ∈ ids → idb_error env (OpPut i) = None) →
  notifies w type →
  (softDelete env type ids w).1 = Resolved tt.
Proof.
  intros Hopen Hput Htype. destruct ids as [|i ids]; [reflexivity|].
  rewrite softDelete_unfold by done. cbn zeta.
  rewrite (start_all_tombstones_ok type (i :: ids) w Hopen Hput Htype).
  by rewrite Promise_all_map_Resolved.
Qed.

Lemma get_unfold id w :
  get env id w =
    match idb_error env OpOpen with
    | Some _ => (Pending, w)
    | None =>
        match idb_error env (OpGet id) with
        | Some e => (Rejected (("error when reading record '" ++ id ++ ": ") ++ e), w)
        | None =>
            match callHooks env beforeRead (db w !! id) with
            | Resolved _ =>
                (Resolved match db w !! id with
                          | Some r =>
                              match IdbRecord.deleted r with
                              | Some true => JS.VUndefined
                              | _ => IdbRecord.data r
                              end
                          | None => JS.VUndefined
                          end, w)
            | _ => (Pending, w)
            end
        end
    end.
Proof.
  unfold get, new_Promise_async, bind, open, request.
  destruct (idb_error env OpOpen); [done|].
  destruct (idb_error env (OpGet id)); [done|].
  by destruct (callHooks env beforeRead (db w !! id)).
Qed.

End publicApi_facts.

Section publicApi_lookup.
Context (env : Env).

Lemma softDelete_lookup type ids w k :
  db (softDelete env type ids w).2 !! k = db w !! k
  ∨ k ∈ ids ∧ db (softDelete env type ids w).2 !! k = Some (tombstone type k).
Proof.
  destruct ids as [|i ids]; [by left|].
  rewrite softDelete_unfold by done. cbn zeta.
  destruct (start_all_lookup (λ id, put env [tombstone type id])
              (writes_tombstone type) (put_tombstone_lookup env type) (i :: ids) w k)
    as [H | (x & Hin & -> & Hx)];
    destruct (Promise_all _); cbn [snd]; auto.
Qed.

Lemma set_unfold type id data w :
  set env type id data w =
    match JS.json_roundtrip data with
    | None => (Rejected "JSON: the value cannot be serialized", w)
    | Some copy =>
        let record := IdbRecord.mk id type None (Some "true") copy in
        match put env [record] w with
        | (Resolved _, w') => (Resolved tt, notifyUnsyncedChanges w')
        | failed => failed
        end
    end.
Proof.
  unfold set. destruct (JS.json_roundtrip data) as [copy|]; [|done].
  unfold bind. cbn zeta.
  by destruct (put env _ w) as [[[]|e|] w'].
Qed.

Lemma set_lookup type id data w k :
  db (set env type id data w).2 !! k = db w !! k
  ∨ k = id ∧ ∃ copy, JS.json_roundtrip data = Some copy
      ∧ db (set env type id data w).2 !! k
        = Some (IdbRecord.mk id type None (Some "true") copy).
Proof.
  rewrite set_unfold. destruct (JS.json_roundtrip data) as [copy|]; [|by left].
  cbn zeta.
  destruct (put_lookup env [IdbRecord.mk id type None (Some "true") copy] w k)
    as [H | (r & Hin & Hid & Hr)].
  - left. by destruct (put env _ w) as [[[]|e|] w'].
  - right. apply list_elem_of_singleton in Hin. subst r. simpl in Hid.
    split; [done|]. exists copy. split; [done|].
    by destruct (put env _ w) as [[[]|e|] w'].
Qed.

Lemma set_resolved type id data w w' :
  set env type id data w = (Resolved tt, w') →
  ∃ copy, JS.json_roundtrip data = Some copy
    ∧ db w' !! id = Some (IdbRecord.mk id type None (Some "true") copy).
Proof.
  rewrite set_unfold. destruct (JS.json_roundtrip data) as [copy|]; [|discriminate].
  cbn zeta. intros H. exists copy. split; [done|].
  destruct (put env _ w) as [[[]|e|] w1] eqn:Hput; try discriminate.
  injection H as <-.
  destruct (put_resolved env _ w w1 _ Hput (list_elem_of_here _ _)) as (r & Hin & _ & Hr).
  apply list_elem_of_singleton in Hin. by subst r.
Qed.

Lemma softDelete_keyed type ids w :
  keyed_by_id w → keyed_by_id (softDelete env type ids w).2.
Proof.
  intros Hw k r Hk.
  destruct (softDelete_lookup type ids w k) as [H | [_ H]]; rewrite H in Hk.
  - by apply Hw.
  - by injection Hk as <-.
Qed.

Lemma set_keyed type id data w :
  keyed_by_id w → keyed_by_id (set env type id data w).2.
Proof.
  intros Hw k r Hk.
  destruct (set_lookup type id data w k) as [H | (-> & copy & _ & H)]; rewrite H in Hk.
  - by apply Hw.
  - by injection Hk as <-.
Qed.

Lemma all_unfold type w :
  all env type w =
    match idb_error env OpOpen with
    | Some _ => (Pending, w)
    | None =>
        match idb_error env (OpGetAll "type" type) with
        | Some e =>
            (Rejected (("error when reading records of type '" ++ type ++ "': ") ++ e), w)
        | None =>
            match Promise_all (map (λ item, callHooks env beforeRead (Some item))
                                   (all_items type w)) with
            | Resolved _ =>
                (Resolved (map (λ item, JS.spread (IdbRecord.data item)) (all_items type w)), w)
            | _ => (Pending, w)
            end
        end
    end.
Proof.
  unfold all, new_Promise_async, bind, open, request.
  destruct (idb_error env OpOpen); [done|].
  destruct (idb_error env (OpGetAll "type" type)); [done|].
  by destruct (Promise_all _).
Qed.

End publicApi_lookup.

(** C6. Soft delete: when the storage raises no error, [delete(...ids)]
    of the public API, which exists for the declared types, resolves
    whatever the store held before (a missing id included); for each of its
    ids the raw row then exists as a tombstone ([deleted: true],
    [data: {}]), [get(id)] resolves to [undefined], the rows [all()] keeps
    for any type contain none with that id, and [all()] returns exactly the
    payloads of those rows. *)
Theorem soft_delete_visibility (env : Env) (type : string) (ids : list string)
    (id : string) (w : World) :
  keyed_by_id w →
  id ∈ ids →
  idb_error env OpOpen = None →
  (∀ i, i ∈ ids → idb_error env (OpPut i) = None) →
  declares w type →
  ∃ w',
    softDelete env type ids w = (Resolved tt, w')
    ∧ db w' !! id = Some (IdbRecord.mk id type (Some true) (Some "true") (JS.VObj []))
    ∧ (idb_error env (OpGet id) = None → get env id w' = (Resolved JS.VUndefined, w'))
    ∧ (∀ t item, item ∈ all_items t w' → IdbRecord.id item ≠ id)
    ∧ (∀ t, idb_error env (OpGetAll "type" t) = None →
            Forall (λ item, callHooks env beforeRead (Some item) = Resolved tt)
                   (all_items t w') →
            all env t w'
            = (Resolved (map (λ item, JS.spread (IdbRecord.data item)) (all_items t w')), w')).
Proof.
  intros Hkeyed Hin Hopen Hput Htype.
  pose proof (softDelete_ok env type ids w Hopen Hput (or_introl Htype)) as Hok.
  pose proof (softDelete_keyed env type ids w Hkeyed) as Hkeyed'.
  destruct (softDelete env type ids w) as [o w'] eqn:Hdel.
  cbn [fst snd] in *. subst o. exists w'. split; [done|].
  pose proof (softDelete_resolved env type ids w w' id Hdel Hin) as Hrow.
  split; [exact Hrow|]. split; [|split].
  - intros Hget. rewrite get_unfold, Hopen, Hget, Hrow. done.
  - intros t item Hitem Hid.
    apply all_items_elem in Hitem as (_ & Hlive & k & Hk).
    pose proof (Hkeyed' k item Hk) as Hkid. simpl in Hkid.
    rewrite Hid in Hkid. subst k. rewrite Hrow in Hk.
    injection Hk as <-. by apply Hlive.
  - intros t Hall Hhooks. rewrite all_unfold, Hopen, Hall.
    by rewrite (Promise_all_Forall_resolved _ tt _ Hhooks).
Qed.

Lemma todo_world_keyed : keyed_by_id todo_world.
Proof. apply set_keyed. apply map_Forall_empty. Qed.

Lemma todo_world_declared : declares todo_world "todo".
Proof. by eexists. Qed.

Lemma empty_world_declared : declares empty_world "todo".
Proof. by eexists. Qed.

Lemma todo_world_declares : notifies todo_world "todo".
Proof. left. exact todo_world_declared. Qed.

Lemma todo_world_rows :
  db todo_world = {[ "1" := IdbRecord.mk "1" "todo" None (Some "true") todo_data ]}.
Proof. reflexivity. Qed.

Lemma todo_world_types k r :
  db todo_world !! k = Some r → notifies todo_world (IdbRecord.type r).
Proof.
  rewrite todo_world_rows. intros [-> <-]%lookup_singleton_Some.
  exact todo_world_declares.
Qed.

Lemma soft_delete_visibility_witness :
  let w' := (softDelete todo_env "todo" ["1"; "ghost"] todo_world).2 in
  softDelete todo_env "todo" ["1"; "ghost"] todo_world = (Resolved tt, w')
  ∧ db w' !! "ghost"
    = Some (IdbRecord.mk "ghost" "todo" (Some true) (Some "true") (JS.VObj []))
  ∧ get todo_env "ghost" w' = (Resolved JS.VUndefined, w')
  ∧ (∀ t item, item ∈ all_items t w' → IdbRecord.id item ≠ "ghost")
  ∧ all todo_env "todo" w' = (Resolved [], w').
Proof.
  cbn zeta.
  destruct (soft_delete_visibility todo_env "todo" ["1"; "ghost"] "ghost" todo_world)
    as (w' & Hdel & Hrow & Hget & Hitems & Hall).
  - exact todo_world_keyed.
  - apply list_elem_of_further, list_elem_of_here.
  - reflexivity.
  - reflexivity.
  - exact todo_world_declared.
  - assert (w' = (softDelete todo_env "todo" ["1"; "ghost"] todo_world).2) as Hw'
      by (by rewrite Hdel).
    rewrite <- Hw'. split; [exact Hdel|]. split; [exact Hrow|].
    split; [by apply Hget|]. split; [exact Hitems|].
    rewrite (Hall "todo" eq_refl); subst w'; [reflexivity | by vm_compute].
Defined.

(** ** JSON round trip *)

Lemma serialize_VObj props :
  JS.serialize (JS.VObj props) =
  match serialize_members props with
  | Some r => JS.Json (JS.VObj r)
  | None => JS.Throws
  end.
Proof. reflexivity. Qed.

Lemma serialize_omitted v :
  not_representable v = true → JS.serialize v = JS.Omitted.
Proof. by destruct v. Qed.

Lemma serialize_members_drop props :
  serialize_members (filter (λ p, not_representable p.2 = false) props)
  = serialize_members props.
Proof.
  induction props as [|[k x] props IH]; [done|].
  rewrite filter_cons. cbn [snd].
  destruct (decide (not_representable x = false)) as [Hx | Hx].
  - cbn [serialize_members]. by rewrite IH.
  - apply not_false_is_true in Hx. rewrite IH.
    cbn [serialize_members]. rewrite (serialize_omitted x Hx).
    by destruct (serialize_members props).
Qed.

(** Induction on values, through the lists of arrays and objects. *)
Section value_induction.
Context (P : JS.value → Prop).
Context (Hundefined : P JS.VUndefined) (Hnull : P JS.VNull)
        (Hbool : ∀ b, P (JS.VBool b)) (Hnum : ∀ n, P (JS.VNum n))
        (Hnonfinite : P JS.VNonFinite) (Hstr : ∀ s, P (JS.VStr s))
        (Hbigint : ∀ n, P (JS.VBigInt n)) (Hsymbol : P JS.VSymbol)
        (Hfunction : P JS.VFunction) (Hdate : ∀ iso, P (JS.VDate iso))
        (Harr : ∀ items, Forall P items → P (JS.VArr items))
        (Hobj : ∀ props, Forall (λ p, P p.2) props → P (JS.VObj props)).

Fixpoint value_induction (v : JS.value) : P v :=
  match v with
  | JS.VUndefined => Hundefined
  | JS.VNull => Hnull
  | JS.VBool b => Hbool b
  | JS.VNum n => Hnum n
  | JS.VNonFinite => Hnonfinite
  | JS.VStr s => Hstr s
  | JS.VBigInt n => Hbigint n
  | JS.VSymbol => Hsymbol
  | JS.VFunction => Hfunction
  | JS.VDate iso => Hdate iso
  | JS.VArr items =>
      Harr items
        ((fix all (l : list JS.value) : Forall P l :=
            match l with
            | [] => @List.Forall_nil _ P
            | x :: l' => @List.Forall_cons _ P x l' (value_induction x) (all l')
            end) items)
  | JS.VObj props =>
      Hobj props
        ((fix all (l : list (string * JS.value)) : Forall (λ p, P p.2) l :=
            match l with
            | [] => @List.Forall_nil _ (λ p, P p.2)
            | p :: l' => @List.Forall_cons _ (λ p, P p.2) p l' (value_induction p.2) (all l')
            end) props)
  end.

End value_induction.

Lemma serialize_VArr items :
  JS.serialize (JS.VArr items) =
  match serialize_elements items with
  | Some r => JS.Json (JS.VArr r)
  | None => JS.Throws
  end.
Proof. reflexivity. Qed.

Lemma serialize_elements_cons x l :
  serialize_elements (x :: l) =
  match JS.serialize x, serialize_elements l with
  | JS.Throws, _ | _, None => None
  | JS.Omitted, Some r => Some (JS.VNull :: r)
  | JS.Json y, Some r => Some (y :: r)
  end.
Proof. reflexivity. Qed.

Lemma serialize_members_cons k x l :
  serialize_members ((k, x) :: l) =
  match JS.serialize x, serialize_members l with
  | JS.Throws, _ | _, None => None
  | JS.Omitted, Some r => Some r
  | JS.Json y, Some r => Some ((k, y) :: r)
  end.
Proof. reflexivity. Qed.

(** What [JSON.stringify] keeps of a value is a JSON value. *)
Lemma serialize_is_json v c : JS.serialize v = JS.Json c → is_json c = true.
Proof.
  revert c. induction v as [| |b|n| |s|n| | |iso|items IH|props IH] using value_induction;
    intros c Hc; try (by inversion Hc); try discriminate.
  - destruct iso; by inversion Hc.
  - rewrite serialize_VArr in Hc.
    destruct (serialize_elements items) as [r|] eqn:Hr; [|discriminate].
    injection Hc as <-. cbn [is_json]. revert r Hr.
    induction IH as [|x l Hx _ IHl]; intros r Hr.
    + by injection Hr as <-.
    + rewrite serialize_elements_cons in Hr.
      destruct (JS.serialize x) as [| |y] eqn:Hsx; [discriminate| |];
        destruct (serialize_elements l) as [r'|]; try discriminate;
        injection Hr as <-; cbn [forallb]; rewrite (IHl r' eq_refl).
      * done.
      * by rewrite (Hx y eq_refl).
  - rewrite serialize_VObj in Hc.
    destruct (serialize_members props) as [r|] eqn:Hr; [|discriminate].
    injection Hc as <-. cbn [is_json]. revert r Hr.
    induction IH as [|[k x] l Hx _ IHl]; intros r Hr.
    + by injection Hr as <-.
    + rewrite serialize_members_cons in Hr. cbn [snd] in Hx.
      destruct (JS.serialize x) as [| |y] eqn:Hsx; [discriminate| |];
        destruct (serialize_members l) as [r'|]; try discriminate;
        injection Hr as <-.
      * by apply IHl.
      * cbn [forallb snd]. by rewrite (Hx y eq_refl), (IHl r' eq_refl).
Qed.

(** A JSON value is kept as it is. *)
Lemma serialize_json_fixed v : is_json v = true → JS.serialize v = JS.Json v.
Proof.
  induction v as [| |b|n| |s|n| | |iso|items IH|props IH] using value_induction;
    intros Hv; try done.
  - rewrite serialize_VArr. cbn [is_json] in Hv.
    assert (serialize_elements items = Some items) as ->; [|done].
    induction IH as [|x l Hx _ IHl]; [done|].
    cbn [forallb] in Hv. apply andb_true_iff in Hv as [Hvx Hvl].
    by rewrite serialize_elements_cons, (Hx Hvx), (IHl Hvl).
  - rewrite serialize_VObj. cbn [is_json] in Hv.
    assert (serialize_members props = Some props) as ->; [|done].
    induction IH as [|[k x] l Hx _ IHl]; [done|].
    cbn [forallb snd] in Hv, Hx. apply andb_true_iff in Hv as [Hvx Hvl].
    by rewrite serialize_members_cons, (Hx Hvx), (IHl Hvl).
Qed.

Lemma is_json_cloneable v : is_json v = true → JS.cloneable v = true.
Proof.
  induction v as [| | | | | | | | | |items IH|props IH] using value_induction; try done.
  - cbn [is_json JS.cloneable]. rewrite !forallb_forall.
    intros Hitems x Hx. rewrite Forall_forall in IH.
    apply IH; [by apply list_elem_of_In | by apply Hitems].
  - cbn [is_json JS.cloneable]. rewrite !forallb_forall.
    intros Hprops p Hp. rewrite Forall_forall in IH.
    apply IH; [by apply list_elem_of_In | by apply Hprops].
Qed.

(** What [set] stores can be cloned. *)
Lemma json_roundtrip_cloneable data copy :
  JS.json_roundtrip data = Some copy → JS.cloneable copy = true.
Proof.
  unfold JS.json_roundtrip. destruct (JS.serialize data) as [| |c] eqn:Hs; try done.
  intros [= <-]. by eapply is_json_cloneable, serialize_is_json.
Qed.

(** C7. Round trip: for data that [JSON.stringify]/[JSON.parse] accept,
    with a storage that raises no error and hooks that let the record
    through, [set(id, data)] of the public API, which exists for the
    declared types, resolves and a following [get(id)] resolves to
    [JSON.parse(JSON.stringify(data))]; in an object, members whose value is
    [undefined], a symbol or a function are dropped by that round trip, which
    gives the same result as if they had never been there. *)
Theorem set_get_roundtrip (env : Env) (type id : string) (data copy : JS.value) (w : World) :
  JS.json_roundtrip data = Some copy →
  idb_error env OpOpen = None →
  idb_error env (OpPut id) = None →
  idb_error env (OpGet id) = None →
  callHooks env beforeSave (Some (IdbRecord.mk id type None (Some "true") copy)) = Resolved tt →
  callHooks env beforeRead (Some (IdbRecord.mk id type None (Some "true") copy)) = Resolved tt →
  declares w type →
  (∃ w', set env type id data w = (Resolved tt, w')
         ∧ get env id w' = (Resolved copy, w'))
  ∧ (∀ props, data = JS.VObj props →
       JS.json_roundtrip (JS.VObj (filter (λ p, not_representable p.2 = false) props))
       = Some copy).
Proof.
  intros Hjson Hopen Hput Hget Hsave Hread Htype. split.
  - assert ((set env type id data w).1 = Resolved tt) as Hok.
    { rewrite set_unfold, Hjson. cbn zeta.
      pose proof (put_single_ok env (IdbRecord.mk id type None (Some "true") copy) w
                    Hopen Hsave (json_roundtrip_cloneable data copy Hjson) Hput
                    (or_introl Htype))
        as Hone.
      destruct (put env _ w) as [o w1]. cbn [fst] in Hone. by subst o. }
    destruct (set env type id data w) as [o w'] eqn:Hset. cbn [fst] in Hok. subst o.
    exists w'. split; [done|].
    destruct (set_resolved env type id data w w' Hset) as (copy' & Hjson' & Hrow).
    assert (copy' = copy) as -> by congruence.
    by rewrite get_unfold, Hopen, Hget, Hrow, Hread.
  - intros props ->. unfold JS.json_roundtrip in *.
    rewrite serialize_VObj in *. by rewrite serialize_members_drop.
Qed.

Lemma set_get_roundtrip_witness :
  (∃ w', set todo_env "todo" "1"
             (JS.VObj [("title", JS.VStr "a"); ("render", JS.VFunction)]) empty_world
         = (Resolved tt, w')
         ∧ get todo_env "1" w' = (Resolved (JS.VObj [("title", JS.VStr "a")]), w'))
  ∧ JS.json_roundtrip (JS.VObj [("title", JS.VStr "a")])
    = Some (JS.VObj [("title", JS.VStr "a")]).
Proof.
  destruct (set_get_roundtrip todo_env "todo" "1"
              (JS.VObj [("title", JS.VStr "a"); ("render", JS.VFunction)])
              (JS.VObj [("title", JS.VStr "a")]) empty_world)
    as (Hset & Hdrop); try reflexivity; [exact empty_world_declared|].
  split; [exact Hset|]. exact (Hdrop _ eq_refl).
Defined.

(** ** The sync cycle *)

Lemma with_syncing_cycle_arguments props b w :
  cycle_arguments props (with_syncing b w) = cycle_arguments props w.
Proof. reflexivity. Qed.

Lemma with_syncing_restore w : syncing w = false → with_syncing false (with_syncing true w) = w.
Proof. destruct w as [d l s t]. simpl. by intros ->. Qed.

Section sync_facts.
Context (env : Env) (props : Props).

Lemma respects_getItem R key :
  (∀ w, R w w) → respects R (localStorage_getItem env key).
Proof.
  intros HR w. unfold localStorage_getItem.
  destruct (storage_error env (OpGetItem key)); apply HR.
Qed.

Lemma collect_unchanged w : (collect env props w).2 = w.
Proof.
  revert w. change (respects unchanged (collect env props)).
  apply respects_bind; [apply unchanged_trans | apply getRawUnhookedUnsyncedRecords_unchanged |].
  intros items. apply respects_bind; [apply unchanged_trans | by apply respects_getItem |].
  intros stored. by apply respects_ret.
Qed.


Lemma sync_settle_resolved response w :
  sync_settle env props (Resolved response) w
  = try_finally (apply_response env props response) (with_syncing false) w.
Proof. reflexivity. Qed.

Lemma sync_settle_rejected e w :
  sync_settle env props (Rejected e) w = (Rejected e, with_syncing false w).
Proof. reflexivity. Qed.


Lemma triggerSync_busy sync w :
  syncing w = true → triggerSync env props sync w = (Resolved tt, w).
Proof. unfold triggerSync. by intros ->. Qed.

Lemma triggerSync_unfold sync w :
  syncing w = false →
  triggerSync env props sync w =
    match (collect env props (with_syncing true w)).1 with
    | Resolved args =>
        sync_settle env props (sync args) (emit (ExchangeCall args) (with_syncing true w))
    | Rejected e => (Rejected e, w)
    | Pending => (Pending, with_syncing true w)
    end.
Proof.
  intros Hidle. unfold triggerSync. rewrite Hidle.
  unfold try_finally at 1, bind at 1.
  pose proof (collect_unchanged (with_syncing true w)) as Hw.
  destruct (collect env props (with_syncing true w)) as [[args|e|] w1];
    cbn [fst snd] in *; subst w1; [| by rewrite with_syncing_restore | done].
  unfold sync_settle, try_finally, bind, call_sync, await.
  by destruct (sync args).
Qed.

(** [triggerSync] is [sync_begin] followed, once [config.sync] has settled,
    by [sync_settle]. *)
Lemma triggerSync_split sync w :
  triggerSync env props sync w =
    match sync_begin env props w with
    | (Returned o, w') => (o, w')
    | (AwaitingSync args, w') => sync_settle env props (sync args) w'
    end.
Proof.
  unfold sync_begin. destruct (syncing w) eqn:Hs.
  - by apply triggerSync_busy.
  - rewrite triggerSync_unfold by done.
    pose proof (collect_unchanged (with_syncing true w)) as Hw.
    destruct (collect env props (with_syncing true w)) as [[args|e|] w1];
      cbn [fst snd] in *; subst w1; [done | by rewrite with_syncing_restore | done].
Qed.

Lemma triggerSync_resolved_inv sync w w' :
  syncing w = false →
  triggerSync env props sync w = (Resolved tt, w') →
  ∃ args response w1,
    (collect env props (with_syncing true w)).1 = Resolved args
    ∧ sync args = Resolved response
    ∧ apply_response env props response (emit (ExchangeCall args) (with_syncing true w))
      = (Resolved tt, w1)
    ∧ w' = with_syncing false w1.
Proof.
  intros Hidle. rewrite triggerSync_unfold by done.
  destruct (collect env props (with_syncing true w)).1 as [args|e|]; try discriminate.
  destruct (sync args) as [response|e|] eqn:Hsync; try discriminate.
  rewrite sync_settle_resolved. unfold try_finally.
  destruct (apply_response env props response _) as [[[]|e|] w1] eqn:Happly;
    try discriminate.
  intros [= <-]. by exists args, response, w1.
Qed.

Lemma cursor_step_db response w :
  db (match SyncResponse.syncCursor response with
      | Some c => localStorage_setItem env (cursorKey props) c
      | None => localStorage_removeItem env (cursorKey props)
      end w).2 = db w.
Proof.
  unfold localStorage_setItem, localStorage_removeItem.
  destruct (SyncResponse.syncCursor response) as [c|];
    by destruct (storage_error env _).
Qed.

(** The rows after [apply_response] are those left by its [put], or by its
    [put] and [purge]. *)
Lemma apply_response_db response w :
  let w1 := (put env (updated_of (SyncResponse.records response)) w).2 in
  db (apply_response env props response w).2 = db w1
  ∨ db (apply_response env props response w).2
    = db (purge env (deleted_of (SyncResponse.records response)) w1).2.
Proof.
  cbn zeta. unfold apply_response, bind.
  destruct (put env _ w) as [[[]|e|] w1]; cbn [snd]; try by left.
  destruct (purge env _ w1) as [[[]|e|] w2]; cbn [snd]; try by right.
  right. apply cursor_step_db.
Qed.

Lemma apply_response_resolved response w w' :
  apply_response env props response w = (Resolved tt, w') →
  ∃ w1 w2,
    put env (updated_of (SyncResponse.records response)) w = (Resolved tt, w1)
    ∧ purge env (deleted_of (SyncResponse.records response)) w1 = (Resolved tt, w2)
    ∧ db w' = db w2.
Proof.
  unfold apply_response. intros H.
  apply bind_resolved_inv in H as ([] & w1 & Hput & H).
  apply bind_resolved_inv in H as ([] & w2 & Hpurge & H).
  exists w1, w2. split; [done|]. split; [done|].
  pose proof (cursor_step_db response w2) as Hdb. by rewrite H in Hdb.
Qed.

Lemma elem_of_updated_of records r :
  r ∈ updated_of records ↔
  ∃ s, s ∈ records ∧ SyncedRecord.state s = "updated" ∧ r = to_updated s.
Proof.
  unfold updated_of. rewrite list_elem_of_fmap. split.
  - intros (s & -> & Hs). apply list_elem_of_filter in Hs as [Hst Hs]. by exists s.
  - intros (s & Hs & Hst & ->). exists s. split; [done|]. by apply list_elem_of_filter.
Qed.

Lemma elem_of_deleted_of records id :
  id ∈ deleted_of records ↔
  ∃ s, s ∈ records ∧ SyncedRecord.state s = "deleted" ∧ SyncedRecord.id s = id.
Proof.
  unfold deleted_of. rewrite list_elem_of_fmap. split.
  - intros (s & -> & Hs). apply list_elem_of_filter in Hs as [Hst Hs]. by exists s.
  - intros (s & Hs & Hst & <-). exists s. split; [done|]. by apply list_elem_of_filter.
Qed.

(** Rows the response does not mention are not touched, however the cycle
    ends. *)
Lemma apply_response_lookup_other response w k :
  (∀ s, s ∈ SyncResponse.records response → SyncedRecord.id s ≠ k) →
  db (apply_response env props response w).2 !! k = db w !! k.
Proof.
  intros Hk.
  assert (db (put env (updated_of (SyncResponse.records response)) w).2 !! k = db w !! k)
    as Hput.
  { destruct (put_lookup env (updated_of (SyncResponse.records response)) w k)
      as [H | (r & Hin & Hid & _)]; [done|].
    apply elem_of_updated_of in Hin as (s & Hs & _ & ->). by destruct (Hk s Hs). }
  destruct (apply_response_db response w) as [-> | ->]; [done|].
  destruct (purge_lookup env (deleted_of (SyncResponse.records response))
              (put env (updated_of (SyncResponse.records response)) w).2 k)
    as [H | [Hin _]]; [by rewrite H|].
  apply elem_of_deleted_of in Hin as (s & Hs & _ & Hid). by destruct (Hk s Hs).
Qed.

End sync_facts.

(** ** A storage that raises no error *)

Section idb_quiet_storage.
Context (env : Env).
Context (Hidb : ∀ op, idb_error env op = None).

Lemma put_record_ok r w :
  callHooks env beforeSave (Some r) = Resolved tt →
  JS.cloneable (IdbRecord.data r) = true →
  (put_record env r w).1 = Resolved tt.
Proof.
  intros Hr Hclone. unfold put_record, new_Promise_async, bind, await, request.
  by rewrite Hr, Hclone, Hidb.
Qed.

Lemma start_all_put_record_ok records w :
  hooks_accept env beforeSave records →
  Forall (λ r, JS.cloneable (IdbRecord.data r) = true) records →
  (start_all (put_record env) records w).1 = map Resolved (map (λ _, tt) records).
Proof.
  intros Hhooks. revert w.
  induction Hhooks as [|r rs' Hr _ IH]; intros w Hclone; [done|].
  apply Forall_cons in Hclone as [Hc Hclone].
  cbn [start_all]. pose proof (put_record_ok r w Hr Hc) as Hone.
  destruct (put_record env r w) as [o w1]. specialize (IH w1 Hclone).
  destruct (start_all (put_record env) rs' w1) as [os w2].
  cbn [fst] in *. by rewrite Hone, IH.
Qed.

Lemma put_ok records w :
  hooks_accept env beforeSave records →
  Forall (λ r, JS.cloneable (IdbRecord.data r) = true ∧ notifies w (IdbRecord.type r))
         records →
  (put env records w).1 = Resolved tt.
Proof.
  intros Hhooks Hrecords. destruct records as [|r0 rs] eqn:Heq; [done|].
  rewrite <- Heq in *. rewrite put_unfold by (by subst).
  rewrite Hidb.
  rewrite start_all_put_record_ok, Promise_all_map_Resolved;
    [|done | by eapply Forall_impl; [exact Hrecords | intros r []]].
  apply notify_each_ok. intros type Htype.
  apply elem_of_new_Set, list_elem_of_fmap in Htype as (r & -> & Hr).
  rewrite Forall_forall in Hrecords.
  apply (notifies_same w); [|by apply Hrecords].
  apply (respects_start_all same_declared same_declared_refl same_declared_trans).
  apply put_record_same_declared.
Qed.

Lemma start_all_reads_ok ids w :
  (start_all (getRawUnhookedRecord env) ids w).1 = map Resolved (map (λ id, db w !! id) ids).
Proof.
  induction ids as [|i ids IH]; [done|].
  cbn [start_all].
  assert (getRawUnhookedRecord env i w = (Resolved (db w !! i), w)) as ->.
  { unfold getRawUnhookedRecord, new_Promise_async, bind, open, request.
    by rewrite !Hidb. }
  destruct (start_all (getRawUnhookedRecord env) ids w) as [os w2].
  cbn [fst] in *. by rewrite IH.
Qed.

Lemma start_all_delete_record_ok ids w :
  (start_all (delete_record env) ids w).1 = map Resolved (map (λ _, tt) ids).
Proof.
  revert w. induction ids as [|i ids IH]; intros w; [done|].
  cbn [start_all].
  assert ((delete_record env i w).1 = Resolved tt) as Hone.
  { unfold delete_record, request. by rewrite Hidb. }
  destruct (delete_record env i w) as [o w1]. specialize (IH w1).
  destruct (start_all (delete_record env) ids w1) as [os w2].
  cbn [fst] in *. by rewrite Hone, IH.
Qed.

Lemma purge_ok ids w :
  (∀ id r, id ∈ ids → db w !! id = Some r → notifies w (IdbRecord.type r)) →
  (purge env ids w).1 = Resolved tt.
Proof.
  intros Htypes. destruct ids as [|i0 rest] eqn:Hids; [done|].
  rewrite <- Hids in *. rewrite purge_unfold by (by subst).
  rewrite Hidb, start_all_reads_ok, Promise_all_map_Resolved.
  rewrite start_all_delete_record_ok, Promise_all_map_Resolved.
  apply notify_each_ok. intros type Htype.
  apply elem_of_new_Set, list_elem_of_fmap in Htype as (r & -> & Hr).
  apply list_elem_of_omap in Hr as (row & Hrow & Hsome). cbn in Hsome. subst row.
  apply list_elem_of_fmap in Hrow as (id & Hid & Hin).
  apply (notifies_same w); [|by eapply Htypes].
  apply (respects_start_all same_declared same_declared_refl same_declared_trans).
  intros i w1. unfold delete_record.
  by destruct (request env (OpDelete i) "Error deleting record: " tt).
Qed.

End idb_quiet_storage.

Section quiet_storage.
Context (env : Env) (props : Props).
Context (Hquiet : quiet env).

(** The rows [purge] reads once [put] has run have types [notify] returns
    for. *)
Lemma storable_after_put response w id r :
  storable w response →
  id ∈ deleted_of (SyncResponse.records response) →
  db (put env (updated_of (SyncResponse.records response)) w).2 !! id = Some r →
  notifies (put env (updated_of (SyncResponse.records response)) w).2 (IdbRecord.type r).
Proof.
  intros [Hupdated Hdeleted] Hin Hrow.
  apply (notifies_same w); [apply put_same_declared|].
  destruct (put_lookup env (updated_of (SyncResponse.records response)) w id)
    as [Hsame | (r' & Hr' & _ & Hwritten)].
  - rewrite Hsame in Hrow. by eapply Hdeleted.
  - rewrite Hwritten in Hrow. injection Hrow as <-.
    rewrite Forall_forall in Hupdated. by apply Hupdated.
Qed.

Lemma apply_response_ok response w :
  hooks_accept env beforeSave (updated_of (SyncResponse.records response)) →
  storable w response →
  (apply_response env props response w).1 = Resolved tt.
Proof.
  intros Hhooks Hstorable. unfold apply_response, bind.
  pose proof (put_ok env (proj1 Hquiet) _ w Hhooks (proj1 Hstorable)) as Hput.
  pose proof (λ id r, storable_after_put response w id r Hstorable) as Htypes.
  destruct (put env _ w) as [o1 w1]. cbn [fst snd] in *. subst o1.
  pose proof (purge_ok env (proj1 Hquiet) (deleted_of (SyncResponse.records response)) w1
                Htypes) as Hpurge.
  destruct (purge env _ w1) as [o2 w2]. cbn [fst] in Hpurge. subst o2.
  unfold localStorage_setItem, localStorage_removeItem.
  destruct (SyncResponse.syncCursor response); by rewrite (proj2 Hquiet).
Qed.

Lemma collect_ok w :
  (collect env props w).1
  = Resolved (sync_arguments props
                (map to_unsynced
                     (index_getAll (λ r, bool_decide (IdbRecord.unsynced r = Some "true")) w))
                (or_undefined (item_value (localStorage w !! cursorKey props)))).
Proof.
  unfold collect, bind, getRawUnhookedUnsyncedRecords, bind, open, new_Promise_async,
    request, localStorage_getItem, ret.
  by rewrite !(proj1 Hquiet), (proj2 Hquiet).
Qed.

End quiet_storage.

Section cycles.
Context (env : Env) (props : Props).

Lemma collect_resolved w args :
  (collect env props w).1 = Resolved args → args = cycle_arguments props w.
Proof.
  unfold collect, bind, getRawUnhookedUnsyncedRecords, bind, open, new_Promise_async,
    request, localStorage_getItem, ret.
  destruct (idb_error env OpOpen); [done|].
  destruct (idb_error env (OpGetAll "unsynced" "true")); [done|].
  destruct (storage_error env (OpGetItem (cursorKey props))); [done|].
  by intros [= <-].
Qed.

(** A completed cycle has called [config.sync] with the arguments collected
    at its start and applied the response to its end. *)
Lemma triggerSync_completed sync w w' :
  syncing w = false →
  triggerSync env props sync w = (Resolved tt, w') →
  ∃ response w1,
    sync (cycle_arguments props w) = Resolved response
    ∧ apply_response env props response
        (emit (ExchangeCall (cycle_arguments props w)) (with_syncing true w))
      = (Resolved tt, w1)
    ∧ w' = with_syncing false w1.
Proof.
  intros Hidle Hcycle.
  destruct (triggerSync_resolved_inv env props sync w w' Hidle Hcycle)
    as (args & response & w1 & Hargs & Hsync & Happly & ->).
  apply collect_resolved in Hargs. rewrite with_syncing_cycle_arguments in Hargs.
  subst args. by exists response, w1.
Qed.

Lemma set_ok type id data copy w :
  quiet env →
  JS.json_roundtrip data = Some copy →
  hooks_accept env beforeSave [IdbRecord.mk id type None (Some "true") copy] →
  notifies w type →
  (set env type id data w).1 = Resolved tt.
Proof.
  intros Hquiet Hjson Hhooks Htype. rewrite set_unfold, Hjson. cbn zeta.
  pose proof (put_single_ok env (IdbRecord.mk id type None (Some "true") copy) w
                (proj1 Hquiet OpOpen) (Forall_inv Hhooks)
                (json_roundtrip_cloneable data copy Hjson)
                (proj1 Hquiet (OpPut id)) Htype) as Hput.
  destruct (put env _ w) as [o w1]. cbn [fst] in Hput. by subst o.
Qed.

(** With a storage that raises no error and hooks that accept what the
    server sent, a cycle whose call of [config.sync] resolves runs to its
    end. *)
Lemma cycle_completes sync response w :
  quiet env →
  syncing w = false →
  sync (cycle_arguments props w) = Resolved response →
  hooks_accept env beforeSave (updated_of (SyncResponse.records response)) →
  storable w response →
  ∃ w1,
    apply_response env props response
      (emit (ExchangeCall (cycle_arguments props w)) (with_syncing true w))
    = (Resolved tt, w1)
    ∧ triggerSync env props sync w = (Resolved tt, with_syncing false w1).
Proof.
  intros Hquiet Hidle Hsync Hhooks Hstorable.
  rewrite triggerSync_unfold by done. rewrite (collect_ok env props Hquiet).
  change (sync_arguments props _ _) with (cycle_arguments props w).
  rewrite Hsync, sync_settle_resolved. unfold try_finally.
  pose proof (apply_response_ok env props Hquiet response
                (emit (ExchangeCall (cycle_arguments props w)) (with_syncing true w))
                Hhooks Hstorable) as Hok.
  destruct (apply_response env props response _) as [o w1].
  cbn [fst] in Hok. subst o. by exists w1.
Qed.

(** After a completed [apply_response], a row echoed as "updated" carries
    no [unsynced] field. *)
Lemma apply_response_clears response w w' s :
  apply_response env props response w = (Resolved tt, w') →
  s ∈ SyncResponse.records response →
  SyncedRecord.state s = "updated" →
  (∀ r, db w' !! SyncedRecord.id s = Some r → IdbRecord.unsynced r = None)
  ∧ ((∀ s', s' ∈ SyncResponse.records response →
            SyncedRecord.id s' = SyncedRecord.id s → SyncedRecord.state s' ≠ "deleted") →
     ∃ r, db w' !! SyncedRecord.id s = Some r ∧ IdbRecord.unsynced r = None).
Proof.
  intros Happly Hs Hstate.
  apply apply_response_resolved in Happly as (w1 & w2 & Hput & Hpurge & Hdb).
  rewrite Hdb.
  assert (∃ r, db w1 !! SyncedRecord.id s = Some r ∧ IdbRecord.unsynced r = None)
    as (r1 & Hr1 & Hu1).
  { destruct (put_resolved env _ w w1 (to_updated s) Hput) as (r' & Hin & _ & Hr').
    { apply elem_of_updated_of. by exists s. }
    exists r'. split; [exact Hr'|].
    apply elem_of_updated_of in Hin as (s' & _ & _ & ->). done. }
  pose proof (purge_lookup env (deleted_of (SyncResponse.records response)) w1
                (SyncedRecord.id s)) as Hk.
  rewrite Hpurge in Hk. cbn [snd] in Hk. split.
  - intros r Hr. destruct Hk as [Hk | [_ Hk]]; rewrite Hk in Hr; [|done].
    rewrite Hr1 in Hr. by injection Hr as <-.
  - intros Hnodel. exists r1. split; [|done].
    destruct Hk as [Hk | [Hin _]]; [by rewrite Hk|].
    apply elem_of_deleted_of in Hin as (s' & Hs' & Hst' & Hid').
    by destruct (Hnodel s' Hs' Hid').
Qed.

End cycles.

(** C1. Unsynced marking. After a resolved [set(id, data)] or
    [delete(...ids)] the raw row of the id has [unsynced = "true"]. After a
    completed cycle whose response echoes the id with state "updated", no
    row under that id has an [unsynced] field, and there is a row without
    the field when the response does not also list the id as "deleted"; a
    row the response does not mention keeps exactly what it had, its marker
    included. These operations run to their end - [set] and [delete] of a
    type that [notify] returns for, the cycle for a response the store can
    take - when the storage raises no error and the hooks let the records
    through; a response with an "updated" entry that cannot be cloned, or
    of a type [notify] throws on, is not one the store can take. *)
Theorem unsynced_marking (env : Env) (props : Props) (sync : Exchange)
    (response : SyncResponse.t) (type id : string) (data : JS.value)
    (ids : list string) (w : World) :
  syncing w = false →
  sync (cycle_arguments props w) = Resolved response →
  (∀ w', set env type id data w = (Resolved tt, w') →
         ∃ r, db w' !! id = Some r ∧ IdbRecord.unsynced r = Some "true")
  ∧ (∀ w', id ∈ ids → softDelete env type ids w = (Resolved tt, w') →
           ∃ r, db w' !! id = Some r ∧ IdbRecord.unsynced r = Some "true")
  ∧ (∀ w', triggerSync env props sync w = (Resolved tt, w') →
       (∀ s, s ∈ SyncResponse.records response →
             SyncedRecord.id s = id → SyncedRecord.state s = "updated" →
             (∀ r, db w' !! id = Some r → IdbRecord.unsynced r = None)
             ∧ ((∀ s', s' ∈ SyncResponse.records response →
                       SyncedRecord.id s' = id → SyncedRecord.state s' ≠ "deleted") →
                ∃ r, db w' !! id = Some r ∧ IdbRecord.unsynced r = None))
       ∧ ((∀ s, s ∈ SyncResponse.records response → SyncedRecord.id s ≠ id) →
          db w' !! id = db w !! id))
  ∧ (quiet env →
     (notifies w type →
      (∀ copy, JS.json_roundtrip data = Some copy →
               hooks_accept env beforeSave [IdbRecord.mk id type None (Some "true") copy] →
               (set env type id data w).1 = Resolved tt)
      ∧ (softDelete env type ids w).1 = Resolved tt)
     ∧ (hooks_accept env beforeSave (updated_of (SyncResponse.records response)) →
        storable w response →
        (triggerSync env props sync w).1 = Resolved tt)).
Proof.
  intros Hidle Hsync. split; [|split; [|split]].
  - intros w' Hset.
    destruct (set_resolved env type id data w w' Hset) as (copy & _ & Hrow).
    by exists (IdbRecord.mk id type None (Some "true") copy).
  - intros w' Hin Hdel. exists (tombstone type id).
    split; [by eapply softDelete_resolved | done].
  - intros w' Hcycle.
    destruct (triggerSync_completed env props sync w w' Hidle Hcycle)
      as (response' & w1 & Hsync' & Happly & ->).
    assert (response' = response) as -> by congruence.
    split.
    + intros s Hs <- Hstate.
      exact (apply_response_clears env props response _ w1 s Happly Hs Hstate).
    + intros Hother.
      pose proof (apply_response_lookup_other env props response
                    (emit (ExchangeCall (cycle_arguments props w)) (with_syncing true w))
                    id Hother) as Hk.
      by rewrite Happly in Hk.
  - intros Hquiet. split.
    + intros Htype. split.
      * intros copy Hjson Hsave. by eapply set_ok.
      * apply softDelete_ok; [apply Hquiet | intros; apply Hquiet | done].
    + intros Hhooks Hstorable.
      destruct (cycle_completes env props sync response w Hquiet Hidle Hsync Hhooks
                  Hstorable) as (w1 & _ & Hcycle).
      by rewrite Hcycle.
Qed.

Lemma todo_env_quiet : quiet todo_env.
Proof. by split. Qed.

Lemma unsynced_marking_witness :
  (∃ r, db (set todo_env "todo" "1" todo_data todo_world).2 !! "1" = Some r
        ∧ IdbRecord.unsynced r = Some "true")
  ∧ (∃ r, db (softDelete todo_env "todo" ["1"] todo_world).2 !! "1" = Some r
          ∧ IdbRecord.unsynced r = Some "true")
  ∧ (∃ r, db (triggerSync todo_env todo_props todo_echo todo_world).2 !! "1" = Some r
          ∧ IdbRecord.unsynced r = None)
  ∧ (triggerSync todo_env todo_props todo_echo todo_world).1 = Resolved tt.
Proof.
  destruct (unsynced_marking todo_env todo_props todo_echo
              (SyncResponse.mk [SyncedRecord.mk "1" "updated" "todo" todo_data] (Some "t1"))
              "todo" "1" todo_data ["1"] todo_world)
    as (Hset & Hdel & Hecho & Hends); [reflexivity | reflexivity |].
  split; [|split; [|split]].
  - by apply Hset.
  - apply Hdel; [apply list_elem_of_here | reflexivity].
  - destruct (Hecho _ eq_refl) as [Hcleared _].
    destruct (Hcleared (SyncedRecord.mk "1" "updated" "todo" todo_data)
                (list_elem_of_here _ _) eq_refl eq_refl) as [_ Hrow].
    apply Hrow. intros s' Hs' _. apply list_elem_of_singleton in Hs'. by subst s'.
  - destruct (Hends todo_env_quiet) as [_ Hcycle]. apply Hcycle.
    + apply Forall_cons. split; [reflexivity | by apply Forall_nil].
    + split; [|intros ?? Hin; by apply elem_of_nil in Hin].
      apply Forall_cons. split; [|by apply Forall_nil].
      split; [reflexivity | exact todo_world_declares].
Defined.

(** C5. Purge on server delete: when the response lists an id with state
    "deleted", after the completed cycle a raw lookup of the id finds no row
    at all, whatever was stored under the id before (an unsynced row, a
    tombstone, or nothing), and rows under ids the response does not mention
    are as they were. The cycle completes, for a response the store can
    take, when the storage raises no error and the hooks accept what the
    server sent. *)
Theorem purge_on_server_delete (env : Env) (props : Props) (sync : Exchange)
    (response : SyncResponse.t) (id : string) (w : World) :
  syncing w = false →
  sync (cycle_arguments props w) = Resolved response →
  (∃ s, s ∈ SyncResponse.records response
        ∧ SyncedRecord.id s = id ∧ SyncedRecord.state s = "deleted") →
  (∀ w', triggerSync env props sync w = (Resolved tt, w') →
     db w' !! id = None
     ∧ getRawUnhookedRecord env id w' = (Resolved None, w')
     ∧ (∀ k, (∀ s, s ∈ SyncResponse.records response → SyncedRecord.id s ≠ k) →
             db w' !! k = db w !! k))
  ∧ (quiet env →
     hooks_accept env beforeSave (updated_of (SyncResponse.records response)) →
     storable w response →
     (triggerSync env props sync w).1 = Resolved tt).
Proof.
  intros Hidle Hsync (s & Hs & Hid & Hstate). split.
  - intros w' Hcycle.
    destruct (triggerSync_completed env props sync w w' Hidle Hcycle)
      as (response' & w1 & Hsync' & Happly & ->).
    assert (response' = response) as -> by congruence.
    destruct (apply_response_resolved env props response _ w1 Happly)
      as (wa & wb & _ & Hpurge & Hdb).
    assert (id ∈ deleted_of (SyncResponse.records response)) as Hin.
    { apply elem_of_deleted_of. by exists s. }
    assert (db w1 !! id = None) as Hgone.
    { rewrite Hdb. by apply (purge_resolved env _ wa wb id Hpurge). }
    destruct (purge_resolved_reads env _ wa wb id Hpurge Hin) as [Hopen Hget].
    split; [exact Hgone|]. split.
    + unfold getRawUnhookedRecord, new_Promise_async, bind, open, request.
      rewrite Hopen, Hget. cbn [fst snd db with_syncing]. by rewrite Hgone.
    + intros k Hk.
      pose proof (apply_response_lookup_other env props response
                    (emit (ExchangeCall (cycle_arguments props w)) (with_syncing true w))
                    k Hk) as Hother.
      by rewrite Happly in Hother.
  - intros Hquiet Hhooks Hstorable.
    destruct (cycle_completes env props sync response w Hquiet Hidle Hsync Hhooks
                Hstorable) as (w1 & _ & Hcycle).
    by rewrite Hcycle.
Qed.

Lemma purge_on_server_delete_witness :
  let w' := (triggerSync todo_env todo_props todo_deleted todo_world).2 in
  db w' !! "1" = None
  ∧ getRawUnhookedRecord todo_env "1" w' = (Resolved None, w')
  ∧ (triggerSync todo_env todo_props todo_deleted todo_world).1 = Resolved tt.
Proof.
  cbn zeta.
  destruct (purge_on_server_delete todo_env todo_props todo_deleted
              (SyncResponse.mk [SyncedRecord.mk "1" "deleted" "todo" (JS.VObj []);
                                SyncedRecord.mk "ghost" "deleted" "todo" (JS.VObj [])] None)
              "1" todo_world) as [Hgone Hends].
  - reflexivity.
  - reflexivity.
  - exists (SyncedRecord.mk "1" "deleted" "todo" (JS.VObj [])).
    split; [apply list_elem_of_here | by split].
  - destruct (Hgone _ eq_refl) as (Hrow & Hlookup & _).
    split; [exact Hrow|]. split; [exact Hlookup|].
    apply (Hends todo_env_quiet); [constructor|].
    split; [constructor|]. intros k r _. apply todo_world_types.
Defined.

(** ** Calls of [config.sync] and the stored cursor *)

Lemma no_call_refl w : no_call w w.
Proof. by split. Qed.

Lemma no_call_trans w1 w2 w3 : no_call w1 w2 → no_call w2 w3 → no_call w1 w3.
Proof. intros [??] [??]. split; congruence. Qed.

Lemma idb_only_no_call {A} (t : Task A) : respects idb_only t → respects no_call t.
Proof. intros H w. destruct (H w) as (_ & ? & ?). by split. Qed.

Section cursor.
Context (env : Env) (props : Props).

Lemma cursor_step_no_call response :
  respects no_call
    (match SyncResponse.syncCursor response with
     | Some c => localStorage_setItem env (cursorKey props) c
     | None => localStorage_removeItem env (cursorKey props)
     end).
Proof.
  intros w. unfold localStorage_setItem, localStorage_removeItem.
  destruct (SyncResponse.syncCursor response) as [c|];
    destruct (storage_error env _); split; try done;
    unfold exchange_calls; simpl; rewrite omap_app; simpl; by rewrite app_nil_r.
Qed.

Lemma apply_response_no_call response : respects no_call (apply_response env props response).
Proof.
  apply respects_bind; [apply no_call_trans | apply idb_only_no_call, put_idb_only |].
  intros _. apply respects_bind; [apply no_call_trans | apply idb_only_no_call, purge_idb_only |].
  intros _. apply cursor_step_no_call.
Qed.

Lemma apply_response_cursor response w w' :
  apply_response env props response w = (Resolved tt, w') →
  localStorage w' !! cursorKey props = SyncResponse.syncCursor response.
Proof.
  unfold apply_response. intros H.
  apply bind_resolved_inv in H as ([] & w1 & Hput & H).
  apply bind_resolved_inv in H as ([] & w2 & Hpurge & H).
  unfold localStorage_setItem, localStorage_removeItem in H.
  destruct (SyncResponse.syncCursor response) as [c|];
    destruct (storage_error env _); try discriminate; injection H as <-; simpl.
  - apply lookup_insert_eq.
  - apply lookup_delete_eq.
Qed.

(** A cycle that gets as far as calling [config.sync] calls it once, however
    the call and the rest of the cycle end. *)
Lemma sync_settle_no_new_call settled w :
  exchange_calls (sync_settle env props settled w).2 = exchange_calls w.
Proof.
  destruct settled as [response|e|]; [|done|done].
  rewrite sync_settle_resolved. unfold try_finally.
  pose proof (apply_response_no_call response w) as [_ Hcalls].
  by destruct (apply_response env props response w) as [[[]|e|] w'].
Qed.

Lemma triggerSync_calls sync w :
  quiet env → syncing w = false →
  exchange_calls (triggerSync env props sync w).2
  = (exchange_calls w ++ [cycle_arguments props w])%list.
Proof.
  intros Hquiet Hidle. rewrite triggerSync_unfold by done.
  rewrite (collect_ok env props Hquiet).
  change (sync_arguments props _ _) with (cycle_arguments props w).
  rewrite sync_settle_no_new_call.
  unfold exchange_calls. simpl. by rewrite omap_app.
Qed.

End cursor.

(** What the cycle sends for a slot: no slot and an empty slot are both
    sent as [undefined], any other slot as its string. *)
Lemma or_undefined_item (slot : option string) :
  or_undefined (item_value slot)
  = match slot with
    | None | Some "" => JS.VUndefined
    | Some value => JS.VStr value
    end.
Proof. by destruct slot as [[|]|]. Qed.

Lemma cycle_arguments_fields props w :
  cycle_arguments props w
  = [JS.VObj [("records", records_argument w);
              ("namespace", JS.VStr (namespace props));
              ("syncCursor", cursor_argument props w)]].
Proof. reflexivity. Qed.

(** C4. Cursor persistence over three consecutive cycles, with a storage
    that raises no error, hooks that accept what the server sent and
    responses the store can take: with no stored cursor [getItem] returns
    [null] and the first call of [config.sync] carries
    [syncCursor = undefined]; when the first response carries a non-empty
    cursor [c] (such as "C1"), it is stored and the second call carries
    [syncCursor = c]; when the second response carries no cursor, the stored
    one is removed and the third call carries [syncCursor = undefined]
    again. *)
Theorem cursor_persistence (env : Env) (props : Props) (sync1 sync2 sync3 : Exchange)
    (r1 r2 : SyncResponse.t) (c : string) (w0 : World) :
  quiet env →
  syncing w0 = false →
  localStorage w0 !! cursorKey props = None →
  c ≠ "" →
  sync1 (cycle_arguments props w0) = Resolved r1 →
  hooks_accept env beforeSave (updated_of (SyncResponse.records r1)) →
  storable w0 r1 →
  SyncResponse.syncCursor r1 = Some c →
  sync2 (cycle_arguments props (triggerSync env props sync1 w0).2) = Resolved r2 →
  hooks_accept env beforeSave (updated_of (SyncResponse.records r2)) →
  storable (triggerSync env props sync1 w0).2 r2 →
  SyncResponse.syncCursor r2 = None →
  let w1 := (triggerSync env props sync1 w0).2 in
  let w2 := (triggerSync env props sync2 w1).2 in
  let w3 := (triggerSync env props sync3 w2).2 in
  (triggerSync env props sync1 w0).1 = Resolved tt
  ∧ (triggerSync env props sync2 w1).1 = Resolved tt
  ∧ exchange_calls w3
    = (exchange_calls w0
       ++ [cycle_arguments props w0; cycle_arguments props w1; cycle_arguments props w2])%list
  ∧ (localStorage_getItem env (cursorKey props) w0).1 = Resolved JS.VNull
  ∧ cursor_argument props w0 = JS.VUndefined
  ∧ localStorage w1 !! cursorKey props = Some c
  ∧ cursor_argument props w1 = JS.VStr c
  ∧ localStorage w2 !! cursorKey props = None
  ∧ (localStorage_getItem env (cursorKey props) w2).1 = Resolved JS.VNull
  ∧ cursor_argument props w2 = JS.VUndefined.
Proof.
  intros Hquiet Hidle Hnone Hc Hs1 Hh1 Hst1 Hc1 Hs2 Hh2 Hst2 Hc2. cbn zeta.
  destruct (cycle_completes env props sync1 r1 w0 Hquiet Hidle Hs1 Hh1 Hst1)
    as (wa & Happly1 & Hcycle1).
  rewrite Hcycle1 in *. cbn [fst snd] in *.
  assert (syncing (with_syncing false wa) = false) as Hidle1 by done.
  destruct (cycle_completes env props sync2 r2 _ Hquiet Hidle1 Hs2 Hh2 Hst2)
    as (wb & Happly2 & Hcycle2).
  rewrite Hcycle2. cbn [fst snd].
  assert (syncing (with_syncing false wb) = false) as Hidle2 by done.
  rewrite (triggerSync_calls env props sync3 _ Hquiet Hidle2).
  pose proof (triggerSync_calls env props sync2 _ Hquiet Hidle1) as Hcalls2.
  rewrite Hcycle2 in Hcalls2. cbn [snd] in Hcalls2. rewrite Hcalls2.
  pose proof (triggerSync_calls env props sync1 _ Hquiet Hidle) as Hcalls1.
  rewrite Hcycle1 in Hcalls1. cbn [snd] in Hcalls1. rewrite Hcalls1.
  apply apply_response_cursor in Happly1, Happly2.
  rewrite Hc1 in Happly1. rewrite Hc2 in Happly2.
  split; [done|]. split; [done|].
  split; [by rewrite <- !app_assoc|].
  unfold cursor_argument, localStorage_getItem. rewrite !(proj2 Hquiet).
  cbn [localStorage with_syncing fst].
  rewrite Hnone, Happly1, Happly2. repeat split.
  destruct c; [done|]. reflexivity.
Qed.

(** ** Interleavings *)

Section sessions.
Context (env : Env) (props : Props).

Lemma run_app evs1 evs2 s : run env props (evs1 ++ evs2) s = run env props evs2 (run env props evs1 s).
Proof. apply fold_left_app. Qed.

Lemma run_cons ev evs s : run env props (ev :: evs) s = run env props evs (step env props s ev).
Proof. reflexivity. Qed.

(** [if (syncing) return]: a trigger during a cycle changes nothing. *)
Lemma step_trigger_busy s : syncing (world s) = true → step env props s Trigger = s.
Proof.
  intros Hbusy. unfold step, sync_begin. rewrite Hbusy. by destruct s.
Qed.

Lemma settle_no_call settled s :
  exchange_calls (world (settle env props settled s)) = exchange_calls (world s).
Proof.
  unfold settle. destruct (awaiting s); [|done]. apply sync_settle_no_new_call.
Qed.

Lemma settle_awaiting settled s : awaiting (settle env props settled s) = None.
Proof. unfold settle. by destruct (awaiting s) eqn:H. Qed.

(** Only a trigger can lead to a call of [config.sync]. *)
Lemma step_no_call s ev :
  ev ≠ Trigger → exchange_calls (world (step env props s ev)) = exchange_calls (world s).
Proof.
  intros Hev. destruct ev as [|response|reason|type id data|type ids]; [done| | | |].
  - apply settle_no_call.
  - apply settle_no_call.
  - apply (set_idb_only env type id data (world s)).
  - apply (softDelete_idb_only env type ids (world s)).
Qed.

(** Writes through the public API and further triggers leave a running
    cycle as it is: the flag, the pending call, the calls made and
    [localStorage]. *)
Lemma step_during_cycle s ev :
  syncing (world s) = true → ¬ is_settlement ev →
  syncing (world (step env props s ev)) = true
  ∧ awaiting (step env props s ev) = awaiting s
  ∧ exchange_calls (world (step env props s ev)) = exchange_calls (world s)
  ∧ localStorage (world (step env props s ev)) = localStorage (world s).
Proof.
  intros Hbusy Hev. destruct ev as [|response|reason|type id data|type ids];
    try by destruct Hev.
  - by rewrite step_trigger_busy.
  - destruct (set_idb_only env type id data (world s)) as (Hl & Hs & Hc).
    cbn [step world awaiting]. by rewrite Hs, Hc, Hl.
  - destruct (softDelete_idb_only env type ids (world s)) as (Hl & Hs & Hc).
    cbn [step world awaiting]. by rewrite Hs, Hc, Hl.
Qed.

Lemma run_during_cycle evs s :
  syncing (world s) = true → Forall (λ ev, ¬ is_settlement ev) evs →
  syncing (world (run env props evs s)) = true
  ∧ awaiting (run env props evs s) = awaiting s
  ∧ exchange_calls (world (run env props evs s)) = exchange_calls (world s)
  ∧ localStorage (world (run env props evs s)) = localStorage (world s).
Proof.
  intros Hbusy Hevs. revert s Hbusy.
  induction Hevs as [|ev evs Hev _ IH]; intros s Hbusy; [done|].
  rewrite run_cons.
  destruct (step_during_cycle s ev Hbusy Hev) as (Hs & Ha & Hc & Hl).
  destruct (IH _ Hs) as (Hs' & Ha' & Hc' & Hl').
  repeat split; congruence.
Qed.

(** An engine whose flag is set while no call is pending (a cycle that
    hangs in [put] or [purge]) never calls [config.sync] again. *)
Lemma run_wedged evs s :
  syncing (world s) = true → awaiting s = None →
  exchange_calls (world (run env props evs s)) = exchange_calls (world s).
Proof.
  revert s. induction evs as [|ev evs IH]; intros s Hbusy Hnone; [done|].
  rewrite run_cons.
  destruct ev as [|response|reason|type id data|type ids].
  - rewrite step_trigger_busy by done. by apply IH.
  - cbn [step]. unfold settle. rewrite Hnone. by apply IH.
  - cbn [step]. unfold settle. rewrite Hnone. by apply IH.
  - destruct (step_during_cycle s (LocalSet type id data) Hbusy) as (Hs & Ha & Hc & _);
      [by intros []|].
    rewrite IH; [done | done | by rewrite Ha].
  - destruct (step_during_cycle s (LocalDelete type ids) Hbusy) as (Hs & Ha & Hc & _);
      [by intros []|].
    rewrite IH; [done | done | by rewrite Ha].
Qed.

Lemma new_call_needs_trigger evs s :
  exchange_calls (world (run env props evs s)) ≠ exchange_calls (world s) →
  ∃ evs2 evs3, evs = evs2 ++ Trigger :: evs3.
Proof.
  revert s. induction evs as [|ev evs IH]; intros s Hcalls; [done|].
  rewrite run_cons in Hcalls.
  assert (ev = Trigger ∨ ev ≠ Trigger) as [-> | Hev].
  { destruct ev; (by left) || (by right). }
  - by exists [], evs.
  - rewrite <- (step_no_call s ev Hev) in Hcalls.
    destruct (IH _ Hcalls) as (evs2 & evs3 & ->). by exists (ev :: evs2), evs3.
Qed.

Lemma first_settlement evs :
  Forall (λ ev, ¬ is_settlement ev) evs
  ∨ ∃ evs1 ev rest,
      evs = evs1 ++ ev :: rest ∧ is_settlement ev
      ∧ Forall (λ ev, ¬ is_settlement ev) evs1.
Proof.
  induction evs as [|ev evs IH]; [by left|].
  assert (is_settlement ev ∨ ¬ is_settlement ev) as [Hev | Hev].
  { destruct ev; simpl; tauto. }
  - right. by exists [], ev, evs.
  - destruct IH as [IH | (evs1 & ev' & rest & -> & Hev' & Hevs1)].
    + left. by constructor.
    + right. exists (ev :: evs1), ev', rest. repeat split; [done|]. by constructor.
Qed.

End sessions.

(** Run without interruption, a trigger and the settlement of its call are
    [triggerSync] with a server that answers that way. *)
Lemma run_uninterrupted (env : Env) (props : Props) (response : SyncResponse.t)
    (s : Session) :
  awaiting s = None →
  world (run env props [Trigger; SyncResolves response] s)
  = (triggerSync env props (λ _, Resolved response) (world s)).2.
Proof.
  intros Hnone. rewrite triggerSync_split. cbn [run fold_left step].
  destruct (sync_begin env props (world s)) as [[o|args] w'].
  - unfold settle. cbn [awaiting]. by rewrite Hnone.
  - reflexivity.
Qed.

(** The store stays keyed by id through a cycle. *)
Lemma apply_response_keyed (env : Env) (props : Props) (response : SyncResponse.t)
    (w : World) :
  keyed_by_id w → keyed_by_id (apply_response env props response w).2.
Proof.
  intros Hw.
  assert (keyed_by_id (put env (updated_of (SyncResponse.records response)) w).2) as Hput.
  { intros k r Hk.
    destruct (put_lookup env (updated_of (SyncResponse.records response)) w k)
      as [H | (r' & _ & Hid & H)]; rewrite H in Hk; [by apply Hw | congruence]. }
  intros k r Hk.
  destruct (apply_response_db env props response w) as [H | H]; rewrite H in Hk.
  - by apply Hput.
  - destruct (purge_lookup env (deleted_of (SyncResponse.records response))
                (put env (updated_of (SyncResponse.records response)) w).2 k)
      as [H' | [_ H']]; rewrite H' in Hk; [by apply Hput | done].
Qed.

Lemma triggerSync_keyed (env : Env) (props : Props) (sync : Exchange) (w : World) :
  keyed_by_id w → keyed_by_id (triggerSync env props sync w).2.
Proof.
  intros Hw. destruct (syncing w) eqn:Hs; [by rewrite triggerSync_busy|].
  rewrite triggerSync_unfold by done.
  destruct (collect env props (with_syncing true w)).1 as [args|e|]; [|done|done].
  destruct (sync args) as [response|e|]; [|done|done].
  rewrite sync_settle_resolved. unfold try_finally.
  pose proof (apply_response_keyed env props response
                (emit (ExchangeCall args) (with_syncing true w)) Hw) as Hkeyed.
  by destruct (apply_response env props response _) as [[[]|e|] w1].
Qed.

(** C3. At most one cycle at a time. Take an idle engine, a trigger that
    starts a cycle, and the cycle suspended on its call of [config.sync]:
    that call is the one call the cycle makes; any number of further
    triggers leaves the engine exactly as it is (nothing is queued); as long
    as the call has not settled, no interleaving of triggers and local
    writes adds a call; and when a later call does happen, the first call
    has settled before, the flag was released at that point, and a trigger
    arrived after it. *)
Theorem at_most_one_cycle (env : Env) (props : Props) (s0 : Session) (evs : list Event) :
  syncing (world s0) = false →
  awaiting s0 = None →
  awaiting (step env props s0 Trigger) ≠ None →
  let s := step env props s0 Trigger in
  (∃ args, awaiting s = Some args
           ∧ exchange_calls (world s) = exchange_calls (world s0) ++ [args])
  ∧ syncing (world s) = true
  ∧ (∀ n, run env props (replicate n Trigger) s = s)
  ∧ (Forall (λ ev, ¬ is_settlement ev) evs →
     exchange_calls (world (run env props evs s)) = exchange_calls (world s)
     ∧ awaiting (run env props evs s) = awaiting s)
  ∧ (exchange_calls (world (run env props evs s)) ≠ exchange_calls (world s) →
     ∃ evs1 ev evs2 evs3,
       evs = evs1 ++ ev :: evs2 ++ Trigger :: evs3
       ∧ is_settlement ev
       ∧ syncing (world (run env props (evs1 ++ [ev]) s)) = false).
Proof.
  intros Hidle Hnone Hflight. cbn zeta.
  assert ((∃ args, awaiting (step env props s0 Trigger) = Some args
                   ∧ exchange_calls (world (step env props s0 Trigger))
                     = exchange_calls (world s0) ++ [args])
          ∧ syncing (world (step env props s0 Trigger)) = true) as [Hcall Hbusy].
  { revert Hflight. unfold step, sync_begin. rewrite Hidle.
    pose proof (collect_unchanged env props (with_syncing true (world s0))) as Hw.
    destruct (collect env props (with_syncing true (world s0))) as [[args|e|] w1];
      cbn [snd] in Hw; subst w1; cbn [awaiting world]; try done.
    intros _. split; [|done]. exists args. split; [done|].
    unfold exchange_calls. simpl. by rewrite omap_app. }
  set (s := step env props s0 Trigger) in *.
  split; [exact Hcall|]. split; [exact Hbusy|]. split; [|split].
  - induction n as [|n IH]; [done|].
    cbn [replicate]. rewrite run_cons, step_trigger_busy by done. exact IH.
  - intros Hevs.
    destruct (run_during_cycle env props evs s Hbusy Hevs) as (_ & Ha & Hc & _).
    by split.
  - intros Hnew.
    destruct (first_settlement evs) as [Hevs | (evs1 & ev & rest & -> & Hev & Hevs1)].
    { by destruct (run_during_cycle env props evs s Hbusy Hevs) as (_ & _ & Hc & _). }
    destruct (run_during_cycle env props evs1 s Hbusy Hevs1) as (Hs1 & Ha1 & Hc1 & _).
    rewrite run_app, run_cons in Hnew.
    set (s1 := run env props evs1 s) in *.
    assert (exchange_calls (world (step env props s1 ev)) = exchange_calls (world s)
            ∧ awaiting (step env props s1 ev) = None) as [Hc2 Ha2].
    { destruct ev as [|response|reason|type id data|type ids]; try by destruct Hev.
      - cbn [step]. by rewrite settle_no_call, settle_awaiting.
      - cbn [step]. by rewrite settle_no_call, settle_awaiting. }
    destruct (syncing (world (step env props s1 ev))) eqn:Hs2.
    { destruct Hnew. by rewrite run_wedged. }
    rewrite <- Hc2 in Hnew.
    destruct (new_call_needs_trigger env props rest _ Hnew) as (evs2 & evs3 & ->).
    exists evs1, ev, evs2, evs3. split; [done|]. split; [done|].
    by rewrite run_app.
Qed.

(** ** A failing exchange *)

Lemma keeps_unsynced_refl w : keeps_unsynced w w.
Proof. intros id r Hr Hu. by exists r. Qed.

Lemma keeps_unsynced_trans w1 w2 w3 :
  keeps_unsynced w1 w2 → keeps_unsynced w2 w3 → keeps_unsynced w1 w3.
Proof.
  intros H12 H23 id r Hr Hu.
  destruct (H12 id r Hr Hu) as (r' & Hr' & Hu'). by apply (H23 id r').
Qed.

Lemma keeps_unsynced_same_db w w' : db w' = db w → keeps_unsynced w w'.
Proof. intros Hdb id r Hr Hu. exists r. by rewrite Hdb. Qed.

Section failing_exchange.
Context (env : Env) (props : Props).

Lemma set_keeps_unsynced type id data w :
  keeps_unsynced w (set env type id data w).2.
Proof.
  intros k r Hr Hu.
  destruct (set_lookup env type id data w k) as [H | (_ & copy & _ & H)]; rewrite H.
  - by exists r.
  - by eexists.
Qed.

Lemma softDelete_keeps_unsynced type ids w :
  keeps_unsynced w (softDelete env type ids w).2.
Proof.
  intros k r Hr Hu.
  destruct (softDelete_lookup env type ids w k) as [H | [_ H]]; rewrite H.
  - by exists r.
  - by eexists.
Qed.

Lemma run_keeps_unsynced evs s :
  syncing (world s) = true → Forall (λ ev, ¬ is_settlement ev) evs →
  keeps_unsynced (world s) (world (run env props evs s)).
Proof.
  intros Hbusy Hevs. revert s Hbusy.
  induction Hevs as [|ev evs Hev _ IH]; intros s Hbusy; [apply keeps_unsynced_refl|].
  rewrite run_cons.
  destruct (step_during_cycle env props s ev Hbusy Hev) as (Hs & _).
  eapply keeps_unsynced_trans; [|by apply IH].
  destruct ev as [|response|reason|type id data|type ids]; try by destruct Hev.
  - rewrite step_trigger_busy by done. apply keeps_unsynced_refl.
  - apply set_keeps_unsynced.
  - apply softDelete_keeps_unsynced.
Qed.

End failing_exchange.

(** C2. A failing exchange. When the call of [config.sync] rejects (or
    throws), the cycle issues no put and no delete request and no write to
    [localStorage]: the only effect it adds is the call itself; the rows,
    the unsynced ones among them, and the stored cursor are as before, the
    flag is back to [false], and the caller of [triggerSync] gets the
    rejection. The same holds when triggers and writes through the public
    API arrive while the call is pending: the rejection only resets the
    flag, the cursor is the old one, and every row that was unsynced when the
    cycle started is still unsynced. *)
Theorem exchange_failure_aborts (env : Env) (props : Props) (sync : Exchange)
    (args : list JS.value) (e : string) (w : World) (evs : list Event) :
  syncing w = false →
  (collect env props (with_syncing true w)).1 = Resolved args →
  sync args = Rejected e →
  let w' := (triggerSync env props sync w).2 in
  (triggerSync env props sync w).1 = Rejected e
  ∧ trace w' = trace w ++ [ExchangeCall args]
  ∧ db w' = db w
  ∧ localStorage w' = localStorage w
  ∧ syncing w' = false
  ∧ keeps_unsynced w w'
  ∧ (Forall (λ ev, ¬ is_settlement ev) evs →
     let pending := run env props evs (step env props {| world := w; awaiting := None |} Trigger) in
     let after := step env props pending (SyncRejects e) in
     awaiting pending = Some args
     ∧ world after = with_syncing false (world pending)
     ∧ localStorage (world after) = localStorage w
     ∧ syncing (world after) = false
     ∧ keeps_unsynced w (world after)).
Proof.
  intros Hidle Hcollect Hsync. cbn zeta.
  rewrite triggerSync_unfold by done. rewrite Hcollect, Hsync, sync_settle_rejected.
  cbn [fst snd]. repeat (split; [done|]).
  split; [by apply keeps_unsynced_same_db|].
  intros Hevs.
  set (s := step env props {| world := w; awaiting := None |} Trigger).
  assert (world s = emit (ExchangeCall args) (with_syncing true w)
          ∧ awaiting s = Some args) as [Hworld Hawait].
  { unfold s, step, sync_begin. cbn [world]. rewrite Hidle.
    pose proof (collect_unchanged env props (with_syncing true w)) as Hw.
    destruct (collect env props (with_syncing true w)) as [o w1].
    cbn [fst snd] in *. by subst o w1. }
  assert (syncing (world s) = true) as Hbusy by (by rewrite Hworld).
  destruct (run_during_cycle env props evs s Hbusy Hevs) as (Hs & Ha & _ & Hl).
  pose proof (run_keeps_unsynced env props evs s Hbusy Hevs) as Hkeep.
  rewrite Hawait in Ha. split; [exact Ha|].
  cbn [step]. unfold settle. rewrite Ha, sync_settle_rejected. cbn [world snd].
  split; [done|]. unfold with_syncing at 1 2 3. cbn [localStorage syncing].
  split; [by rewrite Hl, Hworld|]. split; [done|].
  eapply keeps_unsynced_trans; [|eapply keeps_unsynced_trans; [exact Hkeep|]].
  - apply keeps_unsynced_same_db. by rewrite Hworld.
  - by apply keeps_unsynced_same_db.
Qed.

(** ** How failures travel *)

Lemma Promise_all_rejects {A} (ps : list (outcome A)) (e : string) :
  Rejected e ∈ ps → ∃ e', Promise_all ps = Rejected e'.
Proof.
  induction ps as [|p ps IH]; intros Hin; [by apply elem_of_nil in Hin|].
  apply elem_of_cons in Hin as [<- | Hin].
  - by exists e.
  - destruct (IH Hin) as (e' & He'). simpl. rewrite He'.
    destruct p as [a|e0|]; by eexists.
Qed.

Lemma start_all_outcomes {A B} (f : A → Task B) (g : A → outcome B) xs w :
  (∀ x w, (f x w).1 = g x) → (start_all f xs w).1 = map g xs.
Proof.
  intros Hf. revert w. induction xs as [|x xs IH]; intros w; [done|].
  cbn [start_all]. specialize (Hf x w).
  destruct (f x w) as [o w1]. specialize (IH w1).
  destruct (start_all f xs w1) as [os w2]. cbn [fst] in *. by rewrite Hf, IH.
Qed.

Section failures.
Context (env : Env).

Lemma put_record_outcome_eq r w : (put_record env r w).1 = put_record_outcome env r.
Proof.
  unfold put_record, put_record_outcome, new_Promise_async, bind, await, request.
  destruct (callHooks env beforeSave (Some r)); try done.
  destruct (JS.cloneable (IdbRecord.data r)); [|done].
  by destruct (idb_error env (OpPut (IdbRecord.id r))).
Qed.

(** How [put] ends: on the failure to open the database, else on the
    writes, else on the closing [notify] of the types. *)
Lemma put_outcome records w :
  records ≠ [] →
  (put env records w).1 =
    match idb_error env OpOpen with
    | Some e => Rejected ("error when opening the database: " ++ e)
    | None =>
        match Promise_all (map (put_record_outcome env) records) with
        | Resolved _ =>
            (notify_each (new_Set (map IdbRecord.type records))
                         (start_all (put_record env) records w).2).1
        | Rejected e => Rejected e
        | Pending => Pending
        end
    end.
Proof.
  intros Hne. rewrite put_unfold by done.
  destruct (idb_error env OpOpen); [done|].
  rewrite (start_all_outcomes _ (put_record_outcome env) _ _ put_record_outcome_eq).
  by destruct (Promise_all _).
Qed.





(** A rejecting hook does not reject [put]: the hook is awaited inside an
    async Promise executor, so the promise of that record never settles. *)
Lemma put_pending_on_rejecting_hook r e w :
  idb_error env OpOpen = None →
  callHooks env beforeSave (Some r) = Rejected e →
  (put env [r] w).1 = Pending.
Proof.
  intros Hopen Hhook. rewrite put_outcome, Hopen by done.
  cbn [map Promise_all]. unfold put_record_outcome. by rewrite Hhook.
Qed.

(** Nor does a record that cannot be cloned: [objectStore.put] throws inside
    the same executor. *)
Lemma put_pending_on_clone_error r w :
  idb_error env OpOpen = None →
  JS.cloneable (IdbRecord.data r) = false →
  (put env [r] w).1 = Pending.
Proof.
  intros Hopen Hclone. rewrite put_outcome, Hopen by done.
  cbn [map Promise_all]. unfold put_record_outcome. rewrite Hclone.
  by destruct (callHooks env beforeSave (Some r)).
Qed.


End failures.

Section sync_failures.
Context (env : Env) (props : Props).






End sync_failures.

(** *** What never settles *)

Lemma Promise_all_rejected_elem {A} (ps : list (outcome A)) (e : string) :
  Promise_all ps = Rejected e → Rejected e ∈ ps.
Proof.
  induction ps as [|p ps IH]; simpl; [done|].
  destruct p as [a|e'|]; destruct (Promise_all ps) as [l'|e''|]; intros H;
    try discriminate; injection H as <-;
    first [ by apply list_elem_of_here | apply list_elem_of_further; by apply IH ].
Qed.

Lemma Promise_all_pending {A} (ps : list (outcome A)) :
  (∀ e, Rejected e ∉ ps) → Pending ∈ ps → Promise_all ps = Pending.
Proof.
  intros Hnr Hp. destruct (Promise_all ps) as [l|e|] eqn:Hps; [| |done].
  - apply Promise_all_resolved_inv in Hps. rewrite Hps in Hp.
    apply list_elem_of_fmap in Hp as (x & Hx & _). discriminate.
  - apply Promise_all_rejected_elem in Hps. by destruct (Hnr e).
Qed.

Section never_settles.
Context (env : Env) (props : Props).



End never_settles.




(** ** The shape of the call of [config.sync] *)

Lemma collect_shape env props w args :
  (collect env props w).1 = Resolved args →
  ∃ unsynced slot, args = sync_arguments props unsynced (or_undefined (item_value slot)).
Proof.
  intros ->%collect_resolved. unfold cycle_arguments. eauto.
Qed.

Lemma triggerSync_calls_any env props sync w :
  syncing w = false →
  exchange_calls (triggerSync env props sync w).2
  = exchange_calls w
    ++ match (collect env props (with_syncing true w)).1 with
       | Resolved args => [args]
       | _ => []
       end.
Proof.
  intros Hidle. rewrite triggerSync_unfold by done.
  destruct (collect env props (with_syncing true w)).1 as [args|e|].
  - rewrite sync_settle_no_new_call. unfold exchange_calls. simpl. by rewrite omap_app.
  - by rewrite app_nil_r.
  - by rewrite app_nil_r.
Qed.

(** C8, as the code has it. A cycle calls [config.sync] with exactly one
    argument, the object [{ records, namespace, syncCursor }]: with a
    storage that raises no error the calls grow by that one-element
    argument list, and whatever the storage does, every call a cycle adds
    has this shape. *)
Theorem sync_call_single_object (env : Env) (props : Props) (sync : Exchange) (w : World) :
  syncing w = false →
  (quiet env →
   exchange_calls (triggerSync env props sync w).2
   = exchange_calls w
     ++ [[JS.VObj [("records", records_argument w);
                   ("namespace", JS.VStr (namespace props));
                   ("syncCursor", cursor_argument props w)]]])
  ∧ (∀ args, args ∈ exchange_calls (triggerSync env props sync w).2 →
       args ∈ exchange_calls w
       ∨ ∃ unsynced syncCursor,
           args = [JS.VObj [("records", JS.VArr (map unsynced_to_js unsynced));
                            ("namespace", JS.VStr (namespace props));
                            ("syncCursor", optional_string syncCursor)]]).
Proof.
  intros Hidle. split.
  - intros Hquiet. by rewrite (triggerSync_calls env props sync w Hquiet Hidle).
  - intros args. rewrite triggerSync_calls_any by done.
    rewrite elem_of_app. intros [Hold | Hnew]; [by left | right].
    destruct (collect env props (with_syncing true w)).1 as [args'|e|] eqn:Hcollect;
      try by apply elem_of_nil in Hnew.
    apply list_elem_of_singleton in Hnew. subst args'.
    apply collect_shape in Hcollect as (unsynced & slot & ->).
    exists unsynced, (match slot with None | Some "" => None | Some value => Some value end).
    unfold sync_arguments. rewrite or_undefined_item. by destruct slot as [[|]|].
Qed.

(** C8, as the specification words it, fails: the call is not the
    three-argument call of the declared signature. *)
Lemma sync_call_not_positional :
  ¬ (exchange_calls (triggerSync todo_env todo_props todo_echo todo_world).2
     = exchange_calls todo_world ++ [declared_arguments todo_props todo_world])
  ∧ ∃ args, last (exchange_calls (triggerSync todo_env todo_props todo_echo todo_world).2)
            = Some args
            ∧ length args = 1.
Proof.
  split; [by vm_compute | eexists; split; [by vm_compute | reflexivity]].
Qed.

Lemma sync_call_single_object_witness :
  exchange_calls (triggerSync todo_env todo_props todo_echo todo_world).2
  = exchange_calls todo_world
    ++ [[JS.VObj [("records", records_argument todo_world);
                  ("namespace", JS.VStr "");
                  ("syncCursor", JS.VUndefined)]]].
Proof.
  destruct (sync_call_single_object todo_env todo_props todo_echo todo_world)
    as (Hcall & _); [reflexivity|].
  apply Hcall, todo_env_quiet.
Defined.

Lemma exchange_failure_aborts_witness :
  let w' := (triggerSync todo_env todo_props todo_offline todo_world).2 in
  let evs := [Trigger; LocalSet "todo" "2" todo_data; LocalDelete "todo" ["1"]; Trigger] in
  let pending :=
    run todo_env todo_props evs
        (step todo_env todo_props {| world := todo_world; awaiting := None |} Trigger) in
  let after := step todo_env todo_props pending (SyncRejects "offline") in
  (triggerSync todo_env todo_props todo_offline todo_world).1 = Rejected "offline"
  ∧ trace w' = trace todo_world ++ [ExchangeCall (cycle_arguments todo_props todo_world)]
  ∧ db w' = db todo_world
  ∧ localStorage w' = localStorage todo_world
  ∧ syncing w' = false
  ∧ keeps_unsynced todo_world w'
  ∧ awaiting pending = Some (cycle_arguments todo_props todo_world)
  ∧ world after = with_syncing false (world pending)
  ∧ localStorage (world after) = localStorage todo_world
  ∧ syncing (world after) = false
  ∧ keeps_unsynced todo_world (world after).
Proof.
  cbn zeta.
  destruct (exchange_failure_aborts todo_env todo_props todo_offline
              (cycle_arguments todo_props todo_world) "offline" todo_world
              [Trigger; LocalSet "todo" "2" todo_data; LocalDelete "todo" ["1"]; Trigger])
    as (H1 & H2 & H3 & H4 & H5 & H6 & H7); [reflexivity | reflexivity | reflexivity |].
  destruct H7 as (H7 & H8 & H9 & H10 & H11).
  { repeat constructor; by intros []. }
  exact (conj H1 (conj H2 (conj H3 (conj H4 (conj H5 (conj H6
           (conj H7 (conj H8 (conj H9 (conj H10 H11)))))))))).
Defined.

Lemma at_most_one_cycle_witness :
  let s := step todo_env todo_props todo_session Trigger in
  let writes := [Trigger; LocalSet "todo" "2" todo_data; Trigger; Trigger] in
  let later := [Trigger;
                SyncResolves (SyncResponse.mk [] None);
                LocalSet "todo" "2" todo_data;
                Trigger] in
  length (exchange_calls (world s)) = 1
  ∧ syncing (world s) = true
  ∧ run todo_env todo_props (replicate 5 Trigger) s = s
  ∧ exchange_calls (world (run todo_env todo_props writes s)) = exchange_calls (world s)
  ∧ length (exchange_calls (world (run todo_env todo_props later s))) = 2
  ∧ ∃ evs1 ev evs2 evs3,
      later = evs1 ++ ev :: evs2 ++ Trigger :: evs3
      ∧ is_settlement ev
      ∧ syncing (world (run todo_env todo_props (evs1 ++ [ev]) s)) = false.
Proof.
  cbn zeta.
  destruct (at_most_one_cycle todo_env todo_props todo_session
              [Trigger; LocalSet "todo" "2" todo_data; Trigger; Trigger])
    as ((args & _ & Hcall) & Hbusy & Hdrop & Hwrites & _);
    [reflexivity | reflexivity | discriminate |].
  destruct (at_most_one_cycle todo_env todo_props todo_session
              [Trigger; SyncResolves (SyncResponse.mk [] None);
               LocalSet "todo" "2" todo_data; Trigger])
    as (_ & _ & _ & _ & Hlater);
    [reflexivity | reflexivity | discriminate |].
  split; [by rewrite Hcall|]. split; [exact Hbusy|]. split; [apply Hdrop|].
  split; [apply Hwrites; repeat constructor; by intros []|].
  split; [by vm_compute|].
  apply Hlater. by vm_compute.
Defined.

Lemma cursor_persistence_witness :
  let w1 := (triggerSync todo_env todo_props todo_first todo_world).2 in
  let w2 := (triggerSync todo_env todo_props todo_second w1).2 in
  let w3 := (triggerSync todo_env todo_props todo_offline w2).2 in
  (triggerSync todo_env todo_props todo_first todo_world).1 = Resolved tt
  ∧ (triggerSync todo_env todo_props todo_second w1).1 = Resolved tt
  ∧ exchange_calls w3
    = exchange_calls todo_world
      ++ [cycle_arguments todo_props todo_world;
          cycle_arguments todo_props w1;
          cycle_arguments todo_props w2]
  ∧ (localStorage_getItem todo_env (cursorKey todo_props) todo_world).1 = Resolved JS.VNull
  ∧ cursor_argument todo_props todo_world = JS.VUndefined
  ∧ localStorage w1 !! cursorKey todo_props = Some "C1"
  ∧ cursor_argument todo_props w1 = JS.VStr "C1"
  ∧ localStorage w2 !! cursorKey todo_props = None
  ∧ (localStorage_getItem todo_env (cursorKey todo_props) w2).1 = Resolved JS.VNull
  ∧ cursor_argument todo_props w2 = JS.VUndefined.
Proof.
  apply (cursor_persistence todo_env todo_props todo_first todo_second todo_offline
           (SyncResponse.mk [] (Some "C1")) (SyncResponse.mk [] None) "C1" todo_world).
  - exact todo_env_quiet.
  - reflexivity.
  - reflexivity.
  - discriminate.
  - reflexivity.
  - constructor.
  - split; [constructor | intros ?? Hin; by apply elem_of_nil in Hin].
  - reflexivity.
  - reflexivity.
  - constructor.
  - split; [constructor | intros ?? Hin; by apply elem_of_nil in Hin].
  - reflexivity.
Defined.

(** ** Subscribers registered in the same millisecond *)

Lemma elem_of_subscribers_values {Callback : Type} (subscribers : gmap string Callback)
    (callback : Callback) :
  callback ∈ subscribers_values subscribers ↔ ∃ k, subscribers !! k = Some callback.
Proof.
  unfold subscribers_values. rewrite list_elem_of_fmap. split.
  - intros ([k c] & -> & Hin). exists k. by apply elem_of_map_to_list.
  - intros (k & Hk). exists (k, callback). split; [done|]. by apply elem_of_map_to_list.
Qed.

(** Registrations at different clock values do not meet. *)
Lemma distinct_millisecond_subscribers {Callback : Type} (t1 t2 : Z)
    (first second : Callback) (subscribers : gmap string Callback) :
  t1 ≠ t2 →
  let r1 := listenToUnsyncedChanges t1 first subscribers in
  let r2 := listenToUnsyncedChanges t2 second r1.2 in
  r1.1 ≠ r2.1 ∧ r2.2 !! r1.1 = Some first ∧ r2.2 !! r2.1 = Some second.
Proof.
  intros Hne. cbn. assert (pretty t1 ≠ pretty t2) as Hkeys.
  { intros Heq. by apply (inj pretty) in Heq. }
  split; [done|]. split.
  - rewrite lookup_insert_ne by done. apply lookup_insert_eq.
  - apply lookup_insert_eq.
Qed.

(** C10. Two registrations made at the same clock value share one key:
    both handles are that key; the map after the second registration is the
    map the second registration alone would have produced, so it holds the
    second callback under the key and the first registration has left no
    trace; the first callback is run by a notification only if it equals the
    second or was already subscribed under another key; and either handle,
    when called, removes the one entry, so that the second caller's
    subscription is gone after the first caller unsubscribes. *)
Theorem same_millisecond_subscribers {Callback : Type} (now : Z) (first second : Callback)
    (subscribers : gmap string Callback) :
  let r1 := listenToUnsyncedChanges now first subscribers in
  let r2 := listenToUnsyncedChanges now second r1.2 in
  r1.1 = r2.1
  ∧ r2.2 !! r2.1 = Some second
  ∧ r2.2 = (listenToUnsyncedChanges now second subscribers).2
  ∧ (first ∈ subscribers_values r2.2 →
     first = second ∨ ∃ k, k ≠ r1.1 ∧ subscribers !! k = Some first)
  ∧ unsubscribe r1.1 r2.2 = unsubscribe r2.1 r2.2
  ∧ unsubscribe r1.1 r2.2 !! r2.1 = None
  ∧ (second ∈ subscribers_values (unsubscribe r1.1 r2.2) →
     ∃ k, k ≠ r2.1 ∧ subscribers !! k = Some second).
Proof.
  cbn. split; [done|]. split; [apply lookup_insert_eq|].
  split; [apply insert_insert_eq|]. split; [|split; [done|split]].
  - intros Hin. apply elem_of_subscribers_values in Hin as (k & Hk).
    rewrite insert_insert_eq in Hk.
    destruct (decide (k = pretty now)) as [-> | Hne].
    + rewrite lookup_insert_eq in Hk. left. by injection Hk.
    + rewrite lookup_insert_ne in Hk by done. right. by exists k.
  - apply lookup_delete_eq.
  - intros Hin. apply elem_of_subscribers_values in Hin as (k & Hk).
    unfold unsubscribe in Hk.
    destruct (decide (k = pretty now)) as [-> | Hne].
    + by rewrite lookup_delete_eq in Hk.
    + rewrite lookup_delete_ne, !lookup_insert_ne in Hk by done. by exists k.
Qed.

Lemma same_millisecond_subscribers_witness :
  let r1 := listenToUnsyncedChanges 1700000000000 "mount" (∅ : gmap string string) in
  let r2 := listenToUnsyncedChanges 1700000000000 "remount" r1.2 in
  r1.1 = r2.1
  ∧ r2.2 !! "1700000000000" = Some "remount"
  ∧ r2.2 = {["1700000000000" := "remount"]}
  ∧ unsubscribe r1.1 r2.2 !! "1700000000000" = None.
Proof.
  cbn zeta.
  destruct (same_millisecond_subscribers 1700000000000 "mount" "remount"
              (∅ : gmap string string))
    as (Hkey & Hsecond & Hmap & _ & _ & Hgone & _).
  split; [exact Hkey|]. split; [exact Hsecond|]. split; [exact Hmap|]. exact Hgone.
Defined.

(** * Further properties *)

(** ** The JSON round trip of [set] *)

Lemma serialize_omitted_iff v :
  JS.serialize v = JS.Omitted ↔ not_representable v = true.
Proof.
  split; [|apply serialize_omitted].
  destruct v as [| |b|n| |s|n| | |iso|items|props]; try done.
  - by destruct iso.
  - rewrite serialize_VArr. by destruct (serialize_elements items).
  - rewrite serialize_VObj. by destruct (serialize_members props).
Qed.

(** [JSON.stringify] throws exactly on a BigInt somewhere inside. *)
Lemma serialize_throws_iff v :
  JS.serialize v = JS.Throws ↔ has_bigint v = true.
Proof.
  induction v as [| |b|n| |s|n| | |iso|items IH|props IH] using value_induction;
    try done.
  - by destruct iso.
  - rewrite serialize_VArr. cbn [has_bigint].
    assert (serialize_elements items = None ↔ existsb has_bigint items = true) as Hl.
    { induction IH as [|x l Hx _ IHl]; [done|].
      rewrite serialize_elements_cons. cbn [existsb]. rewrite orb_true_iff.
      rewrite <- Hx, <- IHl.
      destruct (JS.serialize x); destruct (serialize_elements l);
        (split; [intros H; try discriminate; (by left) || (by right)
                | intros [H|H]; try discriminate; done]). }
    rewrite <- Hl. by destruct (serialize_elements items).
  - rewrite serialize_VObj. cbn [has_bigint].
    assert (serialize_members props = None
            ↔ existsb (λ p, has_bigint p.2) props = true) as Hl.
    { induction IH as [|[k x] l Hx _ IHl]; [done|].
      rewrite serialize_members_cons. cbn [existsb snd] in *. rewrite orb_true_iff.
      rewrite <- Hx, <- IHl.
      destruct (JS.serialize x); destruct (serialize_members l);
        (split; [intros H; try discriminate; (by left) || (by right)
                | intros [H|H]; try discriminate; done]). }
    rewrite <- Hl. by destruct (serialize_members props).
Qed.

(** X1. What [set] stores is JSON: after a resolved [set(id, data)] the
    payload of the row, which is what [get(id)] hands out, is made of null,
    booleans, numbers, strings, arrays and objects only. *)
Theorem set_stores_json (env : Env) (type id : string) (data : JS.value) (w w' : World) :
  set env type id data w = (Resolved tt, w') →
  ∃ r, db w' !! id = Some r ∧ is_json (IdbRecord.data r) = true.
Proof.
  intros Hset. destruct (set_resolved env type id data w w' Hset) as (copy & Hjson & Hrow).
  eexists. split; [exact Hrow|]. cbn [IdbRecord.data].
  unfold JS.json_roundtrip in Hjson.
  destruct (JS.serialize data) as [| |c] eqn:Hser; try discriminate.
  injection Hjson as <-. by eapply serialize_is_json.
Qed.

Lemma set_stores_json_witness :
  ∃ r, db (set todo_env "todo" "9"
             (JS.VObj [("due", JS.VDate (Some "2026-01-01T00:00:00.000Z"));
                       ("tags", JS.VArr [JS.VStr "a"; JS.VUndefined; JS.VNonFinite])])
             empty_world).2 !! "9" = Some r
       ∧ is_json (IdbRecord.data r) = true.
Proof.
  apply (set_stores_json todo_env "todo" "9"
           (JS.VObj [("due", JS.VDate (Some "2026-01-01T00:00:00.000Z"));
                     ("tags", JS.VArr [JS.VStr "a"; JS.VUndefined; JS.VNonFinite])])
           empty_world).
  reflexivity.
Defined.

(** X2. The round trip of [set] is idempotent: a JSON value passes through
    [JSON.parse(JSON.stringify(...))] unchanged, so the copy [set] stores is
    a fixed point, and writing back what was read stores the same payload. *)
Theorem json_roundtrip_idempotent (v copy : JS.value) :
  (is_json v = true → JS.json_roundtrip v = Some v)
  ∧ (JS.json_roundtrip v = Some copy → JS.json_roundtrip copy = Some copy).
Proof.
  assert (∀ u, is_json u = true → JS.json_roundtrip u = Some u) as Hfixed.
  { intros u Hu. unfold JS.json_roundtrip. by rewrite serialize_json_fixed. }
  split; [apply Hfixed|].
  unfold JS.json_roundtrip at 1.
  destruct (JS.serialize v) as [| |c] eqn:Hser; try discriminate.
  intros [= <-]. apply Hfixed. by eapply serialize_is_json.
Qed.

Lemma json_roundtrip_idempotent_witness :
  JS.json_roundtrip (JS.VArr [JS.VNull; JS.VObj [("n", JS.VNum 1)]])
  = Some (JS.VArr [JS.VNull; JS.VObj [("n", JS.VNum 1)]]).
Proof.
  destruct (json_roundtrip_idempotent
              (JS.VArr [JS.VUndefined; JS.VObj [("n", JS.VNum 1); ("f", JS.VFunction)]])
              (JS.VArr [JS.VNull; JS.VObj [("n", JS.VNum 1)]])) as [_ Hcopy].
  by apply Hcopy.
Defined.

(** X3. When [set] fails on its data. [JSON.parse(JSON.stringify(data))]
    throws exactly when [data] itself is [undefined], a symbol or a
    function (nothing to parse), or holds a BigInt anywhere inside; [set]
    then rejects before any request is issued: the store, the trace and the
    notifier are untouched. *)
Theorem set_rejects_unserializable (env : Env) (type id : string) (data : JS.value)
    (w : World) :
  (JS.json_roundtrip data = None
   ↔ not_representable data = true ∨ has_bigint data = true)
  ∧ (not_representable data = true ∨ has_bigint data = true →
     ∃ e, set env type id data w = (Rejected e, w)).
Proof.
  assert (JS.json_roundtrip data = None
          ↔ not_representable data = true ∨ has_bigint data = true) as Hiff.
  { rewrite <- serialize_omitted_iff, <- serialize_throws_iff.
    unfold JS.json_roundtrip. destruct (JS.serialize data); split; try done.
    - by right.
    - by left.
    - by intros [?|?]. }
  split; [exact Hiff|]. intros Hbad. apply Hiff in Hbad.
  rewrite set_unfold, Hbad. by eexists.
Qed.

Lemma set_rejects_unserializable_witness :
  ∃ e, set todo_env "todo" "1" (JS.VObj [("big", JS.VArr [JS.VBigInt 7])]) todo_world
       = (Rejected e, todo_world).
Proof.
  destruct (set_rejects_unserializable todo_env "todo" "1"
              (JS.VObj [("big", JS.VArr [JS.VBigInt 7])]) todo_world) as [_ Hrej].
  apply Hrej. by right.
Defined.

(** ** Batches of writes *)

Section batches_of_writes.
Context (env : Env).

Lemma put_record_resolved_db r w b w' :
  put_record env r w = (Resolved b, w') → db w' = <[IdbRecord.id r := r]> (db w).
Proof.
  unfold put_record, new_Promise_async, bind, await, request.
  destruct (callHooks env beforeSave (Some r)); try discriminate.
  destruct (JS.cloneable (IdbRecord.data r)); [|discriminate].
  destruct (idb_error env (OpPut (IdbRecord.id r))); simpl; [discriminate|].
  by intros [= _ <-].
Qed.

Lemma latest_write_cons k r rs :
  latest_write k (r :: rs) =
  match latest_write k rs with
  | Some r' => Some r'
  | None => if decide (IdbRecord.id r = k) then Some r else None
  end.
Proof.
  unfold latest_write. rewrite filter_cons.
  destruct (decide (IdbRecord.id r = k)); [|by destruct (last _)].
  rewrite last_cons. by destruct (last _).
Qed.

Lemma start_all_put_latest records w bs k :
  (start_all (put_record env) records w).1 = map Resolved bs →
  db (start_all (put_record env) records w).2 !! k
  = match latest_write k records with
    | Some r => Some r
    | None => db w !! k
    end.
Proof.
  revert w bs. induction records as [|r rs IH]; intros w bs Hos; [done|].
  cbn [start_all] in *. destruct (put_record env r w) as [o w1] eqn:Hr.
  specialize (IH w1). destruct (start_all (put_record env) rs w1) as [os w2].
  cbn [fst snd] in *. destruct bs as [|b bs]; [discriminate|].
  injection Hos as -> Hos. rewrite (IH bs Hos), latest_write_cons.
  destruct (latest_write k rs); [done|].
  rewrite (put_record_resolved_db r w b w1 Hr).
  destruct (decide (IdbRecord.id r = k)) as [<-|Hne].
  - apply lookup_insert_eq.
  - by apply lookup_insert_ne.
Qed.

(** After a resolved [put], each key holds the last record of the batch
    with that id, or what it held before. *)
Lemma put_resolved_latest records w w' k :
  put env records w = (Resolved tt, w') →
  db w' !! k = match latest_write k records with
               | Some r => Some r
               | None => db w !! k
               end.
Proof.
  intros H. destruct records as [|r0 rs] eqn:Hrec.
  { by injection H as <-. }
  rewrite <- Hrec in *. rewrite put_unfold in H by (by subst).
  destruct (idb_error env OpOpen); [discriminate|].
  destruct (Promise_all (start_all (put_record env) records w).1) as [bs| |] eqn:Hall;
    try discriminate.
  pose proof (notify_each_db (new_Set (map IdbRecord.type records))
                (start_all (put_record env) records w).2) as Hdb.
  rewrite H in Hdb. cbn [snd] in Hdb. rewrite Hdb.
  apply Promise_all_resolved_inv in Hall. by eapply start_all_put_latest.
Qed.

Lemma start_all_put_written records r w :
  r ∈ records → put_record_outcome env r = Resolved tt →
  ∃ r', r' ∈ records
        ∧ writes_record r' (IdbRecord.id r)
            (db (start_all (put_record env) records w).2 !! IdbRecord.id r).
Proof.
  intros Hin Hok. revert w. induction records as [|y rs IH]; intros w.
  { by apply elem_of_nil in Hin. }
  cbn [start_all]. destruct (put_record env y w) as [o w1] eqn:Hy.
  pose proof (start_all_lookup (put_record env) writes_record (put_record_lookup env)
                rs w1 (IdbRecord.id r)) as Hrest.
  apply elem_of_cons in Hin as [-> | Hin].
  - destruct (start_all (put_record env) rs w1) as [os w2]. cbn [snd] in *.
    destruct Hrest as [Heq | (x & Hx & HQ)].
    + exists y. split; [apply list_elem_of_here|]. rewrite Heq.
      pose proof (put_record_outcome_eq env y w) as Ho. rewrite Hy, Hok in Ho.
      cbn [fst] in Ho. subst o. by eapply put_record_resolved.
    + exists x. split; [by apply list_elem_of_further | done].
  - destruct (IH Hin w1) as (x & Hx & HQ).
    destruct (start_all (put_record env) rs w1) as [os w2]. cbn [snd] in *.
    exists x. split; [by apply list_elem_of_further | done].
Qed.

Lemma purge_resolved_rows ids w w' k :
  purge env ids w = (Resolved tt, w') →
  db w' !! k = if decide (k ∈ ids) then None else db w !! k.
Proof.
  intros H. destruct (decide (k ∈ ids)) as [Hin | Hout].
  - by eapply purge_resolved.
  - destruct (purge_lookup env ids w k) as [Hk | [Hin _]]; [|done].
    by rewrite H in Hk.
Qed.

End batches_of_writes.

(** X4. No rollback in [put]: when the database opens, a record of the
    batch whose hooks resolve and whose put request succeeds is in the
    store afterwards (it, or a later record of the batch with the same id),
    also when [put] as a whole rejects or never settles because of another
    record. *)
Theorem put_keeps_successful_writes (env : Env) (records : list IdbRecord.t)
    (r : IdbRecord.t) (w : World) :
  r ∈ records →
  idb_error env OpOpen = None →
  put_record_outcome env r = Resolved tt →
  ∃ r', r' ∈ records ∧ IdbRecord.id r' = IdbRecord.id r
        ∧ db (put env records w).2 !! IdbRecord.id r = Some r'.
Proof.
  intros Hin Hopen Hok.
  assert (records ≠ []) as Hne by (intros ->; by apply elem_of_nil in Hin).
  rewrite put_db, Hopen.
  destruct (start_all_put_written env records r w Hin Hok) as (r' & Hr' & Hid & Hrow).
  by exists r'.
Qed.

Lemma put_keeps_successful_writes_witness :
  let good := IdbRecord.mk "good" "todo" None None todo_data in
  let bad := IdbRecord.mk "bad" "todo" None None todo_data in
  (put bad_put_env [good; bad] empty_world).1
  = Rejected "error when updating data: QuotaExceededError"
  ∧ ∃ r', r' ∈ [good; bad] ∧ IdbRecord.id r' = "good"
          ∧ db (put bad_put_env [good; bad] empty_world).2 !! "good" = Some r'.
Proof.
  cbn zeta. split; [reflexivity|].
  apply (put_keeps_successful_writes bad_put_env
           [IdbRecord.mk "good" "todo" None None todo_data;
            IdbRecord.mk "bad" "todo" None None todo_data]
           (IdbRecord.mk "good" "todo" None None todo_data) empty_world).
  - apply list_elem_of_here.
  - reflexivity.
  - reflexivity.
Defined.

(** X5. What [purge] removes: after a resolved [purge(ids)] the rows under
    the listed ids are gone, whether they existed or not, and every other
    row, [localStorage] and the flag are as before. *)
Theorem purge_removes_exactly (env : Env) (ids : list string) (w w' : World) :
  purge env ids w = (Resolved tt, w') →
  (∀ k, db w' !! k = if decide (k ∈ ids) then None else db w !! k)
  ∧ localStorage w' = localStorage w
  ∧ syncing w' = syncing w.
Proof.
  intros H. split; [intros k; by eapply purge_resolved_rows|].
  destruct (purge_idb_only env ids w) as (Hl & Hs & _). rewrite H in Hl, Hs. by split.
Qed.

Lemma purge_removes_exactly_witness :
  let w' := (purge todo_env ["1"; "ghost"] todo_world).2 in
  (∀ k, db w' !! k = if decide (k ∈ ["1"; "ghost"]) then None else db todo_world !! k)
  ∧ localStorage w' = localStorage todo_world
  ∧ syncing w' = syncing todo_world.
Proof.
  cbn zeta. apply (purge_removes_exactly todo_env ["1"; "ghost"] todo_world). reflexivity.
Defined.

(** ** Completed cycles *)

Section completed_cycles.
Context (env : Env) (props : Props).

Lemma apply_response_rows response w w' k :
  apply_response env props response w = (Resolved tt, w') →
  db w' !! k = row_after response k (db w !! k).
Proof.
  intros H. apply apply_response_resolved in H as (w1 & w2 & Hput & Hpurge & ->).
  unfold row_after.
  rewrite (purge_resolved_rows env _ w1 w2 k Hpurge).
  destruct (decide (k ∈ deleted_of (SyncResponse.records response))); [done|].
  by apply (put_resolved_latest env _ w w1).
Qed.





Lemma row_after_idempotent response k before :
  row_after response k (row_after response k before) = row_after response k before.
Proof.
  unfold row_after.
  destruct (decide (k ∈ deleted_of (SyncResponse.records response))); [done|].
  by destruct (latest_write k _).
Qed.

End completed_cycles.



(** X7. Applying a response is idempotent on the rows: when the same
    response is applied a second time, every row is as the first
    application left it. *)
Theorem apply_response_idempotent (env : Env) (props : Props) (response : SyncResponse.t)
    (w w1 w2 : World) :
  apply_response env props response w = (Resolved tt, w1) →
  apply_response env props response w1 = (Resolved tt, w2) →
  db w2 = db w1.
Proof.
  intros H1 H2. apply map_eq. intros k.
  rewrite (apply_response_rows env props response w1 w2 k H2).
  rewrite (apply_response_rows env props response w w1 k H1).
  apply row_after_idempotent.
Qed.

Lemma apply_response_idempotent_witness :
  let response :=
    SyncResponse.mk [SyncedRecord.mk "1" "updated" "todo" todo_data;
                     SyncedRecord.mk "2" "deleted" "todo" (JS.VObj [])] (Some "t1") in
  let w1 := (apply_response todo_env todo_props response todo_world).2 in
  let w2 := (apply_response todo_env todo_props response w1).2 in
  db w2 = db w1.
Proof.
  cbn zeta.
  apply (apply_response_idempotent todo_env todo_props
           (SyncResponse.mk [SyncedRecord.mk "1" "updated" "todo" todo_data;
                             SyncedRecord.mk "2" "deleted" "todo" (JS.VObj [])] (Some "t1"))
           todo_world); vm_compute; reflexivity.
Defined.

(** ** What a cycle leaves for the next one *)

Section next_cycle.
Context (env : Env) (props : Props).

Lemma apply_response_row_not_echoed response w k :
  ¬ echoes response k →
  db (apply_response env props response w).2 !! k = db w !! k.
Proof.
  intros Hno.
  assert (db (put env (updated_of (SyncResponse.records response)) w).2 !! k = db w !! k)
    as Hput.
  { destruct (put_lookup env (updated_of (SyncResponse.records response)) w k)
      as [H | (r & Hin & Hid & _)]; [done|].
    apply elem_of_updated_of in Hin as (s & Hs & Hst & ->). destruct Hno.
    exists s. by repeat split; [| |left]. }
  destruct (apply_response_db env props response w) as [-> | ->]; [done|].
  destruct (purge_lookup env (deleted_of (SyncResponse.records response))
              (put env (updated_of (SyncResponse.records response)) w).2 k)
    as [H | [Hin _]]; [by rewrite H|].
  apply elem_of_deleted_of in Hin as (s & Hs & Hst & Hid). destruct Hno.
  exists s. by repeat split; [| |right].
Qed.

Lemma sync_settle_row_not_echoed settled w k :
  (∀ response, settled = Resolved response → ¬ echoes response k) →
  db (sync_settle env props settled w).2 !! k = db w !! k.
Proof.
  intros Hno. destruct settled as [response|e|]; [|done|done].
  rewrite sync_settle_resolved. unfold try_finally.
  pose proof (apply_response_row_not_echoed response w k (Hno response eq_refl)) as Hk.
  by destruct (apply_response env props response w) as [[[]|e|] w1].
Qed.

Lemma triggerSync_row_not_echoed sync w k :
  (∀ args response, sync args = Resolved response → ¬ echoes response k) →
  db (triggerSync env props sync w).2 !! k = db w !! k.
Proof.
  intros Hno. destruct (syncing w) eqn:Hs; [by rewrite triggerSync_busy|].
  rewrite triggerSync_unfold by done.
  destruct (collect env props (with_syncing true w)).1 as [args|e|]; [|done|done].
  rewrite sync_settle_row_not_echoed; [done|]. intros response. apply Hno.
Qed.

Lemma elem_of_unsynced_of w u :
  u ∈ unsynced_of w ↔
  ∃ k r, db w !! k = Some r ∧ IdbRecord.unsynced r = Some "true" ∧ u = to_unsynced r.
Proof.
  unfold unsynced_of. rewrite list_elem_of_fmap. split.
  - intros (r & -> & Hr). apply index_getAll_elem in Hr as (Hsel & k & Hk).
    apply bool_decide_eq_true in Hsel. by exists k, r.
  - intros (k & r & Hk & Hu & ->). exists r. split; [done|].
    apply index_getAll_elem. split; [by apply bool_decide_eq_true | by exists k].
Qed.

End next_cycle.

(** X8. Records the server does not echo are sent again: when no answer
    of the server has an "updated" or "deleted" entry for the id of an
    unsynced row, the row is the same after [triggerSync], however the call
    ends, and it is among the records the next cycle sends. *)
Theorem unechoed_records_are_resent (env : Env) (props : Props) (sync : Exchange)
    (w : World) (k : string) (r : IdbRecord.t) :
  db w !! k = Some r →
  IdbRecord.unsynced r = Some "true" →
  (∀ args response, sync args = Resolved response → ¬ echoes response k) →
  db (triggerSync env props sync w).2 !! k = Some r
  ∧ to_unsynced r ∈ unsynced_of (triggerSync env props sync w).2.
Proof.
  intros Hrow Hmark Hno.
  assert (db (triggerSync env props sync w).2 !! k = Some r) as Hafter.
  { by rewrite triggerSync_row_not_echoed. }
  split; [done|]. apply elem_of_unsynced_of. by exists k, r.
Qed.

Lemma unechoed_records_are_resent_witness :
  let r := IdbRecord.mk "1" "todo" None (Some "true") todo_data in
  db (triggerSync todo_env todo_props localOnly todo_world).2 !! "1" = Some r
  ∧ to_unsynced r ∈ unsynced_of (triggerSync todo_env todo_props localOnly todo_world).2.
Proof.
  cbn zeta.
  apply (unechoed_records_are_resent todo_env todo_props localOnly todo_world "1"
           (IdbRecord.mk "1" "todo" None (Some "true") todo_data)).
  - reflexivity.
  - reflexivity.
  - intros args response [= <-] (s & Hs & _). by apply elem_of_nil in Hs.
Defined.



(** X10. Local-only stores: with [localOnly()] as the [sync] function a
    cycle never writes a row: all rows, and with them the records every
    later cycle sends, are as before, whatever the storage does; with a
    storage that raises no error the cycle completes and leaves no stored
    cursor. *)
Theorem localOnly_keeps_the_store (env : Env) (props : Props) (w : World) :
  db (triggerSync env props localOnly w).2 = db w
  ∧ unsynced_of (triggerSync env props localOnly w).2 = unsynced_of w
  ∧ (quiet env → syncing w = false →
     (triggerSync env props localOnly w).1 = Resolved tt
     ∧ localStorage (triggerSync env props localOnly w).2 !! cursorKey props = None).
Proof.
  assert (db (triggerSync env props localOnly w).2 = db w) as Hdb.
  { apply map_eq. intros k. apply triggerSync_row_not_echoed.
    intros args response [= <-] (s & Hs & _). by apply elem_of_nil in Hs. }
  split; [exact Hdb|]. split.
  - unfold unsynced_of, index_getAll. by rewrite Hdb.
  - intros Hquiet Hidle.
    destruct (cycle_completes env props localOnly (SyncResponse.mk [] None) w
                Hquiet Hidle eq_refl) as (w1 & Happly & Hcycle).
    { by apply Forall_nil. }
    { split; [by apply Forall_nil | intros ?? Hin; by apply elem_of_nil in Hin]. }
    rewrite Hcycle. split; [done|].
    apply (apply_response_cursor env props) in Happly. exact Happly.
Qed.

Lemma localOnly_keeps_the_store_witness :
  (triggerSync todo_env todo_props localOnly todo_world).1 = Resolved tt
  ∧ localStorage (triggerSync todo_env todo_props localOnly todo_world).2
    !! cursorKey todo_props = None.
Proof.
  destruct (localOnly_keeps_the_store todo_env todo_props todo_world) as (_ & _ & H).
  apply H; [exact todo_env_quiet | reflexivity].
Defined.

(** With a storage that raises no error, [put] of a batch in which some
    hook does not resolve never settles. *)
Lemma put_pending env records r w :
  (∀ op, idb_error env op = None) →
  r ∈ records → callHooks env beforeSave (Some r) ≠ Resolved tt →
  (put env records w).1 = Pending.
Proof.
  intros Hidb Hin Hhook.
  assert (records ≠ []) as Hne by (intros ->; by apply elem_of_nil in Hin).
  rewrite put_outcome, Hidb by done.
  rewrite Promise_all_pending; [done| |].
  - intros e He. apply list_elem_of_fmap in He as (x & Hx & _).
    unfold put_record_outcome, request in Hx. rewrite Hidb in Hx.
    destruct (callHooks env beforeSave (Some x)); [|done|done].
    by destruct (JS.cloneable (IdbRecord.data x)).
  - apply list_elem_of_fmap. exists r. split; [|done].
    unfold put_record_outcome.
    destruct (callHooks env beforeSave (Some r)) as [[]|e|]; done.
Qed.

(** X11. A hook that rejects a record sent by the server wedges the
    engine: with a storage that raises no error, when a [beforeSave] hook
    does not resolve for one of the "updated" entries of the response, the
    promise of [triggerSync] never settles and the flag stays [true]; from
    then on every trigger returns at once, and no interleaving of events
    leads to another call of [config.sync]. *)
Theorem rejecting_hook_wedges_the_engine (env : Env) (props : Props) (sync : Exchange)
    (args : list JS.value) (response : SyncResponse.t) (r : IdbRecord.t) (w : World) :
  syncing w = false →
  (∀ op, idb_error env op = None) →
  (collect env props (with_syncing true w)).1 = Resolved args →
  sync args = Resolved response →
  r ∈ updated_of (SyncResponse.records response) →
  callHooks env beforeSave (Some r) ≠ Resolved tt →
  let w' := (triggerSync env props sync w).2 in
  (triggerSync env props sync w).1 = Pending
  ∧ syncing w' = true
  ∧ (∀ sync', triggerSync env props sync' w' = (Resolved tt, w'))
  ∧ (∀ evs, exchange_calls (world (run env props evs {| world := w'; awaiting := None |}))
            = exchange_calls w').
Proof.
  intros Hidle Hidb Hcollect Hsync Hin Hhook. cbn zeta.
  assert (∃ w1, triggerSync env props sync w = (Pending, w1) ∧ syncing w1 = true)
    as (w1 & -> & Hs).
  { rewrite triggerSync_unfold by done. rewrite Hcollect, Hsync, sync_settle_resolved.
    unfold try_finally, apply_response, bind.
    pose proof (put_pending env _ r (emit (ExchangeCall args) (with_syncing true w))
                  Hidb Hin Hhook) as Hput.
    pose proof (put_idb_only env (updated_of (SyncResponse.records response))
                  (emit (ExchangeCall args) (with_syncing true w))) as (_ & Hs & _).
    destruct (put env _ _) as [o w1]. cbn [fst snd] in *. subst o.
    by exists w1. }
  cbn [fst snd].
  split; [done|]. split; [exact Hs|]. split.
  - intros sync'. by apply triggerSync_busy.
  - intros evs. by apply run_wedged.
Qed.

Lemma rejecting_hook_wedges_the_engine_witness :
  let w := (set todo_env "todo" "1" todo_data empty_world).2 in
  let w' := (triggerSync refusing_env todo_props todo_echo w).2 in
  (triggerSync refusing_env todo_props todo_echo w).1 = Pending
  ∧ syncing w' = true
  ∧ (∀ sync', triggerSync refusing_env todo_props sync' w' = (Resolved tt, w'))
  ∧ (∀ evs, exchange_calls
              (world (run refusing_env todo_props evs {| world := w'; awaiting := None |}))
            = exchange_calls w').
Proof.
  cbn zeta.
  apply (rejecting_hook_wedges_the_engine refusing_env todo_props todo_echo
           (cycle_arguments todo_props todo_world)
           (SyncResponse.mk [SyncedRecord.mk "1" "updated" "todo" todo_data] (Some "t1"))
           (IdbRecord.mk "1" "todo" None None todo_data)).
  - reflexivity.
  - reflexivity.
  - reflexivity.
  - reflexivity.
  - apply list_elem_of_here.
  - discriminate.
Defined.

(** ** Cursor slots *)

Section cursor_slots.
Context (env : Env) (props : Props).

Lemma only_cursor_of_refl w : only_cursor_of props w w.
Proof. by intros key _. Qed.

Lemma only_cursor_of_trans w1 w2 w3 :
  only_cursor_of props w1 w2 → only_cursor_of props w2 w3 → only_cursor_of props w1 w3.
Proof. intros H12 H23 key Hkey. by rewrite H23, H12. Qed.

Lemma idb_only_cursor_of {A} (t : Task A) :
  respects idb_only t → respects (only_cursor_of props) t.
Proof. intros H w key _. destruct (H w) as (Hl & _). by rewrite Hl. Qed.

Lemma apply_response_only_cursor response :
  respects (only_cursor_of props) (apply_response env props response).
Proof.
  apply respects_bind; [apply only_cursor_of_trans
                       | apply idb_only_cursor_of, put_idb_only |].
  intros _. apply respects_bind; [apply only_cursor_of_trans
                                 | apply idb_only_cursor_of, purge_idb_only |].
  intros _ w key Hkey. unfold localStorage_setItem, localStorage_removeItem.
  destruct (SyncResponse.syncCursor response) as [c|];
    destruct (storage_error env _); simpl; try done.
  - by rewrite lookup_insert_ne.
  - by rewrite lookup_delete_ne.
Qed.

Lemma triggerSync_only_cursor sync w :
  only_cursor_of props w (triggerSync env props sync w).2.
Proof.
  destruct (syncing w) eqn:Hs; [rewrite triggerSync_busy by done; apply only_cursor_of_refl|].
  rewrite triggerSync_unfold by done.
  destruct (collect env props (with_syncing true w)).1 as [args|e|];
    [|by intros key _ | by intros key _].
  destruct (sync args) as [response|e|]; [|by intros key _ | by intros key _].
  rewrite sync_settle_resolved. unfold try_finally.
  pose proof (apply_response_only_cursor response
                (emit (ExchangeCall args) (with_syncing true w))) as H.
  by destruct (apply_response env props response _) as [[[]|e|] w1].
Qed.

End cursor_slots.





(** X13. Cursor slots are separate: a cycle of one store and namespace
    writes [localStorage] under its own cursor key only, so the cursor that
    a store with another key sends is not changed by it, however the cycle
    ends. *)
Theorem other_cursors_untouched (env : Env) (props other : Props) (sync : Exchange)
    (w : World) :
  cursorKey other ≠ cursorKey props →
  localStorage (triggerSync env props sync w).2 !! cursorKey other
  = localStorage w !! cursorKey other
  ∧ cursor_argument other (triggerSync env props sync w).2 = cursor_argument other w.
Proof.
  intros Hkey.
  pose proof (triggerSync_only_cursor env props sync w (cursorKey other) Hkey) as H.
  split; [exact H|]. unfold cursor_argument. by rewrite H.
Qed.

Lemma other_cursors_untouched_witness :
  let other := {| config_name := "todo-app"; namespace := "alice" |} in
  localStorage (triggerSync todo_env todo_props todo_first todo_world).2 !! cursorKey other
  = localStorage todo_world !! cursorKey other
  ∧ cursor_argument other (triggerSync todo_env todo_props todo_first todo_world).2
    = cursor_argument other todo_world.
Proof.
  cbn zeta.
  apply (other_cursors_untouched todo_env todo_props
           {| config_name := "todo-app"; namespace := "alice" |} todo_first todo_world).
  discriminate.
Defined.



(** ** Writes made while the call is pending *)

Section pending_writes.
Context (env : Env) (props : Props).



End pending_writes.



(** X16. A write made while the call is pending survives a response that
    does not echo its id: after a resolved [set(id, data)] during the call,
    whichever way the call settles, the row under the id is the one [set]
    wrote, still marked unsynced, and it is among the records the next cycle
    sends. *)
Theorem pending_write_survives (env : Env) (props : Props) (s : Session)
    (type id : string) (data : JS.value) (settled : outcome SyncResponse.t) :
  (set env type id data (world s)).1 = Resolved tt →
  (∀ response, settled = Resolved response → ¬ echoes response id) →
  let written := step env props s (LocalSet type id data) in
  let after := settle env props settled written in
  ∃ copy,
    JS.json_roundtrip data = Some copy
    ∧ db (world after) !! id = Some (IdbRecord.mk id type None (Some "true") copy)
    ∧ to_unsynced (IdbRecord.mk id type None (Some "true") copy)
      ∈ unsynced_of (world after).
Proof.
  intros Hset Hno. cbn zeta.
  destruct (set env type id data (world s)) as [o w1] eqn:Hw1. cbn [fst] in Hset. subst o.
  destruct (set_resolved env type id data (world s) w1 Hw1) as (copy & Hjson & Hrow).
  exists copy. split; [exact Hjson|].
  assert (db (world (settle env props settled
                       (step env props s (LocalSet type id data)))) !! id
          = Some (IdbRecord.mk id type None (Some "true") copy)) as Hafter.
  { unfold settle. cbn [step awaiting world]. rewrite Hw1. cbn [snd].
    destruct (awaiting s); [|exact Hrow]. cbn [world].
    by rewrite sync_settle_row_not_echoed. }
  split; [exact Hafter|]. apply elem_of_unsynced_of. by eexists _, _.
Qed.

Lemma pending_write_survives_witness :
  let s := step todo_env todo_props todo_session Trigger in
  let written := step todo_env todo_props s (LocalSet "todo" "2" todo_data) in
  let after := settle todo_env todo_props
                 (Resolved (SyncResponse.mk [SyncedRecord.mk "1" "updated" "todo" todo_data]
                                            (Some "t1"))) written in
  ∃ copy,
    JS.json_roundtrip todo_data = Some copy
    ∧ db (world after) !! "2" = Some (IdbRecord.mk "2" "todo" None (Some "true") copy)
    ∧ to_unsynced (IdbRecord.mk "2" "todo" None (Some "true") copy)
      ∈ unsynced_of (world after).
Proof.
  cbn zeta.
  apply (pending_write_survives todo_env todo_props
           (step todo_env todo_props todo_session Trigger) "todo" "2" todo_data).
  - reflexivity.
  - intros response [= <-] (x & Hx & Hid & _).
    apply list_elem_of_singleton in Hx. by subst x.
Defined.

(** ** Hooks and the public API *)

Lemma start_all_ext {A B} (f g : A → Task B) xs w :
  (∀ x w, f x w = g x w) → start_all f xs w = start_all g xs w.
Proof.
  intros Hfg. revert w. induction xs as [|x xs IH]; intros w; [done|].
  cbn [start_all]. rewrite Hfg. destruct (g x w) as [o w1]. by rewrite IH.
Qed.

Lemma put_tombstone_unfold env type id w :
  put env [tombstone type id] w =
    match idb_error env OpOpen with
    | Some e => (Rejected ("error when opening the database: " ++ e), w)
    | None =>
        match idb_error env (OpPut id) with
        | Some e =>
            (Rejected ("error when updating data: " ++ e),
             emit (IdbPut (tombstone type id)) w)
        | None =>
            notify_each [type]
              (with_db (insert id (tombstone type id)) (emit (IdbPut (tombstone type id)) w))
        end
    end.
Proof.
  rewrite put_unfold by done.
  destruct (idb_error env OpOpen); [done|]. cbn [start_all].
  unfold put_record, new_Promise_async, bind, await, request, tombstone.
  cbn [callHooks IdbRecord.deleted IdbRecord.id IdbRecord.data JS.cloneable forallb].
  by destruct (idb_error env (OpPut id)).
Qed.

(** X17. Hooks never see a tombstone or a missing row: [delete(...ids)]
    depends on the hooks in no way (two environments with the same storage
    behave alike, whatever their hooks), and [get(id)] of an id that has no
    row or a soft-deleted row resolves to [undefined] without consulting
    them. *)
Theorem hooks_skip_tombstones (env env' : Env) (type : string) (ids : list string)
    (id : string) (w : World) :
  (∀ op, idb_error env' op = idb_error env op) →
  softDelete env' type ids w = softDelete env type ids w
  ∧ ((db w !! id = None ∨ ∃ r, db w !! id = Some r ∧ IdbRecord.deleted r = Some true) →
     get env' id w = get env id w
     ∧ (idb_error env OpOpen = None → idb_error env (OpGet id) = None →
        get env id w = (Resolved JS.VUndefined, w))).
Proof.
  intros Hext. split.
  - unfold softDelete. destruct ids as [|i ids]; [done|].
    unfold bind, await_all.
    rewrite (start_all_ext (λ id, put env' [tombstone type id])
               (λ id, put env [tombstone type id])); [done|].
    intros x w0. by rewrite !put_tombstone_unfold, !Hext.
  - intros Hrow.
    assert (∀ e : Env, callHooks e beforeRead (db w !! id) = Resolved tt) as Hhooks.
    { intros e. destruct Hrow as [-> | (r & -> & Hdel)]; [done|].
      unfold callHooks. by rewrite Hdel. }
    assert (match db w !! id with
            | Some r => match IdbRecord.deleted r with
                        | Some true => JS.VUndefined
                        | _ => IdbRecord.data r
                        end
            | None => JS.VUndefined
            end = JS.VUndefined) as Hdata.
    { destruct Hrow as [-> | (r & -> & ->)]; done. }
    rewrite !get_unfold, !Hext, !Hhooks, Hdata. split; [done|].
    by intros -> ->.
Qed.

Lemma hooks_skip_tombstones_witness :
  let w := (softDelete todo_env "todo" ["1"] todo_world).2 in
  softDelete refusing_env "todo" ["1"; "2"] w = softDelete todo_env "todo" ["1"; "2"] w
  ∧ get refusing_env "1" w = (Resolved JS.VUndefined, w).
Proof.
  cbn zeta.
  destruct (hooks_skip_tombstones refusing_env todo_env "todo" ["1"; "2"] "1"
              (softDelete todo_env "todo" ["1"] todo_world).2) as [Hdel Hget].
  { done. }
  split; [by rewrite Hdel|].
  destruct Hget as [_ Hget]; [right; by eexists|]. by apply Hget.
Defined.

(** X18. A rejecting hook is never reported: the hooks are awaited inside
    an async Promise executor (or an async [onsuccess] handler), where a
    rejection has no observer. When the database opens and the request
    succeeds, [get(id)] of a row whose [beforeRead] hooks reject, [all()] of
    a type with such a row, and [set(id, data)] of a record whose
    [beforeSave] hooks reject return a promise that never settles; [set]
    leaves the store and the trace as they were. *)
Theorem rejecting_hook_never_reported (env : Env) (type id : string) (data copy : JS.value)
    (r : IdbRecord.t) (e : string) (w : World) :
  idb_error env OpOpen = None →
  (idb_error env (OpGet id) = None → db w !! id = Some r →
   callHooks env beforeRead (Some r) = Rejected e →
   get env id w = (Pending, w))
  ∧ (idb_error env (OpGetAll "type" type) = None → r ∈ all_items type w →
     callHooks env beforeRead (Some r) = Rejected e →
     all env type w = (Pending, w))
  ∧ (JS.json_roundtrip data = Some copy →
     callHooks env beforeSave (Some (IdbRecord.mk id type None (Some "true") copy))
     = Rejected e →
     set env type id data w = (Pending, w)).
Proof.
  intros Hopen. split; [|split].
  - intros Hget Hrow Hhook. by rewrite get_unfold, Hopen, Hget, Hrow, Hhook.
  - intros Hall Hin Hhook. rewrite all_unfold, Hopen, Hall.
    destruct (Promise_all_rejects
                (map (λ item, callHooks env beforeRead (Some item)) (all_items type w)) e)
      as (e' & ->); [|done].
    apply list_elem_of_fmap. by exists r.
  - intros Hjson Hhook. rewrite set_unfold, Hjson. cbn zeta.
    unfold put, bind, open, request, await_all, ret. rewrite Hopen. cbn [start_all].
    unfold put_record, new_Promise_async, bind, await. by rewrite Hhook.
Qed.

Lemma rejecting_hook_never_reported_witness :
  set refusing_env "todo" "2" todo_data todo_world = (Pending, todo_world).
Proof.
  destruct (rejecting_hook_never_reported refusing_env "todo" "2" todo_data todo_data
              (IdbRecord.mk "2" "todo" None (Some "true") todo_data) "refused" todo_world)
    as (_ & _ & Hset); [reflexivity|].
  by apply Hset.
Defined.

(** X19. Ids are shared by all types: after a resolved [set(id, data)]
    through the API of one type, on a store keyed by id, the row under the
    id is listed by [all()] of that type and of no other (a record another
    type had under the id is replaced), and rows under other ids are listed
    as before. *)
Theorem set_lists_under_its_type (env : Env) (type id : string) (data : JS.value)
    (w w' : World) :
  keyed_by_id w →
  set env type id data w = (Resolved tt, w') →
  ∃ copy,
    JS.json_roundtrip data = Some copy
    ∧ IdbRecord.mk id type None (Some "true") copy ∈ all_items type w'
    ∧ (∀ t item, item ∈ all_items t w' → IdbRecord.id item = id →
                 t = type ∧ item = IdbRecord.mk id type None (Some "true") copy)
    ∧ (∀ t item, IdbRecord.id item ≠ id →
                 item ∈ all_items t w' ↔ item ∈ all_items t w).
Proof.
  intros Hkeyed Hset.
  destruct (set_resolved env type id data w w' Hset) as (copy & Hjson & Hrow).
  pose proof (set_keyed env type id data w Hkeyed) as Hkeyed'.
  rewrite Hset in Hkeyed'. cbn [snd] in Hkeyed'.
  assert (∀ k, k ≠ id → db w' !! k = db w !! k) as Hother.
  { intros k Hk. destruct (set_lookup env type id data w k) as [H | [-> _]]; [|done].
    by rewrite Hset in H. }
  exists copy. split; [exact Hjson|]. split; [|split].
  - apply all_items_elem. split; [done|]. split; [done|]. by exists id.
  - intros t item Hitem Hid. apply all_items_elem in Hitem as (Ht & _ & k & Hk).
    pose proof (Hkeyed' k item Hk) as Hkid. cbn beta in Hkid.
    rewrite Hid in Hkid. subst k. rewrite Hrow in Hk. injection Hk as <-.
    by split.
  - intros t item Hid. rewrite !all_items_elem.
    split; intros (Ht & Hlive & k & Hk); (split; [done|]; split; [done|]); exists k.
    + rewrite <- Hother; [done|]. intros ->. apply Hid. exact (Hkeyed' id item Hk).
    + rewrite Hother; [done|]. intros ->. apply Hid. exact (Hkeyed id item Hk).
Qed.

Lemma set_lists_under_its_type_witness :
  let w' := (set todo_env "project" "1" (JS.VObj [("name", JS.VStr "p")]) todo_world).2 in
  ∃ copy,
    JS.json_roundtrip (JS.VObj [("name", JS.VStr "p")]) = Some copy
    ∧ IdbRecord.mk "1" "project" None (Some "true") copy ∈ all_items "project" w'
    ∧ (∀ t item, item ∈ all_items t w' → IdbRecord.id item = "1" →
                 t = "project" ∧ item = IdbRecord.mk "1" "project" None (Some "true") copy)
    ∧ (∀ t item, IdbRecord.id item ≠ "1" →
                 item ∈ all_items t w' ↔ item ∈ all_items t todo_world).
Proof.
  cbn zeta.
  apply (set_lists_under_its_type todo_env "project" "1" (JS.VObj [("name", JS.VStr "p")])
           todo_world).
  - exact todo_world_keyed.
  - reflexivity.
Defined.

(** ** Who wakes the engine *)

Lemma silent_refl w : silent w w.
Proof. done. Qed.

Lemma silent_trans w1 w2 w3 : silent w1 w2 → silent w2 w3 → silent w1 w3.
Proof. unfold silent. congruence. Qed.

Lemma silent_emit e w : e ≠ NotifyUnsyncedChanges → silent w (emit e w).
Proof.
  intros He. unfold silent, notifications, emit. cbn [trace].
  rewrite omap_app. destruct e; try done; cbn; by rewrite app_nil_r.
Qed.

Lemma notifications_notify w :
  notifications (notifyUnsyncedChanges w) = S (notifications w).
Proof.
  unfold notifications, notifyUnsyncedChanges, emit. cbn [trace].
  rewrite omap_app, length_app. cbn. lia.
Qed.

Lemma notify_each_silent recordTypes : respects silent (notify_each recordTypes).
Proof.
  apply respects_notify_each; [apply silent_refl | apply silent_trans | done |].
  intros w message. by apply (silent_emit (ConsoleWarn message) w).
Qed.

Section silence.
Context (env : Env).

Lemma put_silent records : respects silent (put env records).
Proof.
  destruct records as [|r rs]; [apply respects_ret, silent_refl|].
  apply respects_bind; [apply silent_trans | apply respects_open, silent_refl |].
  intros _. apply respects_bind; [apply silent_trans | | intros; apply notify_each_silent].
  apply respects_await_all; [apply silent_refl | apply silent_trans |].
  intros record. apply respects_new_Promise_async.
  apply respects_bind; [apply silent_trans | apply respects_await, silent_refl |].
  intros _. destruct (JS.cloneable (IdbRecord.data record));
    [|apply respects_fail, silent_refl].
  intros w.
  destruct (request env (OpPut (IdbRecord.id record)) "error when updating data: " tt);
    by apply (silent_emit (IdbPut record) w).
Qed.

Lemma purge_silent ids : respects silent (purge env ids).
Proof.
  destruct ids as [|i ids]; [apply respects_ret, silent_refl|].
  apply respects_bind; [apply silent_trans | apply respects_open, silent_refl |].
  intros _. apply respects_bind; [apply silent_trans | | ].
  - apply respects_await_all; [apply silent_refl | apply silent_trans |].
    intros id w. rewrite (getRawUnhookedRecord_unchanged env id w). apply silent_refl.
  - intros records. apply respects_bind; [apply silent_trans | | intros; apply notify_each_silent].
    apply respects_await_all; [apply silent_refl | apply silent_trans |].
    intros id w. unfold delete_record.
    destruct (request env (OpDelete id) "Error deleting record: " tt);
      by apply (silent_emit (IdbDelete id) w).
Qed.

Lemma apply_response_silent props response :
  respects silent (apply_response env props response).
Proof.
  apply respects_bind; [apply silent_trans | apply put_silent |].
  intros _. apply respects_bind; [apply silent_trans | apply purge_silent |].
  intros _ w. unfold localStorage_setItem, localStorage_removeItem.
  destruct (SyncResponse.syncCursor response) as [c|];
    destruct (storage_error env _); try apply silent_refl.
  - by apply (silent_emit (SetItem (cursorKey props) c) w).
  - by apply (silent_emit (RemoveItem (cursorKey props)) w).
Qed.

Lemma triggerSync_silent props sync w : silent w (triggerSync env props sync w).2.
Proof.
  destruct (syncing w) eqn:Hs; [by rewrite triggerSync_busy|].
  rewrite triggerSync_unfold by done.
  destruct (collect env props (with_syncing true w)).1 as [args|e|]; [|done|done].
  assert (silent w (emit (ExchangeCall args) (with_syncing true w))) as Hcall.
  { by apply (silent_emit (ExchangeCall args) (with_syncing true w)). }
  destruct (sync args) as [response|e|]; [|done|done].
  rewrite sync_settle_resolved. unfold try_finally.
  pose proof (apply_response_silent props response
                (emit (ExchangeCall args) (with_syncing true w))) as H.
  destruct (apply_response env props response _) as [[[]|e|] w1]; cbn [snd] in *;
    eapply silent_trans; eauto.
Qed.

End silence.

(** X20. Only local writes wake the engine: [triggerSync] never calls
    [notifyUnsyncedChanges], however the cycle ends, so applying a response
    does not schedule another cycle; [set] and [delete] call it once, after
    the write, when the write resolved, and not at all when it failed, when
    it never settled, or when [delete] was given no id. *)
Theorem only_local_writes_notify (env : Env) (props : Props) (sync : Exchange)
    (type id : string) (data : JS.value) (ids : list string) (w : World) :
  notifications (triggerSync env props sync w).2 = notifications w
  ∧ notifications (set env type id data w).2
    = notifications w
      + match (set env type id data w).1 with Resolved _ => 1 | _ => 0 end
  ∧ notifications (softDelete env type ids w).2
    = notifications w
      + match ids, (softDelete env type ids w).1 with
        | _ :: _, Resolved _ => 1
        | _, _ => 0
        end.
Proof.
  split; [apply triggerSync_silent|]. split.
  - rewrite set_unfold. destruct (JS.json_roundtrip data) as [copy|]; [|cbn; lia].
    cbn zeta. pose proof (put_silent env [IdbRecord.mk id type None (Some "true") copy] w)
      as Hput. unfold silent in Hput.
    destruct (put env _ w) as [[[]|e|] w1]; cbn [fst snd] in *;
      rewrite ?notifications_notify; lia.
  - destruct ids as [|i ids]; [cbn; lia|].
    rewrite softDelete_unfold by done. cbn zeta.
    pose proof (respects_start_all silent silent_refl silent_trans
                  (λ id, put env [tombstone type id]) (i :: ids)
                  (λ x, put_silent env [tombstone type x]) w) as Hall.
    unfold silent in Hall.
    destruct (Promise_all _) as [l|e|]; cbn [fst snd];
      rewrite ?notifications_notify; lia.
Qed.

(** ** Validation of received records *)

Lemma forEach_returns {A} (f : A → nat → completion unit) (P : A → Prop) (array : list A) :
  (∀ item index, f item index = Returns tt ↔ P item) →
  ∀ index, forEach f index array = Returns tt ↔ Forall P array.
Proof.
  intros Hf. induction array as [|item array IH]; intros index; cbn.
  - split; [constructor | done].
  - rewrite Forall_cons, <- (Hf item index), <- (IH (S index)).
    unfold mbind, completion_bind.
    destruct (f item index) as [[]|e]; [|split; [done | by intros [? _]]].
    split; [done | by intros [_ ?]].
Qed.

Lemma forEach_throws {A} (f : A → nat → completion unit) (array : list A) (index : nat)
    (error : exception) :
  forEach f index array = Throw error →
  ∃ item i, item ∈ array ∧ f item i = Throw error.
Proof.
  revert index. induction array as [|item array IH]; intros index; cbn; [done|].
  unfold mbind, completion_bind. destruct (f item index) as [[]|e] eqn:Hitem.
  - intros H. destruct (IH _ H) as (x & i & Hin & Hx).
    exists x, i. split; [by apply list_elem_of_further | done].
  - intros [= ->]. exists item, index. split; [apply list_elem_of_here | done].
Qed.

Lemma spread_is_object (v : JS.value) : ∃ props, JS.spread v = JS.VObj props.
Proof. destruct v; cbn; eauto. Qed.

Lemma plainObject_unfold (values : JS.value) (key : string) :
  validate.plainObject values key
  = match member key values with
    | JS.VObj _ => Returns tt
    | _ => Throw (Error (key ++ ": expecting plain object"))
    end.
Proof. unfold validate.plainObject. by destruct (member key values). Qed.

Lemma dictionary_record (name : string) (item : JS.value) (acceptedKeys : list string) :
  validate.dictionary (JS.VObj [(name, item)]) name (Some acceptedKeys)
  = match item with
    | JS.VObj props =>
        match list_find (λ k, k ∉ acceptedKeys) props.*1 with
        | Some (_, k) => Throw (Error (name ++ ": unexpected field " ++ k))
        | None => Returns tt
        end
    | _ => Throw (Error (name ++ ": expecting plain object"))
    end.
Proof.
  unfold validate.dictionary. rewrite plainObject_unfold.
  assert (member name (JS.VObj [(name, item)]) = item) as ->.
  { cbn. by rewrite decide_True. }
  destruct item as [| | | | | | | | | |items|props]; try done.
  cbn [mbind completion_bind Object_keys JS.spread].
  assert (forallb (λ _ : string, true) props.*1 = true) as ->; [|done].
  by apply forallb_forall.
Qed.

Lemma string_id_unfold (item : JS.value) :
  validate.string item "id" (Some 1) None
  = match member "id" item with
    | JS.VStr "" => Throw (Error "id: minimum length is 1")
    | JS.VStr _ => Returns tt
    | _ => Throw (Error "id: required")
    end.
Proof.
  unfold validate.string. destruct (member "id" item) as [| | | | |id| | | | | |]; try done.
  destruct id; [done|]. by rewrite bool_decide_false by (cbn; lia).
Qed.

Section record_check.
Context (text : JS.value → option string) (types : list string).

(** The checks [validate.records] runs on one element of the array. *)
Lemma record_check_returns (item : JS.value) (index : nat) :
  (let name := ("records:" ++ pretty index)%string in
   validate.dictionary (JS.VObj [(name, item)]) name (Some ["id"; "state"; "type"; "data"]) ;;
   validate.string item "id" (Some 1) None ;;
   validate.enum text item "state" UnsyncedRecordStates ;;
   validate.enum text item "type" types ;;
   validate.plainObject item "data") = Returns tt
  ↔ accepted_record text types item.
Proof.
  cbn zeta. rewrite dictionary_record, string_id_unfold, plainObject_unfold.
  unfold accepted_record, validate.enum.
  destruct item as [| | | | | | | | | |items|props];
    try (cbn; split; [done | by intros (? & ? & _)]).
  destruct (list_find (λ k, k ∉ ["id"; "state"; "type"; "data"]) props.*1)
    as [[i k]|] eqn:Hfind.
  { apply list_find_Some in Hfind as (Hi & Hk & _).
    split; [done|]. intros (props' & [= <-] & Hkeys & _).
    destruct Hk. apply Hkeys. by eapply list_elem_of_lookup_2. }
  assert (∀ k, k ∈ props.*1 → k ∈ ["id"; "state"; "type"; "data"]) as Hkeys.
  { intros k Hk. eapply list_find_None, Forall_forall in Hfind; [|exact Hk].
    cbn beta in Hfind. by apply dec_stable. }
  cbn [mbind completion_bind].
  destruct (member "id" (JS.VObj props)) as [| | | | |id| | | | | |] eqn:Hid;
    try (split; [done | by intros (? & _ & _ & (? & ? & _) & _)]).
  destruct id as [|c id].
  { split; [done | by intros (? & _ & _ & (? & [= <-] & ?) & _)]. }
  cbn [mbind completion_bind].
  destruct (template text (member "state" (JS.VObj props))) as [state|e] eqn:Hstate;
    [|split; [done | by intros (? & _ & _ & _ & (? & ? & _) & _)]].
  cbn [mbind completion_bind]. case_bool_decide as Hs;
    [|split; [done | intros (? & _ & _ & _ & (? & [= <-] & ?) & _); done]].
  cbn [mbind completion_bind].
  destruct (template text (member "type" (JS.VObj props))) as [type|e] eqn:Htype;
    [|split; [done | by intros (? & _ & _ & _ & _ & (? & ? & _) & _)]].
  cbn [mbind completion_bind]. case_bool_decide as Ht;
    [|split; [done | intros (? & _ & _ & _ & _ & (? & [= <-] & ?) & _); done]].
  cbn [mbind completion_bind].
  destruct (member "data" (JS.VObj props)) as [| | | | | | | | | | |data] eqn:Hdata;
    try (split; [done | by intros (? & _ & _ & _ & _ & _ & (? & ?))]).
  split; [|done]. intros _. exists props. split; [done|]. split; [done|].
  split; [by exists (String c id)|]. split; [by exists state|].
  split; [by exists type | by exists data].
Qed.

End record_check.

Lemma validateRecordsMetadata_unfold (text : JS.value → option string) (records : JS.value)
    (types : list string) :
  validateRecordsMetadata text records types
  = match records with
    | JS.VArr input =>
        forEach (λ item index,
                   let name := ("records:" ++ pretty index)%string in
                   validate.dictionary (JS.VObj [(name, item)]) name
                                       (Some ["id"; "state"; "type"; "data"]) ;;
                   validate.string item "id" (Some 1) None ;;
                   validate.enum text item "state" UnsyncedRecordStates ;;
                   validate.enum text item "type" types ;;
                   validate.plainObject item "data")
                0 input ;;
        Returns records
    | _ => Throw (Error "records: is not an array")
    end.
Proof.
  unfold validateRecordsMetadata, validate.records. cbn [member lookup_property].
  rewrite decide_True by done. by destruct records.
Qed.

(** X21. [validateRecordsMetadata] returns its argument as it is or
    throws, and it returns exactly when the argument is an array whose
    elements are all objects with no field besides [id], [state], [type] and
    [data], with a non-empty string as [id], a [state] whose text is
    "updated" or "deleted", a [type] whose text is one of the accepted
    types, and an object (not null, an array, a date or a function) as
    [data]. *)
Theorem validation_accepts_exactly (text : JS.value → option string) (records out : JS.value)
    (types : list string) :
  validateRecordsMetadata text records types = Returns out
  ↔ out = records
    ∧ ∃ items, records = JS.VArr items ∧ Forall (accepted_record text types) items.
Proof.
  rewrite validateRecordsMetadata_unfold.
  destruct records as [| | | | | | | | | |items|props];
    try (split; [done | by intros (_ & ? & ? & _)]).
  pose proof (forEach_returns _ (accepted_record text types) items
                (record_check_returns text types) 0) as Hall.
  destruct (forEach _ 0 items) as [[]|e]; cbn [mbind completion_bind].
  - split.
    + intros [= <-]. split; [done|]. exists items. split; [done | by apply Hall].
    + by intros (-> & _).
  - split; [done|]. intros (_ & items' & [= <-] & Hitems). by apply Hall in Hitems.
Qed.

Lemma to_unsynced_state (r : IdbRecord.t) :
  match IdbRecord.deleted r with Some true => "deleted" | _ => "updated" end
  ∈ UnsyncedRecordStates.
Proof.
  unfold UnsyncedRecordStates.
  destruct (IdbRecord.deleted r) as [[]|]; rewrite !elem_of_cons; auto.
Qed.

Lemma member_sent (id type state data : JS.value) :
  let item := JS.VObj [("id", id); ("type", type); ("state", state); ("data", data)] in
  member "id" item = id ∧ member "type" item = type
  ∧ member "state" item = state ∧ member "data" item = data.
Proof. done. Qed.

Lemma sent_record_check (text : JS.value → option string) (types : list string)
    (r : IdbRecord.t) (index : nat) :
  (let item := unsynced_to_js (to_unsynced r) in
   let name := ("records:" ++ pretty index)%string in
   validate.dictionary (JS.VObj [(name, item)]) name (Some ["id"; "state"; "type"; "data"]) ;;
   validate.string item "id" (Some 1) None ;;
   validate.enum text item "state" UnsyncedRecordStates ;;
   validate.enum text item "type" types ;;
   validate.plainObject item "data")
  = if decide (IdbRecord.id r = "") then Throw (Error "id: minimum length is 1")
    else if decide (IdbRecord.type r ∈ types) then Returns tt
    else Throw (Error "type: enum mismatch").
Proof.
  cbn zeta. rewrite dictionary_record, string_id_unfold, plainObject_unfold.
  unfold unsynced_to_js, to_unsynced, validate.enum.
  cbn [UnsyncedRecord.id UnsyncedRecord.type UnsyncedRecord.state UnsyncedRecord.data].
  assert (list_find (λ k : string, k ∉ ["id"; "state"; "type"; "data"])
            [("id", JS.VStr (IdbRecord.id r)); ("type", JS.VStr (IdbRecord.type r));
             ("state", JS.VStr match IdbRecord.deleted r with
                               | Some true => "deleted"
                               | _ => "updated"
                               end);
             ("data", JS.spread (IdbRecord.data r))].*1 = None) as ->.
  { by vm_compute. }
  destruct (member_sent (JS.VStr (IdbRecord.id r)) (JS.VStr (IdbRecord.type r))
              (JS.VStr match IdbRecord.deleted r with
                       | Some true => "deleted"
                       | _ => "updated"
                       end)
              (JS.spread (IdbRecord.data r))) as (-> & -> & -> & ->).
  destruct (IdbRecord.id r) as [|c id]; [done|]. rewrite decide_False by done.
  cbn [mbind completion_bind template].
  rewrite (bool_decide_true _ (to_unsynced_state r)).
  cbn [mbind completion_bind].
  destruct (decide (IdbRecord.type r ∈ types)) as [Hin | Hout].
  - rewrite bool_decide_true by done. cbn [mbind completion_bind].
    by destruct (spread_is_object (IdbRecord.data r)) as (props & ->).
  - by rewrite bool_decide_false by done.
Qed.

Lemma forEach_fmap {A B} (g : A → B) (f : B → nat → completion unit) (array : list A)
    (index : nat) :
  forEach f index (map g array) = forEach (λ x i, f (g x) i) index array.
Proof.
  revert index. induction array as [|x array IH]; intros index; cbn; [done|].
  by rewrite IH.
Qed.

Lemma forEach_ext {A} (f g : A → nat → completion unit) (array : list A) (index : nat) :
  (∀ x i, x ∈ array → f x i = g x i) →
  forEach f index array = forEach g index array.
Proof.
  revert index. induction array as [|x array IH]; intros index Hfg; cbn; [done|].
  rewrite (Hfg x index) by apply list_elem_of_here.
  rewrite IH; [done|]. intros y i Hy. apply Hfg. by apply list_elem_of_further.
Qed.

(** X22. What the engine sends passes the server's validation exactly when
    no unsynced row has the empty id and every unsynced row has an accepted
    type: applied to the [records] a cycle started in [w] passes to
    [config.sync], [validateRecordsMetadata] returns them when that holds,
    and otherwise throws "id: minimum length is 1" or "type: enum mismatch"
    and nothing else; the state and the data of a sent record never fail
    it. *)
Theorem sent_records_validate (text : JS.value → option string) (types : list string)
    (w : World) :
  (validateRecordsMetadata text (records_argument w) types = Returns (records_argument w)
   ↔ ∀ r, r ∈ unsynced_of w → UnsyncedRecord.id r ≠ "" ∧ UnsyncedRecord.type r ∈ types)
  ∧ ∀ error,
      validateRecordsMetadata text (records_argument w) types = Throw error →
      error = Error "id: minimum length is 1" ∨ error = Error "type: enum mismatch".
Proof.
  rewrite validateRecordsMetadata_unfold. unfold records_argument, unsynced_of.
  set (rows := index_getAll _ w). rewrite <- map_map, !forEach_fmap.
  rewrite (forEach_ext _ (λ r _, if decide (IdbRecord.id r = "")
                                 then Throw (Error "id: minimum length is 1")
                                 else if decide (IdbRecord.type r ∈ types) then Returns tt
                                 else Throw (Error "type: enum mismatch")))
    by (intros r i _; apply (sent_record_check text types r i)).
  split.
  - assert (forEach
              (λ (r : IdbRecord.t) (_ : nat),
                 if decide (IdbRecord.id r = "")
                 then Throw (Error "id: minimum length is 1")
                 else if decide (IdbRecord.type r ∈ types) then Returns tt
                 else Throw (Error "type: enum mismatch")) 0 rows = Returns tt
            ↔ Forall (λ r, IdbRecord.id r ≠ "" ∧ IdbRecord.type r ∈ types) rows) as Hall.
    { apply forEach_returns. intros item _.
      repeat case_decide; split; try done; by intros [? ?]. }
    destruct (forEach _ 0 rows) as [[]|e]; cbn [mbind completion_bind].
    + split; [|done]. intros _ u Hu. apply list_elem_of_fmap in Hu as (r & -> & Hr).
      assert (Forall (λ r, IdbRecord.id r ≠ "" ∧ IdbRecord.type r ∈ types) rows) as Hrows
        by by apply Hall.
      rewrite Forall_forall in Hrows. exact (Hrows r Hr).
    + split; [done|]. intros Hrows. assert (@Throw () e = Returns ()); [|done].
      apply Hall, Forall_forall. intros r Hr. apply (Hrows (to_unsynced r)).
      apply list_elem_of_fmap. by exists r.
  - intros error. destruct (forEach _ 0 rows) as [[]|e] eqn:Hrun;
      cbn [mbind completion_bind]; [done|].
    intros [= ->]. apply forEach_throws in Hrun as (r & _ & _ & Hr).
    repeat case_decide; try done; injection Hr as <-; auto.
Qed.

Lemma lookup_property_with_data (key : string) (props : list (string * JS.value))
    (data : JS.value) :
  lookup_property key
    (map (λ p : string * JS.value, if decide (p.1 = "data") then (p.1, data) else p) props)
  = if decide (key = "data")
    then (if decide ("data" ∈ props.*1) then data else JS.VUndefined)
    else lookup_property key props.
Proof.
  induction props as [|[k v] props IH]; cbn [map lookup_property fst fmap list_fmap].
  - destruct (decide (key = "data")); [|done]. by rewrite decide_False by apply not_elem_of_nil.
  - destruct (decide (k = "data")) as [-> | Hk]; cbn [lookup_property fst].
    + destruct (decide ("data" = key)) as [<- | Hne].
      * rewrite decide_True by done. by rewrite decide_True by apply list_elem_of_here.
      * rewrite IH. destruct (decide (key = "data")) as [-> | _]; done.
    + destruct (decide (k = key)) as [-> | Hne].
      * by rewrite decide_False by done.
      * rewrite IH. destruct (decide (key = "data")); [|done].
        destruct (decide ("data" ∈ props.*1)) as [Hin | Hout].
        -- by rewrite decide_True by by apply list_elem_of_further.
        -- rewrite decide_False; [done|]. rewrite elem_of_cons. intros [? | ?]; by subst.
Qed.

Lemma lookup_property_found (key : string) (props : list (string * JS.value)) :
  lookup_property key props ≠ JS.VUndefined → key ∈ props.*1.
Proof.
  induction props as [|[k v] props IH]; cbn [lookup_property fmap list_fmap fst]; [done|].
  destruct (decide (k = key)) as [-> | Hne]; [intros _; apply list_elem_of_here|].
  intros H. by apply list_elem_of_further, IH.
Qed.

Lemma with_data_check (text : JS.value → option string) (types : list string)
    (item : JS.value) (data : list (string * JS.value)) (index : nat) :
  (∃ old, member "data" item = JS.VObj old) →
  (let item' := with_data (JS.VObj data) item in
   let name := ("records:" ++ pretty index)%string in
   validate.dictionary (JS.VObj [(name, item')]) name (Some ["id"; "state"; "type"; "data"]) ;;
   validate.string item' "id" (Some 1) None ;;
   validate.enum text item' "state" UnsyncedRecordStates ;;
   validate.enum text item' "type" types ;;
   validate.plainObject item' "data")
  = (let name := ("records:" ++ pretty index)%string in
     validate.dictionary (JS.VObj [(name, item)]) name (Some ["id"; "state"; "type"; "data"]) ;;
     validate.string item "id" (Some 1) None ;;
     validate.enum text item "state" UnsyncedRecordStates ;;
     validate.enum text item "type" types ;;
     validate.plainObject item "data").
Proof.
  intros (old & Hold). cbn zeta.
  rewrite !dictionary_record, !string_id_unfold, !plainObject_unfold. unfold validate.enum.
  destruct item as [| | | | | | | | | |items|props]; try done.
  cbn [with_data member] in *.
  assert ((map (λ p : string * JS.value,
                  if decide (p.1 = "data") then (p.1, JS.VObj data) else p) props).*1
          = props.*1) as ->.
  { clear Hold. induction props as [|[k v] props IH]; [done|].
    cbn [map fmap list_fmap fst] in *. rewrite IH. by destruct (decide (k = "data")). }
  rewrite !lookup_property_with_data.
  rewrite (decide_False (P := "id" = "data")) by done.
  rewrite (decide_False (P := "state" = "data")) by done.
  rewrite (decide_False (P := "type" = "data")) by done.
  rewrite (decide_True (P := "data" = "data")) by done.
  rewrite decide_True by (apply lookup_property_found; by rewrite Hold).
  by rewrite Hold.
Qed.

(** X23. The validation looks at no payload: when the [data] of every
    element is an object, replacing each by another object, whatever it
    holds, leaves the outcome of [validateRecordsMetadata] as it was -
    accepted, or rejected with the same error. *)
Theorem validation_ignores_payload (text : JS.value → option string) (types : list string)
    (items : list JS.value) (payload : JS.value → list (string * JS.value)) :
  Forall (λ item, ∃ data, member "data" item = JS.VObj data) items →
  thrown (validateRecordsMetadata text
            (JS.VArr (map (λ item, with_data (JS.VObj (payload item)) item) items)) types)
  = thrown (validateRecordsMetadata text (JS.VArr items) types).
Proof.
  intros Hdata. rewrite !validateRecordsMetadata_unfold, forEach_fmap.
  rewrite (forEach_ext _ (λ item index,
             let name := ("records:" ++ pretty index)%string in
             validate.dictionary (JS.VObj [(name, item)]) name
                                 (Some ["id"; "state"; "type"; "data"]) ;;
             validate.string item "id" (Some 1) None ;;
             validate.enum text item "state" UnsyncedRecordStates ;;
             validate.enum text item "type" types ;;
             validate.plainObject item "data") items 0).
  - by destruct (forEach _ 0 items) as [[]|e].
  - intros item index Hin. rewrite Forall_forall in Hdata.
    exact (with_data_check text types item (payload item) index (Hdata item Hin)).
Qed.

Lemma validation_ignores_payload_witness :
  thrown (validateRecordsMetadata no_text
            (JS.VArr [JS.VObj [("id", JS.VStr "1"); ("type", JS.VStr "todo");
                               ("state", JS.VStr "updated");
                               ("data", JS.VObj [("title", JS.VBigInt 1)])]])
            ["todo"])
  = thrown (validateRecordsMetadata no_text
              (JS.VArr [unsynced_to_js (UnsyncedRecord.mk "1" "todo" "updated" todo_data)])
              ["todo"]).
Proof.
  apply (validation_ignores_payload no_text ["todo"]
           [unsynced_to_js (UnsyncedRecord.mk "1" "todo" "updated" todo_data)]
           (λ _, [("title", JS.VBigInt 1)])).
  repeat constructor. by exists [("title", JS.VStr "a"); ("done", JS.VBool false)].
Defined.

(** ** Periodic syncing *)

Section periodic.
Context (t0 : Timers).

Lemma console_warn_invariant (t : Timers) :
  periodic_invariant t0 t → periodic_invariant t0 (console_warn t).
Proof.
  intros (Hfresh & Hheld & Hrest). split; [exact Hfresh|]. split; [exact Hheld|].
  rewrite <- Hrest. unfold onCleanup, clearInterval, console_warn. cbn.
  by destruct (periodicSyncInterval t).
Qed.

Lemma startPeriodicSync_step (periodic : Periodic) (t : Timers) :
  periodic_invariant t0 t →
  periodic_invariant t0 (startPeriodicSync periodic t)
  ∧ match delay_of periodic with
    | Some delay =>
        ∃ h, periodicSyncInterval (startPeriodicSync periodic t) = Some h
             ∧ intervals t0 !! h = None
             ∧ intervals (startPeriodicSync periodic t) = <[h := delay]> (intervals t0)
    | None => intervals (startPeriodicSync periodic t) = intervals t0
    end.
Proof.
  intros (Hfresh & Hheld & Hrest).
  assert (fresh_handles (clearInterval (periodicSyncInterval t) t)) as Hfresh'.
  { intros h Hh. unfold clearInterval. destruct (periodicSyncInterval t) as [old|]; cbn.
    - destruct (decide (h = old)) as [-> | Hne]; [apply lookup_delete_eq|].
      rewrite lookup_delete_ne by done. by apply Hfresh.
    - by apply Hfresh. }
  assert (periodicSyncInterval (clearInterval (periodicSyncInterval t) t)
          = periodicSyncInterval t) as Hsame.
  { unfold clearInterval. by destruct (periodicSyncInterval t) eqn:Hheld'. }
  assert (next_handle (clearInterval (periodicSyncInterval t) t) = next_handle t) as Hnext.
  { unfold clearInterval. by destruct (periodicSyncInterval t). }
  assert (intervals t0 !! next_handle t = None) as Hnew.
  { rewrite <- Hrest, <- Hnext. apply Hfresh'. by rewrite Hnext. }
  assert (periodic_invariant t0 (clearInterval (periodicSyncInterval t) t)) as Hcleared.
  { split; [done|]. split; [by rewrite Hsame|].
    unfold onCleanup. rewrite Hsame. rewrite <- Hrest. unfold onCleanup, clearInterval.
    destruct (periodicSyncInterval t) as [old|]; cbn; [|done]. by rewrite delete_delete_eq. }
  assert (∀ delay,
            let t' := assign_periodicSyncInterval
                        (setInterval delay (clearInterval (periodicSyncInterval t) t)) in
            periodic_invariant t0 t'
            ∧ ∃ h, periodicSyncInterval t' = Some h ∧ intervals t0 !! h = None
                   ∧ intervals t' = <[h := delay]> (intervals t0)) as Hset.
  { intros delay. cbn zeta. unfold assign_periodicSyncInterval, setInterval.
    cbn [fst snd intervals next_handle periodicSyncInterval warnings]. rewrite Hnext.
    assert (intervals (clearInterval (periodicSyncInterval t) t) = intervals t0) as ->.
    { by rewrite <- Hrest. }
    split.
    - split; [|split].
      + intros h Hh. cbn in *. rewrite lookup_insert_ne by lia.
        rewrite <- Hrest. apply Hfresh'. rewrite Hnext. lia.
      + cbn. by intros h [= <-].
      + unfold onCleanup, clearInterval. cbn. rewrite delete_insert_eq.
        by apply delete_id.
    - exists (next_handle t). by cbn. }
  assert (periodic_invariant t0 (console_warn (clearInterval (periodicSyncInterval t) t))
          ∧ intervals (console_warn (clearInterval (periodicSyncInterval t) t))
            = intervals t0) as Hwarn.
  { split; [|cbn; by rewrite <- Hrest].
    by apply console_warn_invariant. }
  assert (intervals (clearInterval (periodicSyncInterval t) t) = intervals t0) as Hnone.
  { by rewrite <- Hrest. }
  unfold startPeriodicSync, delay_of. cbn zeta.
  destruct periodic as [| | |n| |[]|]; try done; try (by apply Hset).
  case_bool_decide; [by apply Hset | done].
Qed.

Lemma restarts_invariant (runs : list Periodic) (t : Timers) :
  periodic_invariant t0 t → periodic_invariant t0 (restarts runs t).
Proof.
  revert t. induction runs as [|periodic runs IH]; intros t Ht; [done|].
  cbn. apply IH. by apply startPeriodicSync_step.
Qed.

End periodic.

(** X24. However often the effect restarts periodic syncing, the
    component has at most one interval timer running, and it is the one the
    last value of [props.periodic] asked for: after any number of runs of
    [startPeriodicSync], the page has the timers it had before the first
    run, plus - when the last value was [true], a positive number or
    positive infinity - one timer with that delay (60000 ms for [true])
    under a handle that was not in use; a last value that asks for none
    ([undefined], [null], zero, a negative number, NaN, any other value)
    leaves no timer of the component running; and [onCleanup] removes the
    timer, so that the page has the timers it started with. *)
Theorem one_periodic_timer (t0 : Timers) (runs : list Periodic) :
  fresh_handles t0 →
  periodicSyncInterval t0 = None →
  match last runs ≫= delay_of with
  | Some delay =>
      ∃ h, periodicSyncInterval (restarts runs t0) = Some h
           ∧ intervals t0 !! h = None
           ∧ intervals (restarts runs t0) = <[h := delay]> (intervals t0)
  | None => intervals (restarts runs t0) = intervals t0
  end
  ∧ intervals (onCleanup (restarts runs t0)) = intervals t0.
Proof.
  intros Hfresh Hnone.
  assert (periodic_invariant t0 t0) as Hinit.
  { split; [done|]. split; [by rewrite Hnone|]. unfold onCleanup. by rewrite Hnone. }
  split; [|by apply (restarts_invariant t0 runs t0)].
  destruct runs as [|periodic runs _] using rev_ind; [done|].
  rewrite last_snoc. unfold restarts. rewrite foldl_app. cbn [foldl mbind option_bind].
  apply startPeriodicSync_step. by apply restarts_invariant.
Qed.

Lemma one_periodic_timer_witness :
  intervals (restarts [periodic_true; periodic_number 5000; periodic_NaN; periodic_number 250]
                      no_timers)
  = {[ 3 := Milliseconds 250 ]}.
Proof.
  destruct (one_periodic_timer no_timers
              [periodic_true; periodic_number 5000; periodic_NaN; periodic_number 250])
    as [(h & Hh & _ & ->) _]; [done | done |].
  injection Hh as <-. reflexivity.
Defined.

(** ** Subscribers registered at different times *)

(** X25. Registrations made at different clock values do not meet: a
    notification runs both callbacks, each handle removes the registration
    it was returned for and leaves the other in place, and after both
    handles are called the map is the earlier one without the two keys. *)
Theorem distinct_registrations_are_independent {Callback : Type} (t1 t2 : Z)
    (first second : Callback) (subscribers : gmap string Callback) :
  t1 ≠ t2 →
  let r1 := listenToUnsyncedChanges t1 first subscribers in
  let r2 := listenToUnsyncedChanges t2 second r1.2 in
  first ∈ subscribers_values r2.2
  ∧ second ∈ subscribers_values r2.2
  ∧ unsubscribe r1.1 r2.2 !! r1.1 = None
  ∧ unsubscribe r1.1 r2.2 !! r2.1 = Some second
  ∧ unsubscribe r2.1 r2.2 !! r2.1 = None
  ∧ unsubscribe r2.1 r2.2 !! r1.1 = Some first
  ∧ unsubscribe r2.1 (unsubscribe r1.1 r2.2)
    = unsubscribe r2.1 (unsubscribe r1.1 subscribers).
Proof.
  intros Hne. cbn zeta. unfold listenToUnsyncedChanges, unsubscribe. cbn [fst snd].
  assert (pretty t1 ≠ pretty t2) as Hkeys.
  { intros Heq. by apply (inj pretty) in Heq. }
  split; [|split; [|split; [|split; [|split; [|split]]]]].
  - apply elem_of_subscribers_values. exists (pretty t1).
    rewrite lookup_insert_ne by done. apply lookup_insert_eq.
  - apply elem_of_subscribers_values. exists (pretty t2). apply lookup_insert_eq.
  - apply lookup_delete_eq.
  - rewrite lookup_delete_ne by done. apply lookup_insert_eq.
  - apply lookup_delete_eq.
  - rewrite lookup_delete_ne, lookup_insert_ne by done. apply lookup_insert_eq.
  - apply map_eq. intros k.
    destruct (decide (k = pretty t2)) as [-> | H2]; [by rewrite !lookup_delete_eq|].
    rewrite !(lookup_delete_ne _ (pretty t2)) by done.
    destruct (decide (k = pretty t1)) as [-> | H1]; [by rewrite !lookup_delete_eq|].
    by rewrite !lookup_delete_ne, !lookup_insert_ne by done.
Qed.

Lemma distinct_registrations_are_independent_witness :
  let r1 := listenToUnsyncedChanges 1700000000000 "mount" (∅ : gmap string string) in
  let r2 := listenToUnsyncedChanges 1700000000001 "remount" r1.2 in
  unsubscribe r1.1 r2.2 !! r2.1 = Some "remount".
Proof.
  cbn zeta.
  destruct (distinct_registrations_are_independent 1700000000000 1700000000001
              "mount" "remount" (∅ : gmap string string)) as (_ & _ & _ & H & _);
    [done | exact H].
Defined.
